(** * De Bruijn graph assembler: a model of [debruijn/debruijn.py]

    The program builds a weighted directed graph from k-mer counts, removes
    bubbles and tips by selecting one path among competing ones, and reads the
    contigs off the remaining source-to-sink paths.

    The graph is a [networkx.DiGraph] that every function mutates in place and
    hands back; the model keeps it in a world state together with the state of
    the pseudorandom generator, and threads that world through a small state
    and exception monad.  The library functions the program calls (networkx,
    statistics, random) are modelled first, from their documented behaviour;
    the functions of the program follow, in the order of the source.

    Numbers.  Weights, lengths and averages are Python ints and floats; the
    model takes them as exact rationals.  The average of integer weights is in
    Python the double nearest to the exact mean, and the comparisons of the
    program agree with the exact ones as long as two different means are
    further apart than a double resolves.

    Recursion.  [simplify_bubbles], [solve_entry_tips] and [solve_out_tips]
    call themselves; in the model they take the depth they may recurse to, and
    the outcome [Diverge] says that this depth did not suffice.

    Sets.  [nx.lowest_common_ancestor] starts from the first element of a
    Python set of strings, and the order of such a set changes from one
    process to the next.  The model takes that order as a parameter
    ([SetOrder]); the properties hold for every order, and the statements
    at concrete inputs are taken in node order.

    Files.  [read_fastq] is modelled on the lines of the input file, as
    iterating the file gives them, and [save_contigs] by the text it writes,
    with [textwrap.fill] as a parameter.  Strings are sequences of characters
    below 256.  Argument parsing and drawing ([isfile], [get_arguments],
    [draw_graph]) are left out. *)

From Stdlib Require Import String Ascii DecimalString Bool Arith ZArith QArith Lia
  Permutation List.
Import ListNotations.

Local Open Scope list_scope.
Local Open Scope nat_scope.

(** ** Python values used by the program *)

(** A node is a string (a (k-1)-mer); a path is a list of nodes. *)
Definition node := string.
Definition path := list node.

(** Exceptions the program can run into. *)
Inductive exn : Type :=
| StatisticsError
| IndexError
| ValueError
| TypeError
| NetworkXError
| NodeNotFound
| NetworkXPointlessConcept.

Definition mem (n : node) (l : list node) : bool := existsb (String.eqb n) l.

(** ** networkx: the directed graph *)

Module Nx.

(** [DiGraph] keeps its nodes and, per node, its successors and predecessors in
    dictionaries, which iterate in insertion order.  One list of nodes and one
    list of weighted edges, both in insertion order, give the same iteration
    orders: the successors of [u] are the targets of the edges leaving [u] in
    the order the edges were added, and likewise for predecessors. *)
Record DiGraph : Type := mkDiGraph {
  g_nodes : list node;
  g_edges : list (node * node * Z)
}.

Definition empty : DiGraph := mkDiGraph [] [].

Definition e_src (e : node * node * Z) : node := fst (fst e).
Definition e_dst (e : node * node * Z) : node := snd (fst e).
Definition e_weight (e : node * node * Z) : Z := snd e.

Definition is_edge (u v : node) (e : node * node * Z) : bool :=
  String.eqb (e_src e) u && String.eqb (e_dst e) v.

Definition touches (n : node) (e : node * node * Z) : bool :=
  String.eqb (e_src e) n || String.eqb (e_dst e) n.

Definition has_node (g : DiGraph) (n : node) : bool := mem n (g_nodes g).

Definition has_edge (g : DiGraph) (u v : node) : bool :=
  existsb (is_edge u v) (g_edges g).

(** [G.successors(n)] and [G.predecessors(n)]. *)
Definition successors (g : DiGraph) (n : node) : list node :=
  map e_dst (filter (fun e => String.eqb (e_src e) n) (g_edges g)).

Definition predecessors (g : DiGraph) (n : node) : list node :=
  map e_src (filter (fun e => String.eqb (e_dst e) n) (g_edges g)).

(** [G.degree(n)] of a directed graph: in-degree plus out-degree (a self-loop
    counts in both). *)
Definition degree (g : DiGraph) (n : node) : nat :=
  length (successors g n) + length (predecessors g n).

Definition number_of_edges (g : DiGraph) : nat := length (g_edges g).

Definition add_node (g : DiGraph) (n : node) : DiGraph :=
  if has_node g n then g else mkDiGraph (g_nodes g ++ [n]) (g_edges g).

(** [G.add_edge(u, v, weight=w)]: both endpoints become nodes; an edge that is
    already there keeps its place and takes the new weight. *)
Definition add_edge (g : DiGraph) (u v : node) (w : Z) : DiGraph :=
  let g1 := add_node (add_node g u) v in
  if has_edge g1 u v
  then mkDiGraph (g_nodes g1)
         (map (fun e => if is_edge u v e then (u, v, w) else e) (g_edges g1))
  else mkDiGraph (g_nodes g1) (g_edges g1 ++ [(u, v, w)]).

(** [G.remove_edge(u, v)] raises [NetworkXError] when there is no such edge;
    [None] stands for that. *)
Definition remove_edge (g : DiGraph) (u v : node) : option DiGraph :=
  if has_edge g u v
  then Some (mkDiGraph (g_nodes g)
               (filter (fun e => negb (is_edge u v e)) (g_edges g)))
  else None.

(** One round of [G.remove_nodes_from]: a node that is absent is skipped
    silently; a node that is present goes with every edge that touches it. *)
Definition remove_node_silent (g : DiGraph) (n : node) : DiGraph :=
  mkDiGraph (filter (fun m => negb (String.eqb m n)) (g_nodes g))
            (filter (fun e => negb (touches n e)) (g_edges g)).

Definition remove_nodes_from (g : DiGraph) (ns : list node) : DiGraph :=
  fold_left remove_node_silent ns g.

(** [nx.isolates(G)]: the nodes of degree 0. *)
Definition isolates (g : DiGraph) : list node :=
  filter (fun n => Nat.eqb (degree g n) 0) (g_nodes g).

(** [G.subgraph(nodes).edges(data=True)]: the edges of [G] induced by
    [nodes], that is every edge of [G] with both ends in [nodes]. *)
Definition subgraph_edges (g : DiGraph) (ns : list node) : list (node * node * Z) :=
  filter (fun e => mem (e_src e) ns && mem (e_dst e) ns) (g_edges g).

(** [G.get_edge_data(u, v)]: the attributes of the edge, [None] without it. *)
Definition get_edge_data (g : DiGraph) (u v : node) : option Z :=
  option_map e_weight (find (is_edge u v) (g_edges g)).

(** A graph value is well formed when the ends of its edges are nodes and
    neither a node nor an edge occurs twice; every [DiGraph] object is. *)
Definition edge_key (e : node * node * Z) : node * node := fst e.

Definition wf (g : DiGraph) : Prop :=
  NoDup (g_nodes g) /\ NoDup (map edge_key (g_edges g)) /\
  forall e, In e (g_edges g) -> In (e_src e) (g_nodes g) /\ In (e_dst e) (g_nodes g).

End Nx.

Import Nx.

(** ** The world: the graph object and the generator's state *)

(** The program holds one [DiGraph] object, which it mutates in place, and
    draws from the module-level generator of [random].  The generator's state
    is the stream of raw draws still to come. *)
Record World : Type := mkWorld {
  graph : DiGraph;
  rng : nat -> nat
}.

(** A call returns a value, raises an exception, or exhausts the recursion
    depth it was given; the first two leave a world behind, as mutated up to
    that point. *)
Inductive res (A : Type) : Type :=
| Ok (a : A) (w : World)
| Raise (e : exn) (w : World)
| Diverge.

Arguments Ok {A} a w.
Arguments Raise {A} e w.
Arguments Diverge {A}.

Definition M (A : Type) : Type := World -> res A.

Definition ret {A : Type} (a : A) : M A := fun w => Ok a w.

Definition bind {A B : Type} (m : M A) (k : A -> M B) : M B :=
  fun w => match m w with
           | Ok a w' => k a w'
           | Raise e w' => Raise e w'
           | Diverge => Diverge
           end.

Definition raise {A : Type} (e : exn) : M A := fun w => Raise e w.

Definition diverge {A : Type} : M A := fun _ => Diverge.

Definition get_graph : M DiGraph := fun w => Ok (graph w) w.

Definition put_graph (g : DiGraph) : M unit := fun w => Ok tt (mkWorld g (rng w)).

(** A library call that returns or raises without touching the world. *)
Definition lift {A : Type} (r : exn + A) : M A :=
  match r with
  | inl e => raise e
  | inr a => ret a
  end.

Definition or_raise {A : Type} (e : exn) (o : option A) : exn + A :=
  match o with
  | Some a => inr a
  | None => inl e
  end.

Declare Scope monad_scope.
Delimit Scope monad_scope with monad.
Notation "x <- m ;; k" := (bind m (fun x => k))
  (at level 61, m at next level, right associativity) : monad_scope.
Notation "m ;; k" := (bind m (fun _ => k))
  (at level 61, right associativity) : monad_scope.
Local Open Scope monad_scope.

Fixpoint mapM {A B : Type} (f : A -> M B) (l : list A) : M (list B) :=
  match l with
  | [] => ret []
  | x :: l' => y <- f x ;; ys <- mapM f l' ;; ret (y :: ys)
  end.

(** ** random *)

Module Random.

(** [random.seed(a)] sets the generator's state from [a] alone: the generator
    (the Mersenne Twister in CPython) is a fixed function from the seed to the
    stream of draws, here a parameter [gen]. *)
Definition seed (gen : Z -> nat -> nat) (a : Z) : M unit :=
  fun w => Ok tt (mkWorld (graph w) (gen a)).

(** [random.randint(a, b)]: an integer of [a..b], taken from the next raw
    draw; [ValueError] on an empty range. *)
Definition randint (a b : Z) : M Z :=
  fun w =>
    if (b <? a)%Z then Raise ValueError w
    else Ok (a + Z.of_nat (rng w 0) mod (b - a + 1))%Z
            (mkWorld (graph w) (fun i => rng w (S i))).

End Random.

(** ** statistics *)

Module Statistics.

Definition Qsum (l : list Q) : Q := fold_right Qplus (0 # 1)%Q l.

Definition Qlen (l : list Q) : Q := inject_Z (Z.of_nat (length l)).

(** [statistics.mean(data)]: [StatisticsError] on no data.  Python returns the
    exact mean rounded to a float; the model keeps the exact rational. *)
Definition mean (data : list Q) : exn + Q :=
  match data with
  | [] => inl StatisticsError
  | _ => inr (Qsum data / Qlen data)%Q
  end.

(** [statistics.variance(data)]: the sample variance, [StatisticsError] with
    fewer than two data points. *)
Definition variance (data : list Q) : exn + Q :=
  if length data <? 2 then inl StatisticsError
  else
    let c := (Qsum data / Qlen data)%Q in
    inr (Qsum (map (fun x => (x - c) * (x - c))%Q data) / (Qlen data - 1))%Q.

(** [statistics.stdev(data)] is the square root of [variance(data)].  The
    program only tests [stdev(data) > 0], which holds exactly when the
    variance is positive: [stdev_positive] is that test. *)
Definition stdev_positive (data : list Q) : exn + bool :=
  match variance data with
  | inl e => inl e
  | inr v => inr (negb (Qle_bool v 0))
  end.

End Statistics.

(** ** Python built-ins on lists and strings *)

(** [max(l)]: the first of the greatest elements; [ValueError] on []. *)
Definition py_max (l : list Q) : exn + Q :=
  match l with
  | [] => inl ValueError
  | x :: l' => inr (fold_left (fun m y => if Qle_bool y m then m else y) l' x)
  end.

(** [l.index(x)]: the first position holding a value equal to [x];
    [ValueError] when there is none. *)
Fixpoint py_index (x : Q) (l : list Q) : exn + nat :=
  match l with
  | [] => inl ValueError
  | y :: l' =>
      if Qeq_bool y x then inr 0
      else match py_index x l' with
           | inl e => inl e
           | inr i => inr (S i)
           end
  end.

(** [l.pop(i)] for [0 <= i]: the list without position [i]; [IndexError] when
    [i] is out of range. *)
Fixpoint py_pop {A : Type} (l : list A) (i : nat) : exn + list A :=
  match l, i with
  | [], _ => inl IndexError
  | _ :: l', 0 => inr l'
  | x :: l', S i' =>
      match py_pop l' i' with
      | inl e => inl e
      | inr r => inr (x :: r)
      end
  end.

(** [l[0]] and [l[-1]]: [IndexError] on []. *)
Definition py_first {A : Type} (l : list A) : exn + A :=
  match l with
  | [] => inl IndexError
  | x :: _ => inr x
  end.

Fixpoint py_last {A : Type} (l : list A) : exn + A :=
  match l with
  | [] => inl IndexError
  | [x] => inr x
  | _ :: l' => py_last l'
  end.

(** [s[i:]] for any integer [i]: a negative [i] counts from the end, and the
    start is clamped to the string. *)
Definition py_slice_from (s : string) (i : Z) : string :=
  let n := Z.of_nat (String.length s) in
  let start := if (i <? 0)%Z then Z.max (i + n) 0 else Z.min i n in
  substring (Z.to_nat start) (String.length s - Z.to_nat start) s.

(** [s[:-1]] and [s[1:]]. *)
Definition py_drop_last (s : string) : string :=
  substring 0 (String.length s - 1) s.

Definition py_drop_first (s : string) : string :=
  substring 1 (String.length s - 1) s.

(** ** The iteration order of a set of strings *)

(** networkx keeps the common ancestors of two nodes in a Python set and
    starts from [next(iter(...))] of it.  A set of strings is iterated in the
    order of the hashes of its elements, which CPython draws anew for every
    process: the order is fixed within a run and may differ from one run to
    the next, whatever the seed of [random].  [set_first g node1 node2 s] is
    the position, among the elements [s] of the set built for the call on
    [g], [node1] and [node2], of the element the iteration starts from (taken
    modulo the size of the set). *)
Class SetOrder : Type := {
  set_first : DiGraph -> node -> node -> list node -> nat
}.

(** The order in which the first element is the first one in node order, and
    the order in which it is the last one. *)
#[global] Instance node_order : SetOrder := {| set_first := fun _ _ _ _ => 0 |}.

Definition reverse_node_order : SetOrder :=
  {| set_first := fun _ _ _ s => length s - 1 |}.

(** ** networkx: the algorithms the program calls *)

Module NxAlg.

(** The target set of [all_simple_paths(G, source, target)]: [{target}] when
    [target] is a node; otherwise networkx takes [set(target)], which for a
    string is the set of its characters. *)
Definition targets_of (g : DiGraph) (target : node) : list node :=
  if has_node g target then [target]
  else map (fun c => String c EmptyString) (list_ascii_of_string target).

(** The depth-first enumeration of [_all_simple_paths_graph]: [visited] is the
    path walked so far and ends in [u].  The children of [u] are tried in
    adjacency order; a child already on the path is skipped; a child that is a
    target yields the path extended by it; the search goes on through the
    child while some target is not on the path.  [depth] bounds the number of
    nodes that may still be appended (networkx's [cutoff]). *)
Fixpoint simple_paths_from (depth : nat) (g : DiGraph) (targets visited : list node)
    (u : node) : list path :=
  match depth with
  | 0 => []
  | S d =>
      flat_map
        (fun child =>
           if mem child visited then []
           else
             (if mem child targets then [visited ++ [child]] else [])
             ++ (if forallb (fun t => mem t (visited ++ [child])) targets then []
                 else simple_paths_from d g targets (visited ++ [child]) child))
        (successors g u)
  end.

(** [list(nx.all_simple_paths(G, source, target))], as in networkx 2:
    [NodeNotFound] when [source] is not a node; no path when [source] is a
    target; otherwise the enumeration with [cutoff = len(G) - 1]. *)
Definition all_simple_paths (g : DiGraph) (source target : node) : exn + list path :=
  if negb (has_node g source) then inl NodeNotFound
  else
    let targets := targets_of g target in
    if mem source targets then inr []
    else inr (simple_paths_from (length (g_nodes g) - 1) g targets [source] source).

(** [v] is [u] or can be reached from [u] along at most [steps] edges. *)
Fixpoint reaches (steps : nat) (g : DiGraph) (u v : node) : bool :=
  String.eqb u v
  || match steps with
     | 0 => false
     | S k => existsb (fun c => reaches k g c v) (successors g u)
     end.

(** [nx.ancestors(G, v)] together with [v] itself. *)
Definition ancestors_or_self (g : DiGraph) (v : node) : list node :=
  filter (fun a => reaches (length (g_nodes g)) g a v) (g_nodes g).

(** [nx.is_directed_acyclic_graph(G)], by topological generations: the nodes
    without an incoming edge are taken away with their outgoing edges, again
    and again; the graph is acyclic when this uses up every node. *)
Fixpoint topological_generations (rounds : nat) (ns : list node)
    (es : list (node * node * Z)) : bool :=
  match ns with
  | [] => true
  | _ :: _ =>
      match rounds with
      | 0 => false
      | S r =>
          let zero :=
            filter (fun n => negb (existsb (fun e => String.eqb (e_dst e) n) es)) ns in
          match zero with
          | [] => false
          | _ :: _ =>
              topological_generations r
                (filter (fun n => negb (mem n zero)) ns)
                (filter (fun e => negb (mem (e_src e) zero)) es)
          end
      end
  end.

Definition is_directed_acyclic_graph (g : DiGraph) : bool :=
  topological_generations (length (g_nodes g)) (g_nodes g) (g_edges g).

(** Walk down from a common ancestor to one with no successor among the
    common ancestors. *)
Fixpoint lowest_from (steps : nat) (g : DiGraph) (common : list node) (c : node) : node :=
  match steps with
  | 0 => c
  | S k =>
      match find (fun s => mem s common) (successors g c) with
      | Some s => lowest_from k g common s
      | None => c
      end
  end.

(** [nx.lowest_common_ancestor(G, node1, node2)]: [NetworkXError] unless [G]
    is acyclic, [NetworkXPointlessConcept] on the null graph, [NodeNotFound]
    for a node that is not in [G]; [None] when the two nodes have no common
    ancestor, and otherwise a common ancestor none of whose successors is
    one: networkx starts from the element of the set of common ancestors
    that the iteration of the set gives first, and walks down from it. *)
Definition lowest_common_ancestor {order : SetOrder} (g : DiGraph) (node1 node2 : node)
    : exn + option node :=
  if negb (is_directed_acyclic_graph g) then inl NetworkXError
  else if Nat.eqb (length (g_nodes g)) 0 then inl NetworkXPointlessConcept
  else if negb (has_node g node1 && has_node g node2) then inl NodeNotFound
  else
    let common :=
      filter (fun a => mem a (ancestors_or_self g node2)) (ancestors_or_self g node1) in
    match common with
    | [] => inr None
    | c :: _ =>
        let common_ancestor :=
          nth (set_first g node1 node2 common mod length common) common c in
        inr (Some (lowest_from (length (g_nodes g)) g common common_ancestor))
    end.

End NxAlg.

Import NxAlg.

(** * The program *)

(** ** read_fastq *)

(** [str.isspace] on the characters below 256: the ASCII white space, the
    separators 28 to 31, and the code points 133 and 160. *)
Definition is_space (c : ascii) : bool :=
  let n := nat_of_ascii c in
  ((9 <=? n) && (n <=? 13)) || ((28 <=? n) && (n <=? 32))
  || Nat.eqb n 133 || Nat.eqb n 160.

(** [s.lstrip()], [s.rstrip()] and [s.strip()]. *)
Fixpoint py_lstrip (s : string) : string :=
  match s with
  | EmptyString => EmptyString
  | String c s' => if is_space c then py_lstrip s' else s
  end.

Fixpoint py_rstrip (s : string) : string :=
  match s with
  | EmptyString => EmptyString
  | String c s' =>
      match py_rstrip s' with
      | EmptyString => if is_space c then EmptyString else String c EmptyString
      | r => String c r
      end
  end.

Definition py_strip (s : string) : string := py_rstrip (py_lstrip s).

(** How a generator ends: its body returns, or a [next] inside the body finds
    nothing left and raises [StopIteration] there, which ends the generator,
    silently before Python 3.7 and by a [RuntimeError] since. *)
Inductive generator_end : Type :=
| Exhausted
| StopIterationInside.

(** [read_fastq] over the lines of the file, as iterating the file gives
    them: what the generator yields, and how it ends.  Each round takes a
    line (the loop ends when there is none, or when it is empty), takes the
    next line and yields it stripped, then takes two more lines. *)
Fixpoint read_fastq (lines : list string) : list string * generator_end :=
  match lines with
  | [] => ([], Exhausted)
  | EmptyString :: _ => ([], Exhausted)
  | String _ _ :: rest =>
      match rest with
      | [] => ([], StopIterationInside)
      | sequence :: rest2 =>
          match rest2 with
          | _ :: _ :: rest4 =>
              let (yielded, e) := read_fastq rest4 in
              (py_strip sequence :: yielded, e)
          | _ => ([py_strip sequence], StopIterationInside)
          end
      end
  end.

(** ** cut_kmer, build_kmer_dict, build_graph *)

(** [cut_kmer(read, kmer_size)]: the windows [read[i : i + kmer_size]] for
    [i] in [range(len(read) - kmer_size + 1)]; [kmer_size] is a natural
    number. *)
Definition cut_kmer (read : string) (kmer_size : nat) : list string :=
  map (fun i => substring i kmer_size read)
      (seq 0 (String.length read + 1 - kmer_size)).

(** [kmer_dict[kmer] = kmer_dict.get(kmer, 0) + 1] on a dictionary kept in
    insertion order. *)
Fixpoint count_kmer (kmer_dict : list (string * Z)) (kmer : string) : list (string * Z) :=
  match kmer_dict with
  | [] => [(kmer, 1%Z)]
  | (k, c) :: d =>
      if String.eqb k kmer then (k, (c + 1)%Z) :: d
      else (k, c) :: count_kmer d kmer
  end.

(** [build_kmer_dict]: the reads stand for the sequences [read_fastq] yields
    from the file. *)
Definition build_kmer_dict (reads : list string) (kmer_size : nat) : list (string * Z) :=
  fold_left
    (fun kmer_dict sequence => fold_left count_kmer (cut_kmer sequence kmer_size) kmer_dict)
    reads [].

Definition build_graph (kmer_dict : list (string * Z)) : DiGraph :=
  fold_left
    (fun G kv => add_edge G (py_drop_last (fst kv)) (py_drop_first (fst kv)) (snd kv))
    kmer_dict Nx.empty.

(** ** remove_paths *)

(** [for i in range(len(path) - 1): graph.remove_edge(path[i], path[i+1])] *)
Fixpoint remove_path_edges (p : path) : M unit :=
  match p with
  | u :: ((v :: _) as tl) =>
      g <- get_graph ;;
      g' <- lift (or_raise NetworkXError (remove_edge g u v)) ;;
      put_graph g' ;;
      remove_path_edges tl
  | _ => ret tt
  end.

Fixpoint remove_all_path_edges (path_list : list path) : M unit :=
  match path_list with
  | [] => ret tt
  | p :: rest => remove_path_edges p ;; remove_all_path_edges rest
  end.

Fixpoint firsts (path_list : list path) : exn + list node :=
  match path_list with
  | [] => inr []
  | p :: rest =>
      match py_first p, firsts rest with
      | inr x, inr xs => inr (x :: xs)
      | inl e, _ => inl e
      | _, inl e => inl e
      end
  end.

Fixpoint lasts (path_list : list path) : exn + list node :=
  match path_list with
  | [] => inr []
  | p :: rest =>
      match py_last p, lasts rest with
      | inr x, inr xs => inr (x :: xs)
      | inl e, _ => inl e
      | _, inl e => inl e
      end
  end.

Definition remove_paths (path_list : list path) (delete_entry_node delete_sink_node : bool)
    : M unit :=
  remove_all_path_edges path_list ;;
  (if delete_entry_node
   then ns <- lift (firsts path_list) ;;
        g <- get_graph ;; put_graph (remove_nodes_from g ns)
   else ret tt) ;;
  (if delete_sink_node
   then ns <- lift (lasts path_list) ;;
        g <- get_graph ;; put_graph (remove_nodes_from g ns)
   else ret tt) ;;
  g <- get_graph ;;
  put_graph (remove_nodes_from g (isolates g)).

(** ** select_best_path *)

Definition select_best_path (path_list : list path) (path_length weight_avg_list : list Q)
    (delete_entry_node delete_sink_node : bool) : M unit :=
  if Nat.eqb (length path_list) 1 then ret tt
  else
    std_weight <- lift (Statistics.stdev_positive weight_avg_list) ;;
    std_length <- lift (Statistics.stdev_positive path_length) ;;
    selected_path_index <-
      (if (std_weight : bool) then
         m <- lift (py_max weight_avg_list) ;; lift (py_index m weight_avg_list)
       else if (std_length : bool) then
         m <- lift (py_max path_length) ;; lift (py_index m path_length)
       else
         i <- Random.randint 0 (Z.of_nat (length path_list) - 1) ;; ret (Z.to_nat i)) ;;
    path_list_ <- lift (py_pop path_list selected_path_index) ;;
    remove_paths path_list_ delete_entry_node delete_sink_node.

(** ** path_average_weight *)

(** The mean of the weights of the edges of [graph.subgraph(path)]. *)
Definition path_average_weight (g : DiGraph) (p : path) : exn + Q :=
  Statistics.mean (map (fun e => inject_Z (e_weight e)) (subgraph_edges g p)).

(** ** solve_bubble *)

(** [len(path) - 1] *)
Definition path_len (p : path) : Q := inject_Z (Z.of_nat (length p) - 1).

(** [ancestor_node] and [descendant_node] are Python values: a node, or
    [None], which is never a node of the graph, so that [all_simple_paths]
    raises [NodeNotFound] on it. *)
Definition solve_bubble (ancestor_node descendant_node : option node) : M unit :=
  g <- get_graph ;;
  all_paths <-
    lift (match ancestor_node, descendant_node with
          | Some a, Some d => all_simple_paths g a d
          | _, _ => inl NodeNotFound
          end) ;;
  all_weigths <- mapM (fun p => lift (path_average_weight g p)) all_paths ;;
  let all_length := map path_len all_paths in
  select_best_path all_paths all_length all_weigths false false.

(** ** simplify_bubbles *)

(** The three variables the scan of [simplify_bubbles] updates. *)
Record scan : Type := mkScan {
  bubble : bool;
  noeud_ancetre : option node;
  noeud_descendant : option node
}.

(** [for node_j in node_predecc[i + 1:]]: the ancestor variable is assigned at
    every pair; the loop breaks at the first pair that has a common
    ancestor. *)
Fixpoint scan_pairs_j {order : SetOrder} (g : DiGraph) (nd node_i : node)
    (js : list node) (s : scan) : exn + scan :=
  match js with
  | [] => inr s
  | node_j :: js' =>
      match lowest_common_ancestor g node_i node_j with
      | inl e => inl e
      | inr (Some a) => inr (mkScan true (Some a) (Some nd))
      | inr None => scan_pairs_j g nd node_i js' (mkScan (bubble s) None (noeud_descendant s))
      end
  end.

(** [for i, node_i in enumerate(node_predecc)], left once [bubble] is set. *)
Fixpoint scan_pairs_i {order : SetOrder} (g : DiGraph) (nd : node)
    (node_predecc : list node) (s : scan) : exn + scan :=
  match node_predecc with
  | [] => inr s
  | node_i :: rest =>
      match scan_pairs_j g nd node_i rest s with
      | inl e => inl e
      | inr s' => if bubble s' then inr s' else scan_pairs_i g nd rest s'
      end
  end.

(** [for node in graph]: this loop has no [break], so the scan goes on over
    the remaining nodes after a bubble is found. *)
Fixpoint scan_nodes {order : SetOrder} (g : DiGraph) (ns : list node) (s : scan)
    : exn + scan :=
  match ns with
  | [] => inr s
  | nd :: rest =>
      let node_predecc := predecessors g nd in
      if 1 <? length node_predecc
      then match scan_pairs_i g nd node_predecc s with
           | inl e => inl e
           | inr s' => scan_nodes g rest s'
           end
      else scan_nodes g rest s
  end.

Definition scan_bubbles {order : SetOrder} (g : DiGraph) : exn + scan :=
  scan_nodes g (g_nodes g) (mkScan false None None).

(** [depth] bounds the depth of the recursion. *)
Fixpoint simplify_bubbles {order : SetOrder} (depth : nat) : M unit :=
  match depth with
  | 0 => diverge
  | S d =>
      g <- get_graph ;;
      s <- lift (scan_bubbles g) ;;
      if bubble s
      then solve_bubble (noeud_ancetre s) (noeud_descendant s) ;; simplify_bubbles d
      else ret tt
  end.

(** ** solve_entry_tips, solve_out_tips *)

(** [[path[0] for path in paths if len(path) > 0]] *)
Definition first_paths (paths : list (list path)) : list path :=
  flat_map (fun ps => match ps with [] => [] | p :: _ => [p] end) paths.

(** [path_average_weight(graph, path) if lengths[i] > 1 else
    graph.get_edge_data( *path)["weight"]] *)
Definition tip_weight (g : DiGraph) (p : path) : exn + Q :=
  if (1 <? Z.of_nat (length p) - 1)%Z then path_average_weight g p
  else match p with
       | [u; v] =>
           match get_edge_data g u v with
           | Some w => inr (inject_Z w)
           | None => inl TypeError
           end
       | _ => inl TypeError
       end.

Definition more_than_one (l : list node) : bool := 1 <? length l.

Fixpoint solve_entry_tips (depth : nat) (starting_nodes : list node) : M unit :=
  match depth with
  | 0 => diverge
  | S d =>
      g <- get_graph ;;
      match find (fun nd => more_than_one (predecessors g nd)) (g_nodes g) with
      | None => ret tt
      | Some nd =>
          paths <- mapM (fun node_start_i => lift (all_simple_paths g node_start_i nd))
                        starting_nodes ;;
          let paths := first_paths paths in
          let lengths := map path_len paths in
          weights <- mapM (fun p => lift (tip_weight g p)) paths ;;
          select_best_path paths lengths weights true false ;;
          solve_entry_tips d starting_nodes
      end
  end.

Fixpoint solve_out_tips (depth : nat) (ending_nodes : list node) : M unit :=
  match depth with
  | 0 => diverge
  | S d =>
      g <- get_graph ;;
      match find (fun nd => more_than_one (successors g nd)) (g_nodes g) with
      | None => ret tt
      | Some nd =>
          paths <- mapM (fun node_end_i => lift (all_simple_paths g nd node_end_i))
                        ending_nodes ;;
          let paths := first_paths paths in
          let lengths := map path_len paths in
          weights <- mapM (fun p => lift (tip_weight g p)) paths ;;
          select_best_path paths lengths weights false true ;;
          solve_out_tips d ending_nodes
      end
  end.

(** ** get_starting_nodes, get_sink_nodes, get_contigs *)

Definition get_starting_nodes (g : DiGraph) : list node :=
  filter (fun nd => Nat.eqb (length (predecessors g nd)) 0) (g_nodes g).

Definition get_sink_nodes (g : DiGraph) : list node :=
  filter (fun nd => Nat.eqb (length (successors g nd)) 0) (g_nodes g).

(** [sequence_str = path[0]], then [sequence_str += j[len(path[0]) - 1:]] for
    every [j] of [path[1:]]. *)
Definition contig_of_path (p : path) : exn + string :=
  match p with
  | [] => inl IndexError
  | first :: rest =>
      inr (fold_left
             (fun sequence_str j =>
                (sequence_str ++ py_slice_from j (Z.of_nat (String.length first) - 1))%string)
             rest first)
  end.

Fixpoint contigs_of_paths (ps : list path) : exn + list (string * nat) :=
  match ps with
  | [] => inr []
  | p :: ps' =>
      match contig_of_path p, contigs_of_paths ps' with
      | inr c, inr cs => inr ((c, String.length c) :: cs)
      | inl e, _ => inl e
      | _, inl e => inl e
      end
  end.

Fixpoint concat_results {A : Type} (l : list (exn + list A)) : exn + list A :=
  match l with
  | [] => inr []
  | inl e :: _ => inl e
  | inr x :: l' =>
      match concat_results l' with
      | inl e => inl e
      | inr xs => inr (x ++ xs)
      end
  end.

Definition get_contigs (g : DiGraph) (starting_nodes ending_nodes : list node)
    : exn + list (string * nat) :=
  concat_results
    (flat_map
       (fun start =>
          map (fun end_ =>
                 match all_simple_paths g start end_ with
                 | inl e => inl e
                 | inr ps => contigs_of_paths ps
                 end)
              ending_nodes)
       starting_nodes).

(** ** save_contigs *)

(** [str(n)] of a natural number. *)
Definition py_str (n : nat) : string := NilZero.string_of_uint (Nat.to_uint n).

(** The loop of [save_contigs] from index [i], with the text gathered so
    far.  [fill] stands for [textwrap.fill(., width=80)].  The line break
    after a record is left out when [i == len(contig) - 1]. *)
Fixpoint save_contigs_from (fill : string -> string) (i : nat)
    (contigs_list : list (string * nat)) (to_write : string) : string :=
  match contigs_list with
  | [] => to_write
  | (contig, length) :: rest =>
      let to_write :=
        (to_write ++ (">contig_" ++ py_str i ++ " len=" ++ py_str length
                      ++ String "010"%char EmptyString))%string in
      let to_write := (to_write ++ fill contig)%string in
      let to_write :=
        if Nat.eqb (S i) (String.length contig) then to_write
        else (to_write ++ String "010"%char EmptyString)%string in
      save_contigs_from fill (S i) rest to_write
  end.

(** The text that [save_contigs] writes to the output file. *)
Definition save_contigs (fill : string -> string) (contigs_list : list (string * nat))
    : string :=
  save_contigs_from fill 0 contigs_list EmptyString.

(** ** main *)

(** The pipeline of [main], from the reads to the contigs.  The module seeds
    the generator with 9001 when it is loaded, before anything else runs.
    The order of the sets of the process is a parameter, as the generator
    is. *)
Definition main {order : SetOrder} (gen : Z -> nat -> nat) (depth : nat)
    (reads : list string) (kmer_size : nat) : M (list (string * nat)) :=
  Random.seed gen 9001 ;;
  put_graph (build_graph (build_kmer_dict reads kmer_size)) ;;
  simplify_bubbles depth ;;
  g <- get_graph ;;
  solve_entry_tips depth (get_starting_nodes g) ;;
  g <- get_graph ;;
  solve_out_tips depth (get_sink_nodes g) ;;
  g <- get_graph ;;
  lift (get_contigs g (get_starting_nodes g) (get_sink_nodes g)).

(** The world a process starts in: no graph yet, and a generator that the
    module is about to seed. *)
Definition initial_world : World := mkWorld Nx.empty (fun _ => 0).

(** * Notions used in the statements *)

(** ** Paths and edges *)

(** The pairs of consecutive nodes of a path, and whether an edge joins one of
    them. *)
Fixpoint path_edges (p : path) : list (node * node) :=
  match p with
  | u :: ((v :: _) as tl) => (u, v) :: path_edges tl
  | _ => []
  end.

Definition on_path (p : path) (e : node * node * Z) : bool :=
  existsb (fun uv => is_edge (fst uv) (snd uv) e) (path_edges p).

Definition on_paths (ps : list path) (e : node * node * Z) : bool :=
  existsb (fun p => on_path p e) ps.

(** An edge with an end among the nodes [ns]. *)
Definition touches_any (ns : list node) (e : node * node * Z) : bool :=
  mem (e_src e) ns || mem (e_dst e) ns.

(** The first nodes and the last nodes of the paths of a list. *)
Definition first_nodes (ps : list path) : list node :=
  flat_map (fun p => match p with [] => [] | x :: _ => [x] end) ps.

Definition last_nodes (ps : list path) : list node :=
  flat_map (fun p => match p with [] => [] | x :: l => [last l x] end) ps.

(** The list without its position [i]. *)
Definition without_nth {A : Type} (i : nat) (l : list A) : list A :=
  firstn i l ++ skipn (S i) l.

(** A walk: every node is joined to the next one by an edge of the graph. *)
Fixpoint is_walk (g : DiGraph) (p : path) : Prop :=
  match p with
  | u :: ((v :: _) as tl) => has_edge g u v = true /\ is_walk g tl
  | _ => True
  end.

(** ** Graphs *)

(** What [remove_paths] leaves of a graph when every edge it is asked to
    remove is there: the edges on the paths go, then the entry and sink nodes
    when requested, then the isolated nodes. *)
Definition without_paths (g : DiGraph) (ps : list path) (de ds : bool) : DiGraph :=
  let g1 := mkDiGraph (g_nodes g) (filter (fun e => negb (on_paths ps e)) (g_edges g)) in
  let g2 := if de then remove_nodes_from g1 (first_nodes ps) else g1 in
  let g3 := if ds then remove_nodes_from g2 (last_nodes ps) else g2 in
  remove_nodes_from g3 (isolates g3).

(** [g'] has no node and no edge that [g] has not. *)
Definition subgraph_of (g' g : DiGraph) : Prop :=
  incl (g_nodes g') (g_nodes g) /\ incl (g_edges g') (g_edges g).

(** Every node, and every end of an edge, is a string of length [L]. *)
Definition uniform (L : nat) (g : DiGraph) : Prop :=
  (forall n, In n (g_nodes g) -> String.length n = L) /\
  (forall e, In e (g_edges g) ->
             String.length (e_src e) = L /\ String.length (e_dst e) = L).

(** A graph is acyclic when no non-empty set of nodes has, for each of its
    members, a predecessor inside the set (the nodes of a cycle form such a
    set). *)
Definition acyclic (g : DiGraph) : Prop :=
  forall c : list node,
    c <> [] ->
    ~ (forall y, In y c -> exists z, In z c /\ has_edge g z y = true).

(** ** The selection and the scan *)

(** [i] is the first position of a greatest element of [l]. *)
Definition first_argmax (l : list Q) (i : nat) : Prop :=
  i < length l /\
  (forall j, j < length l -> (nth j l 0 <= nth i l 0)%Q) /\
  (forall j, j < i -> (nth j l 0 < nth i l 0)%Q).

(** The variables of the scan are consistent when the ancestor, if there is
    one, is the common ancestor found for two distinct predecessors of the
    descendant. *)
Definition scan_consistent {order : SetOrder} (g : DiGraph) (s : scan) : Prop :=
  forall a d,
    noeud_ancetre s = Some a -> noeud_descendant s = Some d ->
    exists node_i node_j,
      node_i <> node_j /\ has_edge g node_i d = true /\ has_edge g node_j d = true /\
      lowest_common_ancestor g node_i node_j = inr (Some a).

(** No node with more than one predecessor has two predecessors with a common
    ancestor: what a full scan of [simplify_bubbles] that reports no bubble
    has checked, pair by pair. *)
Definition no_bubble {order : SetOrder} (g : DiGraph) : Prop :=
  forall nd, In nd (g_nodes g) -> 1 < length (predecessors g nd) ->
    forall l1 node_i l2, predecessors g nd = l1 ++ node_i :: l2 ->
      forall node_j, In node_j l2 ->
        lowest_common_ancestor g node_i node_j = inr None.

(** A computation that returns or raises from every world. *)
Definition total {A : Type} (m : M A) : Prop := forall w, m w <> Diverge.

(** ** The documentation, word for word *)

(** The mean of the weights of the edges that join the consecutive node pairs
    of a path, as the documentation of [path_average_weight] words it. *)
Definition weights_along (g : DiGraph) (p : path) : list Q :=
  flat_map (fun uv => match get_edge_data g (fst uv) (snd uv) with
                      | Some w => [inject_Z w]
                      | None => []
                      end)
           (path_edges p).

Definition mean_along_path (g : DiGraph) (p : path) : exn + Q :=
  Statistics.mean (weights_along g p).

(** The last character of a string (nothing for the empty string), and the
    contig of a path in words: the first node's label, then the last
    character of every following node. *)
Definition final_character (s : string) : string :=
  substring (String.length s - 1) 1 s.

Definition contig_in_words (p : path) : string :=
  match p with
  | [] => EmptyString
  | first :: rest => fold_left (fun acc j => (acc ++ final_character j)%string) rest first
  end.

(** ** K-mers *)

(** [kmer_dict.get(kmer, 0)] on a dictionary kept as a list. *)
Fixpoint dict_get (kmer_dict : list (string * Z)) (kmer : string) : Z :=
  match kmer_dict with
  | [] => 0%Z
  | (k, c) :: d => if String.eqb k kmer then c else dict_get d kmer
  end.

(** The windows of all the reads, in the order [build_kmer_dict] meets them. *)
Definition all_kmers (reads : list string) (kmer_size : nat) : list string :=
  flat_map (fun sequence => cut_kmer sequence kmer_size) reads.

(** The sum of the counts of a dictionary, and of the weights of a graph. *)
Definition total_count (kmer_dict : list (string * Z)) : Z :=
  fold_right Z.add 0%Z (map snd kmer_dict).

Definition total_weight (g : DiGraph) : Z :=
  fold_right Z.add 0%Z (map e_weight (g_edges g)).

(** The edge that [build_graph] adds for an entry of the dictionary. *)
Definition edge_of_kmer (kv : string * Z) : node * node * Z :=
  (py_drop_last (fst kv), py_drop_first (fst kv), snd kv).

(** ** Tips *)

(** The candidate paths a round of [solve_entry_tips] hands to
    [select_best_path] for the node [nd]: for every starting node, the first
    simple path to [nd] that [all_simple_paths] yields, when there is one. *)
Definition entry_candidates (g : DiGraph) (starting_nodes : list node) (nd : node)
    : list path :=
  flat_map (fun node_start_i =>
              match all_simple_paths g node_start_i nd with
              | inr (p :: _) => [p]
              | _ => []
              end)
           starting_nodes.

(** The same for [solve_out_tips]: for every ending node, the first simple
    path from [nd] to it. *)
Definition out_candidates (g : DiGraph) (nd : node) (ending_nodes : list node)
    : list path :=
  flat_map (fun node_end_i =>
              match all_simple_paths g nd node_end_i with
              | inr (p :: _) => [p]
              | _ => []
              end)
           ending_nodes.

(** The first node, in node order, with more than one predecessor, and with
    more than one successor: the node the [for node in graph] loops of the tip
    solvers stop at. *)
Definition first_merge (g : DiGraph) : option node :=
  find (fun nd => more_than_one (predecessors g nd)) (g_nodes g).

Definition first_fork (g : DiGraph) : option node :=
  find (fun nd => more_than_one (successors g nd)) (g_nodes g).

(** The edges of a graph that join none of the node pairs [uvs]. *)
Definition without_edges (g : DiGraph) (uvs : list (node * node)) : DiGraph :=
  mkDiGraph (g_nodes g)
            (filter (fun e => negb (existsb (fun uv => is_edge (fst uv) (snd uv) e) uvs))
                    (g_edges g)).

(** ** A read without a repeat *)

(** The graph of one path: its nodes in order, and an edge of weight 1 from
    each node to the next. *)
Definition chain (p : path) : DiGraph :=
  mkDiGraph p (map (fun uv => (fst uv, snd uv, 1%Z)) (path_edges p)).

(** ** The lines of a FASTQ file *)

(** A record is four lines: the header, the sequence, the separator and the
    qualities. *)
Definition fastq_record : Type := string * string * string * string.

Definition record_header (r : fastq_record) : string := fst (fst (fst r)).
Definition record_sequence (r : fastq_record) : string := snd (fst (fst r)).

Definition record_lines (r : fastq_record) : list string :=
  [record_header r; record_sequence r; snd (fst r); snd r].

(** Strings of white space only, and strings without any white space. *)
Definition all_space (s : string) : bool := forallb is_space (list_ascii_of_string s).
Definition no_space (s : string) : bool :=
  forallb (fun c => negb (is_space c)) (list_ascii_of_string s).

(** ** Example graphs *)

(** A generator state for the examples: every draw is 0. *)
Definition zeros : nat -> nat := fun _ => 0.

(** a -> b -> c, and a node [x] without any edge. *)
Definition g_with_isolated : DiGraph :=
  mkDiGraph ["a"; "b"; "c"; "x"]%string
            [("a", "b", 1%Z); ("b", "c", 1%Z)]%string.

(** a -> b -> c with the chord a -> c. *)
Definition g_triangle : DiGraph :=
  mkDiGraph ["a"; "b"; "c"]%string
            [("a", "b", 1%Z); ("b", "c", 1%Z); ("a", "c", 10%Z)]%string.

(** x -> y -> b -> c with the detour y -> e -> b and the branch x -> d -> c:
    three paths lead from [x] to [c], and the first two share edges. *)
Definition g_nested : DiGraph :=
  mkDiGraph ["x"; "y"; "b"; "c"; "e"; "d"]%string
            [("x", "y", 10%Z); ("y", "b", 10%Z); ("b", "c", 10%Z); ("y", "e", 1%Z);
             ("e", "b", 1%Z); ("x", "d", 1%Z); ("d", "c", 1%Z)]%string.

(** What is left of [g_nested] once the bubble from [x] to [c] is solved. *)
Definition g_nested_solved : DiGraph :=
  mkDiGraph ["y"; "b"]%string [("y", "b", 10%Z)]%string.

(** s -> a, and the cycle a -> b -> a. *)
Definition g_rho : DiGraph :=
  mkDiGraph ["s"; "a"; "b"]%string
            [("s", "a", 1%Z); ("a", "b", 1%Z); ("b", "a", 1%Z)]%string.

(** s1 -> n <- s2 and n -> m <- s3: two entry tips, at [n] and at [m]. *)
Definition g_two_tips : DiGraph :=
  mkDiGraph ["s1"; "s2"; "n"; "s3"; "m"]%string
            [("s1", "n", 5%Z); ("s2", "n", 1%Z); ("n", "m", 5%Z); ("s3", "m", 1%Z)]%string.

(** The graph of the reads AACCGGTT and CCGGTTAA for k = 4. *)
Definition g_two_reads : DiGraph :=
  build_graph (build_kmer_dict ["AACCGGTT"; "CCGGTTAA"]%string 4).

(** The graph of the reads CAAG, CAG, CAG for k = 3: CA -> AA -> AG with the
    chord CA -> AG of weight 2. *)
Definition g_indel : DiGraph :=
  build_graph (build_kmer_dict ["CAAG"; "CAG"; "CAG"]%string 3).

(** The graph of the read ACACAG for k = 3: the cycle AC -> CA -> AC and the
    edge CA -> AG. *)
Definition g_repeat : DiGraph := build_graph (build_kmer_dict ["ACACAG"%string] 3).

(** s1 -> n <- s2 and n -> m: one entry tip, at [n]. *)
Definition g_entry_tip : DiGraph :=
  mkDiGraph ["s1"; "n"; "s2"; "m"]%string
            [("s1", "n", 5%Z); ("s2", "n", 1%Z); ("n", "m", 5%Z)]%string.

(** m -> n, n -> e1 and n -> e2: one out tip, at [n]. *)
Definition g_out_tip : DiGraph :=
  mkDiGraph ["m"; "n"; "e1"; "e2"]%string
            [("m", "n", 5%Z); ("n", "e1", 5%Z); ("n", "e2", 1%Z)]%string.

(** The graph of the read TACAC for k = 3: TA -> AC and the cycle
    AC -> CA -> AC. *)
Definition g_entered_cycle : DiGraph := build_graph (build_kmer_dict ["TACAC"%string] 3).

(** The graph of the reads TCAGGATCGG, TCAGCATCGG and ACTCGG for k = 4: a
    bubble from CAG to ATC, then the entry tip ACT -> CTC -> TCG. *)
Definition g_bubble_then_tip : DiGraph :=
  build_graph (build_kmer_dict ["TCAGGATCGG"; "TCAGCATCGG"; "ACTCGG"]%string 4).

(** Reads whose 4-mers give TAG the two predecessors CTA and GTA, with the
    four common ancestors CCA, CAA, TTG and TGG: CCA -> CAA and TTG -> TGG,
    a branch from CAA and one from TGG lead to CTA, and another branch from
    each leads to GTA.  CAA and TGG are both lowest common ancestors. *)
Definition reads_two_ancestors : list string :=
  ["CCAAGTA"; "TTGGACGTA"; "TGGCTA"; "CAACTAG"; "GTAG"; "GTAG"]%string.

(** The graph of these reads for k = 4. *)
Definition g_two_ancestors : DiGraph :=
  mkDiGraph
    ["CCA"; "CAA"; "AAG"; "AGT"; "GTA"; "TTG"; "TGG"; "GGA"; "GAC"; "ACG"; "CGT";
     "GGC"; "GCT"; "CTA"; "AAC"; "ACT"; "TAG"]%string
    [("CCA", "CAA", 1%Z); ("CAA", "AAG", 1%Z); ("AAG", "AGT", 1%Z);
     ("AGT", "GTA", 1%Z); ("TTG", "TGG", 1%Z); ("TGG", "GGA", 1%Z);
     ("GGA", "GAC", 1%Z); ("GAC", "ACG", 1%Z); ("ACG", "CGT", 1%Z);
     ("CGT", "GTA", 1%Z); ("TGG", "GGC", 1%Z); ("GGC", "GCT", 1%Z);
     ("GCT", "CTA", 1%Z); ("CAA", "AAC", 1%Z); ("AAC", "ACT", 1%Z);
     ("ACT", "CTA", 1%Z); ("CTA", "TAG", 1%Z); ("GTA", "TAG", 2%Z)]%string.

(** * Properties *)

(** The properties hold whatever the order of the sets of the process. *)
Section AnyOrder.

Context {order : SetOrder}.

(** ** Lists, membership *)

Lemma mem_In (n : node) (l : list node) : mem n l = true <-> In n l.
Proof.
  unfold mem. rewrite existsb_exists. split.
  - intros [x [Hin Heq]]. apply String.eqb_eq in Heq. now subst.
  - intros Hin. exists n. split; [assumption | apply String.eqb_refl].
Qed.

Lemma mem_false (n : node) (l : list node) : mem n l = false <-> ~ In n l.
Proof.
  rewrite <- mem_In. destruct (mem n l); split; intros; congruence.
Qed.

Lemma filter_andb {A : Type} (f h : A -> bool) (l : list A) :
  filter f (filter h l) = filter (fun x => h x && f x) l.
Proof.
  induction l as [|x l IH]; simpl; [reflexivity|].
  destruct (h x); simpl; [destruct (f x)|]; now rewrite IH.
Qed.

Lemma filter_length_le {A : Type} (f : A -> bool) (l : list A) :
  length (filter f l) <= length l.
Proof.
  induction l as [|x l IH]; simpl; [lia|]. destruct (f x); simpl; lia.
Qed.

Lemma filter_length_lt {A : Type} (f : A -> bool) (l : list A) (x : A) :
  In x l -> f x = false -> length (filter f l) < length l.
Proof.
  induction l as [|y l IH]; simpl; [tauto|].
  intros [->|Hin] Hf.
  - rewrite Hf. pose proof (filter_length_le f l). lia.
  - specialize (IH Hin Hf). destruct (f y); simpl; lia.
Qed.

Lemma NoDup_app_disjoint {A : Type} (l1 l2 : list A) :
  NoDup (l1 ++ l2) -> forall x, In x l1 -> In x l2 -> False.
Proof.
  induction l1 as [|y l1 IH]; intros Hnd x H1 H2; [contradiction|].
  simpl in Hnd. inversion Hnd as [|? ? Hy Hrest]; subst.
  destruct H1 as [->|H1].
  - apply Hy. apply in_or_app. now right.
  - now apply (IH Hrest x).
Qed.

Lemma without_nth_length {A : Type} (l : list A) (i : nat) :
  i < length l -> S (length (without_nth i l)) = length l.
Proof.
  intros Hi. unfold without_nth. rewrite length_app, length_firstn, length_skipn. lia.
Qed.

Lemma without_nth_In {A : Type} (l : list A) (i : nat) (x : A) :
  In x (without_nth i l) -> In x l.
Proof.
  unfold without_nth. intros H. apply in_app_or in H.
  rewrite <- (firstn_skipn i l). apply in_or_app. destruct H as [H|H]; [now left|].
  right. clear -H. revert l H. induction i as [|i IH]; intros l H.
  - destruct l; simpl in *; [contradiction | now right].
  - destruct l as [|y l]; simpl in *; [contradiction|]. now apply IH.
Qed.

(** ** The monad *)

Lemma bind_Ok {A B : Type} (m : M A) (k : A -> M B) (w w' : World) (b : B) :
  bind m k w = Ok b w' ->
  exists a w1, m w = Ok a w1 /\ k a w1 = Ok b w'.
Proof.
  unfold bind. destruct (m w) as [a w1|e w1|]; intros H; try discriminate.
  now exists a, w1.
Qed.

Lemma bind_Diverge {A B : Type} (m : M A) (k : A -> M B) (w : World) :
  bind m k w = Diverge ->
  m w = Diverge \/ exists a w1, m w = Ok a w1 /\ k a w1 = Diverge.
Proof.
  unfold bind. destruct (m w) as [a w1|e w1|]; intros H; try discriminate.
  - right. now exists a, w1.
  - now left.
Qed.

Lemma lift_Ok {A : Type} (r : exn + A) (w w' : World) (a : A) :
  lift r w = Ok a w' -> r = inr a /\ w' = w.
Proof.
  destruct r as [e|x]; unfold lift, raise, ret; intros H; inversion H; auto.
Qed.

Lemma lift_not_Diverge {A : Type} (r : exn + A) (w : World) :
  lift r w <> Diverge.
Proof. destruct r; unfold lift, raise, ret; discriminate. Qed.

Lemma lift_world {A : Type} (r : exn + A) (w : World) :
  lift r w = match r with inl e => Raise e w | inr a => Ok a w end.
Proof. now destruct r. Qed.

(** Splitting a run that returned into the runs of its parts. *)
Ltac inv_run :=
  repeat match goal with
         | H : bind _ _ _ = Ok _ _ |- _ =>
             let a := fresh "a" in
             let w1 := fresh "w" in
             let H1 := fresh "Hrun" in
             let H2 := fresh "Hrun" in
             apply bind_Ok in H; destruct H as [a [w1 [H1 H2]]]
         | H : lift _ _ = Ok _ _ |- _ =>
             let H1 := fresh "Hval" in
             let H2 := fresh "Hw" in
             apply lift_Ok in H; destruct H as [H1 H2]; try subst
         | H : ret _ _ = Ok _ _ |- _ => unfold ret in H; inversion H; clear H; try subst
         | H : get_graph _ = Ok _ _ |- _ =>
             unfold get_graph in H; inversion H; clear H; try subst
         | H : put_graph _ _ = Ok _ _ |- _ =>
             unfold put_graph in H; inversion H; clear H; try subst
         end.

(** ** Graph operations *)

Lemma is_edge_iff (u v : node) (e : node * node * Z) :
  is_edge u v e = true <-> e_src e = u /\ e_dst e = v.
Proof.
  unfold is_edge. rewrite andb_true_iff, !String.eqb_eq. tauto.
Qed.

Lemma has_edge_iff (g : DiGraph) (u v : node) :
  has_edge g u v = true <-> exists w, In (u, v, w) (g_edges g).
Proof.
  unfold has_edge. rewrite existsb_exists. split.
  - intros [[[a b] w] [Hin He]]. apply is_edge_iff in He. simpl in He.
    destruct He; subst. now exists w.
  - intros [w Hin]. exists (u, v, w). split; [assumption|].
    apply is_edge_iff. now simpl.
Qed.

Lemma successors_iff (g : DiGraph) (u v : node) :
  In v (successors g u) <-> has_edge g u v = true.
Proof.
  unfold successors, has_edge. rewrite in_map_iff, existsb_exists. split.
  - intros [e [Hd Hin]]. apply filter_In in Hin. destruct Hin as [Hin Hs].
    exists e. split; [assumption|]. apply is_edge_iff. apply String.eqb_eq in Hs. now split.
  - intros [e [Hin He]]. apply is_edge_iff in He. destruct He as [Hs Hd].
    exists e. split; [assumption|]. apply filter_In. split; [assumption|].
    now apply String.eqb_eq.
Qed.

Lemma predecessors_iff (g : DiGraph) (u v : node) :
  In u (predecessors g v) <-> has_edge g u v = true.
Proof.
  unfold predecessors, has_edge. rewrite in_map_iff, existsb_exists. split.
  - intros [e [Hd Hin]]. apply filter_In in Hin. destruct Hin as [Hin Hs].
    exists e. split; [assumption|]. apply is_edge_iff. apply String.eqb_eq in Hs. now split.
  - intros [e [Hin He]]. apply is_edge_iff in He. destruct He as [Hs Hd].
    exists e. split; [assumption|]. apply filter_In. split; [assumption|].
    now apply String.eqb_eq.
Qed.

Lemma filter_nil_iff {A : Type} (f : A -> bool) (l : list A) :
  filter f l = [] <-> forall x, In x l -> f x = false.
Proof.
  induction l as [|y l IH]; simpl; [tauto|]. split.
  - intros H x [->|Hin]; destruct (f x) eqn:Hx; try discriminate; try reflexivity.
    destruct (f y); [discriminate|]. rewrite <- Hx. now apply IH.
  - intros H. rewrite (H y (or_introl eq_refl)). apply IH. intros x Hin. apply H. now right.
Qed.

(** A node has degree 0 exactly when no edge touches it. *)
Lemma degree_zero_iff (g : DiGraph) (n : node) :
  degree g n = 0 <-> forall e, In e (g_edges g) -> touches n e = false.
Proof.
  unfold degree, successors, predecessors. rewrite !length_map.
  rewrite Nat.eq_add_0, !length_zero_iff_nil, !filter_nil_iff.
  unfold touches. split.
  - intros [Hs Hd] e Hin. now rewrite (Hs e Hin), (Hd e Hin).
  - intros H. split; intros e Hin; specialize (H e Hin);
      apply orb_false_iff in H; tauto.
Qed.

Lemma remove_nodes_from_nodes (ns : list node) (g : DiGraph) :
  g_nodes (remove_nodes_from g ns) = filter (fun m => negb (mem m ns)) (g_nodes g).
Proof.
  unfold remove_nodes_from. revert g.
  induction ns as [|n ns IH]; intros g; simpl.
  - induction (g_nodes g) as [|x l IHl]; simpl; [reflexivity | now rewrite <- IHl].
  - rewrite IH. simpl. rewrite filter_andb. apply filter_ext. intros m.
    rewrite String.eqb_sym. now destruct (String.eqb n m); simpl.
Qed.

Lemma remove_nodes_from_edges (ns : list node) (g : DiGraph) :
  g_edges (remove_nodes_from g ns) = filter (fun e => negb (touches_any ns e)) (g_edges g).
Proof.
  unfold remove_nodes_from. revert g.
  induction ns as [|n ns IH]; intros g; simpl.
  - induction (g_edges g) as [|x l IHl]; simpl; [reflexivity | now rewrite <- IHl].
  - rewrite IH. simpl. rewrite filter_andb. apply filter_ext. intros e.
    unfold touches_any, touches. simpl.
    destruct (String.eqb (e_src e) n), (String.eqb (e_dst e) n),
      (mem (e_src e) ns), (mem (e_dst e) ns); reflexivity.
Qed.

Lemma filter_all {A : Type} (f : A -> bool) (l : list A) :
  (forall x, In x l -> f x = true) -> filter f l = l.
Proof.
  induction l as [|y l IH]; simpl; intros H; [reflexivity|].
  rewrite (H y (or_introl eq_refl)). f_equal. apply IH. intros x Hin. apply H. now right.
Qed.

Lemma degree_edges (g g' : DiGraph) (n : node) :
  g_edges g' = g_edges g -> degree g' n = degree g n.
Proof. unfold degree, successors, predecessors. now intros ->. Qed.

(** Taking the isolated nodes away removes no edge. *)
Lemma remove_isolates_edges (g : DiGraph) :
  g_edges (remove_nodes_from g (isolates g)) = g_edges g.
Proof.
  rewrite remove_nodes_from_edges. apply filter_all. intros e Hin.
  unfold touches_any, isolates.
  destruct (mem (e_src e) _) eqn:Hs.
  - apply mem_In, filter_In in Hs. destruct Hs as [_ Hs]. apply Nat.eqb_eq in Hs.
    rewrite degree_zero_iff in Hs. specialize (Hs e Hin). unfold touches in Hs.
    now rewrite String.eqb_refl in Hs.
  - destruct (mem (e_dst e) _) eqn:Hd; [|reflexivity].
    apply mem_In, filter_In in Hd. destruct Hd as [_ Hd]. apply Nat.eqb_eq in Hd.
    rewrite degree_zero_iff in Hd. specialize (Hd e Hin). unfold touches in Hd.
    now rewrite String.eqb_refl, orb_true_r in Hd.
Qed.

Lemma remove_isolates_nodes (g : DiGraph) (n : node) :
  In n (g_nodes (remove_nodes_from g (isolates g))) <->
  In n (g_nodes g) /\ degree g n <> 0.
Proof.
  rewrite remove_nodes_from_nodes, filter_In, negb_true_iff, mem_false.
  unfold isolates. rewrite filter_In, Nat.eqb_eq. tauto.
Qed.

(** ** remove_paths *)

Lemma remove_edge_Some (g g' : DiGraph) (u v : node) :
  remove_edge g u v = Some g' ->
  has_edge g u v = true /\ g_nodes g' = g_nodes g /\
  g_edges g' = filter (fun e => negb (is_edge u v e)) (g_edges g).
Proof.
  unfold remove_edge. destruct (has_edge g u v); intros H; inversion H. auto.
Qed.

Lemma or_raise_inr {A : Type} (e : exn) (o : option A) (a : A) :
  or_raise e o = inr a -> o = Some a.
Proof. destruct o; simpl; intros H; now inversion H. Qed.

Lemma remove_path_edges_cons (u v : node) (tl : list node) :
  remove_path_edges (u :: v :: tl) =
  (g <- get_graph ;;
   g' <- lift (or_raise NetworkXError (remove_edge g u v)) ;;
   put_graph g' ;;
   remove_path_edges (v :: tl)).
Proof. reflexivity. Qed.

Lemma remove_path_edges_Ok (p : path) (w w' : World) (r : unit) :
  remove_path_edges p w = Ok r w' ->
  rng w' = rng w /\ g_nodes (graph w') = g_nodes (graph w) /\
  g_edges (graph w') = filter (fun e => negb (on_path p e)) (g_edges (graph w)).
Proof.
  revert w. induction p as [|u tl IH]; intros w H.
  - simpl in H. inv_run. repeat split. symmetry. now apply filter_all.
  - destruct tl as [|v tl'].
    + simpl in H. inv_run. repeat split. symmetry. now apply filter_all.
    + rewrite remove_path_edges_cons in H. inv_run.
      match goal with
      | Hv : or_raise _ _ = inr _ |- _ =>
          apply or_raise_inr, remove_edge_Some in Hv; destruct Hv as [_ [Hn He]]
      end.
      match goal with
      | Hr : remove_path_edges _ _ = Ok _ _ |- _ =>
          apply IH in Hr; simpl in Hr; destruct Hr as [Hr [Hn' He']]
      end.
      repeat split; [assumption | congruence |].
      rewrite He', He, filter_andb. apply filter_ext. intros e.
      unfold on_path. cbn [path_edges existsb fst snd]. now rewrite negb_orb.
Qed.

Lemma remove_all_path_edges_Ok (ps : list path) (w w' : World) (r : unit) :
  remove_all_path_edges ps w = Ok r w' ->
  rng w' = rng w /\ g_nodes (graph w') = g_nodes (graph w) /\
  g_edges (graph w') = filter (fun e => negb (on_paths ps e)) (g_edges (graph w)).
Proof.
  revert w. induction ps as [|p ps IH]; intros w H; simpl in H.
  - inv_run. repeat split. symmetry. now apply filter_all.
  - inv_run.
    match goal with
    | Hp : remove_path_edges _ _ = Ok _ _ |- _ =>
        apply remove_path_edges_Ok in Hp; destruct Hp as [Hr [Hn He]]
    end.
    match goal with
    | Hp : remove_all_path_edges _ _ = Ok _ _ |- _ =>
        apply IH in Hp; destruct Hp as [Hr' [Hn' He']]
    end.
    repeat split; [congruence | congruence |].
    rewrite He', He, filter_andb. apply filter_ext. intros e.
    unfold on_paths. simpl. now rewrite negb_orb.
Qed.

Lemma firsts_inr (ps : list path) (ns : list node) :
  firsts ps = inr ns -> ns = first_nodes ps.
Proof.
  revert ns. induction ps as [|p ps IH]; intros ns H; simpl in H.
  - now inversion H.
  - destruct p as [|x p']; simpl in H; [discriminate|].
    destruct (firsts ps) as [e|xs]; [discriminate|]. inversion H. simpl.
    f_equal. now apply IH.
Qed.

Lemma last_cons {A : Type} (l : list A) (x d : A) : last (x :: l) d = last l x.
Proof.
  revert x d. induction l as [|y l IH]; intros x d; [reflexivity|].
  change (last (y :: l) d = last (y :: l) x). now rewrite !IH.
Qed.

Lemma py_last_inr (p : path) (x : node) :
  py_last p = inr x -> exists y l, p = y :: l /\ x = last l y.
Proof.
  induction p as [|y l IH]; intros H; [discriminate|].
  exists y, l. split; [reflexivity|].
  destruct l as [|z l']; [simpl in H; now inversion H|].
  change (py_last (z :: l') = inr x) in H.
  destruct (IH H) as [y' [l'' [Heq Hx]]]. inversion Heq. subst.
  now rewrite last_cons.
Qed.

Lemma lasts_inr (ps : list path) (ns : list node) :
  lasts ps = inr ns -> ns = last_nodes ps.
Proof.
  revert ns. induction ps as [|p ps IH]; intros ns H.
  - simpl in H. now inversion H.
  - cbn [lasts] in H. destruct (py_last p) as [e|x] eqn:Hp.
    + destruct (lasts ps); discriminate.
    + destruct (lasts ps) as [e|xs]; [discriminate|]. inversion H.
      apply py_last_inr in Hp. destruct Hp as [y [l [-> ->]]]. simpl.
      f_equal. now apply IH.
Qed.

(** When [remove_paths] returns, the graph is [without_paths] of the graph it
    started from, and the generator is untouched. *)
Lemma remove_paths_Ok (ps : list path) (de ds : bool) (w w' : World) (r : unit) :
  remove_paths ps de ds w = Ok r w' ->
  graph w' = without_paths (graph w) ps de ds /\ rng w' = rng w.
Proof.
  unfold remove_paths. intros H.
  apply bind_Ok in H. destruct H as [r1 [w1 [H1 H]]].
  apply remove_all_path_edges_Ok in H1. destruct H1 as [Hr [Hn He]].
  assert (Hg1 : graph w1 =
                mkDiGraph (g_nodes (graph w))
                  (filter (fun e => negb (on_paths ps e)) (g_edges (graph w)))).
  { destruct (graph w1). simpl in *. congruence. }
  unfold without_paths. rewrite <- Hg1. clear Hg1 Hn He.
  destruct de, ds; inv_run; simpl;
    repeat match goal with
           | Hf : firsts _ = inr _ |- _ => apply firsts_inr in Hf; subst
           | Hl : lasts _ = inr _ |- _ => apply lasts_inr in Hl; subst
           end; split; try reflexivity; try assumption.
Qed.

Lemma degree_nonzero_iff (g : DiGraph) (n : node) :
  degree g n <> 0 <-> exists e, In e (g_edges g) /\ touches n e = true.
Proof.
  rewrite degree_zero_iff. split.
  - intros H. destruct (existsb (touches n) (g_edges g)) eqn:Hex.
    + apply existsb_exists in Hex. exact Hex.
    + exfalso. apply H. intros e Hin.
      destruct (touches n e) eqn:Ht; [|reflexivity].
      assert (existsb (touches n) (g_edges g) = true)
        by (apply existsb_exists; now exists e).
      congruence.
  - intros [e [Hin Ht]] H. rewrite (H e Hin) in Ht. discriminate.
Qed.

(** The edges and the nodes of [without_paths]. *)
Lemma without_paths_edge_iff (g : DiGraph) (ps : list path) (de ds : bool)
    (e : node * node * Z) :
  In e (g_edges (without_paths g ps de ds)) <->
  In e (g_edges g) /\ on_paths ps e = false /\
  (de = true -> touches_any (first_nodes ps) e = false) /\
  (ds = true -> touches_any (last_nodes ps) e = false).
Proof.
  unfold without_paths. rewrite remove_isolates_edges.
  destruct de, ds; simpl;
    repeat rewrite remove_nodes_from_edges; simpl;
    repeat rewrite filter_In; repeat rewrite negb_true_iff; intuition congruence.
Qed.

Lemma without_paths_node_iff (g : DiGraph) (ps : list path) (de ds : bool) (n : node) :
  In n (g_nodes (without_paths g ps de ds)) <->
  In n (g_nodes g) /\
  (de = true -> ~ In n (first_nodes ps)) /\
  (ds = true -> ~ In n (last_nodes ps)) /\
  exists e, In e (g_edges (without_paths g ps de ds)) /\ touches n e = true.
Proof.
  rewrite <- degree_nonzero_iff.
  unfold without_paths.
  set (g1 := mkDiGraph (g_nodes g) (filter (fun e => negb (on_paths ps e)) (g_edges g))).
  set (g2 := if de then remove_nodes_from g1 (first_nodes ps) else g1).
  set (g3 := if ds then remove_nodes_from g2 (last_nodes ps) else g2).
  rewrite remove_isolates_nodes.
  rewrite (degree_edges g3 (remove_nodes_from g3 (isolates g3)) n (remove_isolates_edges g3)).
  assert (H3 : In n (g_nodes g3) <->
               In n (g_nodes g) /\ (de = true -> ~ In n (first_nodes ps)) /\
               (ds = true -> ~ In n (last_nodes ps))).
  { unfold g3, g2, g1. destruct de, ds; simpl;
      repeat rewrite remove_nodes_from_nodes; simpl;
      repeat rewrite filter_In; repeat rewrite negb_true_iff;
      repeat rewrite mem_false; intuition congruence. }
  rewrite H3. tauto.
Qed.

(** ** remove_paths returns when the edges to remove are there, once each *)

Lemma has_edge_after_remove (g g' : DiGraph) (u v a b : node) :
  remove_edge g u v = Some g' -> (a, b) <> (u, v) ->
  has_edge g a b = true -> has_edge g' a b = true.
Proof.
  intros Hr Hne Hab. apply remove_edge_Some in Hr. destruct Hr as [_ [_ He]].
  unfold has_edge in *. rewrite He. apply existsb_exists in Hab.
  destruct Hab as [e [Hin Hi]]. apply existsb_exists. exists e. split; [|exact Hi].
  apply filter_In. split; [exact Hin|]. apply negb_true_iff.
  destruct (is_edge u v e) eqn:Huv; [|reflexivity].
  apply is_edge_iff in Hi, Huv. destruct Hi as [<- <-], Huv as [<- <-]. congruence.
Qed.

Lemma remove_path_edges_returns (p : path) :
  forall w,
    NoDup (path_edges p) ->
    (forall uv, In uv (path_edges p) -> has_edge (graph w) (fst uv) (snd uv) = true) ->
    exists w', remove_path_edges p w = Ok tt w'.
Proof.
  induction p as [|u tl IH]; intros w Hnd Hall; [now exists w|].
  destruct tl as [|v tl']; [now exists w|].
  rewrite remove_path_edges_cons.
  change (path_edges (u :: v :: tl')) with ((u, v) :: path_edges (v :: tl')) in *.
  inversion Hnd as [|? ? Hx Hrest]; subst.
  pose proof (Hall (u, v) (or_introl eq_refl)) as Huv. simpl in Huv.
  unfold bind at 1. unfold get_graph. unfold bind at 1.
  unfold remove_edge at 1. rewrite Huv. cbn [or_raise lift ret].
  unfold bind at 1. unfold put_graph.
  apply IH; [exact Hrest|]. cbn [graph]. intros [a b] Hin. simpl.
  apply (has_edge_after_remove (graph w) _ u v a b).
  - unfold remove_edge. now rewrite Huv.
  - intros Heq. rewrite Heq in Hin. contradiction.
  - exact (Hall (a, b) (or_intror Hin)).
Qed.

Lemma on_path_false (p : path) (e : node * node * Z) :
  ~ In (e_src e, e_dst e) (path_edges p) -> on_path p e = false.
Proof.
  intros H. unfold on_path. destruct (existsb _ (path_edges p)) eqn:Hex; [|reflexivity].
  exfalso. apply H. apply existsb_exists in Hex. destruct Hex as [[a b] [Hin Hi]].
  apply is_edge_iff in Hi. simpl in Hi. destruct Hi as [-> ->]. exact Hin.
Qed.

Lemma remove_all_path_edges_returns (ps : list path) :
  forall w,
    NoDup (flat_map path_edges ps) ->
    (forall uv, In uv (flat_map path_edges ps) ->
                has_edge (graph w) (fst uv) (snd uv) = true) ->
    exists w', remove_all_path_edges ps w = Ok tt w'.
Proof.
  induction ps as [|p ps IH]; intros w Hnd Hall; [now exists w|].
  cbn [remove_all_path_edges flat_map] in *.
  destruct (remove_path_edges_returns p w) as [w1 Hw1].
  - now apply NoDup_app_remove_r in Hnd.
  - intros uv Hin. apply Hall. apply in_or_app. now left.
  - unfold bind. rewrite Hw1. apply IH.
    + now apply NoDup_app_remove_l in Hnd.
    + intros [a b] Hin. simpl.
      apply remove_path_edges_Ok in Hw1. destruct Hw1 as [_ [_ He]].
      pose proof (Hall (a, b) (in_or_app _ _ _ (or_intror Hin))) as Hab. simpl in Hab.
      unfold has_edge in *. rewrite He. apply existsb_exists in Hab.
      destruct Hab as [e [Hine Hi]]. apply existsb_exists. exists e. split; [|exact Hi].
      apply filter_In. split; [exact Hine|]. apply negb_true_iff, on_path_false.
      apply is_edge_iff in Hi. destruct Hi as [-> ->]. intros Hp.
      exact (NoDup_app_disjoint _ _ Hnd (a, b) Hp Hin).
Qed.

Lemma firsts_defined (ps : list path) :
  (forall p, In p ps -> p <> []) -> firsts ps = inr (first_nodes ps).
Proof.
  induction ps as [|p ps IH]; intros H; [reflexivity|].
  destruct p as [|x p']; [exfalso; now apply (H [] (or_introl eq_refl))|].
  simpl. rewrite IH; [reflexivity|]. intros q Hq. apply H. now right.
Qed.

Lemma py_last_defined (x : node) (l : list node) : py_last (x :: l) = inr (last l x).
Proof.
  revert x. induction l as [|y l IH]; intros x; [reflexivity|].
  change (py_last (y :: l) = inr (last (y :: l) x)). now rewrite IH, last_cons.
Qed.

Lemma lasts_defined (ps : list path) :
  (forall p, In p ps -> p <> []) -> lasts ps = inr (last_nodes ps).
Proof.
  induction ps as [|p ps IH]; intros H; [reflexivity|].
  destruct p as [|x p']; [exfalso; now apply (H [] (or_introl eq_refl))|].
  cbn [lasts]. rewrite py_last_defined, IH; [reflexivity|].
  intros q Hq. apply H. now right.
Qed.

Lemma remove_paths_returns (ps : list path) (de ds : bool) (w : World) :
  NoDup (flat_map path_edges ps) ->
  (forall uv, In uv (flat_map path_edges ps) ->
              has_edge (graph w) (fst uv) (snd uv) = true) ->
  (forall p, In p ps -> p <> []) ->
  exists w', remove_paths ps de ds w = Ok tt w'.
Proof.
  intros Hnd Hall Hne.
  destruct (remove_all_path_edges_returns ps w Hnd Hall) as [w1 Hw1].
  unfold remove_paths. unfold bind at 1. rewrite Hw1.
  unfold bind, get_graph, put_graph.
  rewrite (firsts_defined ps Hne), (lasts_defined ps Hne).
  destruct de, ds; cbn [lift ret graph rng]; eauto.
Qed.

(** C9: [remove_paths] returns when the edges it is asked to remove are
    edges of the graph, none of them asked for twice, and no path is empty.
    Whenever it returns, no node of the graph it leaves has total degree 0,
    whatever the paths were; in particular a node that had degree 0 before
    the call (and so lies on none of the removed edges) is gone too, not only
    the nodes that this removal isolated. *)
Theorem remove_paths_deletes_every_isolated_node :
  forall (path_list : list path) (delete_entry_node delete_sink_node : bool)
         (w : World),
    (NoDup (flat_map path_edges path_list) ->
     (forall uv, In uv (flat_map path_edges path_list) ->
                 has_edge (graph w) (fst uv) (snd uv) = true) ->
     (forall p, In p path_list -> p <> []) ->
     exists w', remove_paths path_list delete_entry_node delete_sink_node w = Ok tt w') /\
    (forall w',
        remove_paths path_list delete_entry_node delete_sink_node w = Ok tt w' ->
        (forall n, In n (g_nodes (graph w')) -> degree (graph w') n <> 0) /\
        (forall n, In n (g_nodes (graph w)) -> degree (graph w) n = 0 ->
                   ~ In n (g_nodes (graph w')))).
Proof.
  intros ps de ds w. split; [apply remove_paths_returns|].
  intros w' H. apply remove_paths_Ok in H. destruct H as [Hg _].
  split.
  - intros n Hin. rewrite Hg in *. apply without_paths_node_iff in Hin.
    apply degree_nonzero_iff. tauto.
  - intros n _ Hdeg Hin. rewrite Hg in Hin. apply without_paths_node_iff in Hin.
    destruct Hin as [_ [_ [_ [e [He Ht]]]]].
    apply without_paths_edge_iff in He. destruct He as [He _].
    rewrite degree_zero_iff in Hdeg. rewrite (Hdeg e He) in Ht. discriminate.
Qed.

(** ** select_best_path *)

Lemma py_max_fold_ge (l : list Q) (x : Q) :
  let m := fold_left (fun m y => if Qle_bool y m then m else y) l x in
  (x <= m)%Q /\ (forall y, In y l -> (y <= m)%Q) /\ In m (x :: l).
Proof.
  revert x. induction l as [|z l IH]; intros x; simpl.
  - split; [apply Qle_refl|]. split; [tauto | now left].
  - destruct (Qle_bool z x) eqn:Hzx.
    + apply Qle_bool_iff in Hzx. destruct (IH x) as [H1 [H2 H3]].
      split; [exact H1|]. split.
      * intros y [<-|Hin]; [eapply Qle_trans; eassumption | now apply H2].
      * simpl in H3. tauto.
    + assert (Hxz : (x <= z)%Q).
      { apply Qlt_le_weak, Qnot_le_lt. intros Hc. apply Qle_bool_iff in Hc. congruence. }
      destruct (IH z) as [H1 [H2 H3]].
      split; [eapply Qle_trans; eassumption|]. split.
      * intros y [<-|Hin]; [exact H1 | now apply H2].
      * simpl in H3. tauto.
Qed.

Lemma py_max_inr (l : list Q) (m : Q) :
  py_max l = inr m -> (forall y, In y l -> (y <= m)%Q) /\ In m l.
Proof.
  destruct l as [|x l]; simpl; intros H; [discriminate|]. injection H as <-.
  destruct (py_max_fold_ge l x) as [H1 [H2 H3]]. split; [|exact H3].
  intros y [<-|Hin]; [exact H1 | now apply H2].
Qed.

Lemma py_index_In (m : Q) (l : list Q) :
  In m l -> exists i, py_index m l = inr i.
Proof.
  induction l as [|y l IH]; simpl; [tauto|]. intros Hin.
  destruct (Qeq_bool y m) eqn:Hy; [now exists 0|].
  destruct Hin as [->|Hin].
  - rewrite (proj2 (Qeq_bool_iff m m) (Qeq_refl m)) in Hy. discriminate.
  - destruct (IH Hin) as [i Hi]. rewrite Hi. now exists (S i).
Qed.

Lemma py_index_inr (m : Q) (l : list Q) (i : nat) :
  py_index m l = inr i ->
  i < length l /\ (nth i l 0 == m)%Q /\ forall j, j < i -> ~ (nth j l 0 == m)%Q.
Proof.
  revert i. induction l as [|y l IH]; intros i H; simpl in H; [discriminate|].
  destruct (Qeq_bool y m) eqn:Hy.
  - injection H as <-. simpl. split; [lia|]. split; [now apply Qeq_bool_iff | lia].
  - destruct (py_index m l) as [e|k]; [discriminate|]. injection H as <-.
    destruct (IH k eq_refl) as [H1 [H2 H3]]. simpl. split; [lia|]. split; [exact H2|].
    intros [|j] Hj.
    + intros Hc. apply Qeq_bool_iff in Hc. congruence.
    + apply H3. lia.
Qed.

(** [l.index(max(l))] is the first position of a greatest element. *)
Lemma index_of_max (l : list Q) :
  l <> [] ->
  exists m i, py_max l = inr m /\ py_index m l = inr i /\ first_argmax l i.
Proof.
  intros Hl. destruct l as [|x l']; [congruence|].
  set (l := x :: l') in *.
  destruct (py_max l) as [e|m] eqn:Hm; [discriminate|].
  destruct (py_max_inr l m Hm) as [Hge Hin].
  destruct (py_index_In m l Hin) as [i Hi].
  exists m, i. split; [reflexivity|]. split; [exact Hi|].
  destruct (py_index_inr m l i Hi) as [H1 [H2 H3]].
  split; [exact H1|]. split.
  - intros j Hj. rewrite H2. apply Hge. now apply nth_In.
  - intros j Hj. rewrite H2.
    assert (Hle : (nth j l 0 <= m)%Q) by (apply Hge; apply nth_In; lia).
    apply Qle_lteq in Hle. destruct Hle as [Hlt|Heq]; [exact Hlt|].
    exfalso. now apply (H3 j Hj).
Qed.

Lemma stdev_positive_defined (data : list Q) :
  2 <= length data -> exists b, Statistics.stdev_positive data = inr b.
Proof.
  intros H. unfold Statistics.stdev_positive, Statistics.variance.
  destruct (Nat.ltb_spec (length data) 2); [lia|]. eauto.
Qed.

Lemma py_pop_inr {A : Type} (l : list A) (i : nat) :
  i < length l -> py_pop l i = inr (without_nth i l).
Proof.
  revert i. induction l as [|x l IH]; intros i Hi; simpl in Hi; [lia|].
  destruct i as [|i]; [reflexivity|].
  simpl. rewrite IH by lia. reflexivity.
Qed.

Lemma py_pop_inr_inv {A : Type} (l r : list A) (i : nat) :
  py_pop l i = inr r -> i < length l /\ r = without_nth i l.
Proof.
  revert i r. induction l as [|x l IH]; intros i r H; simpl in H; [discriminate|].
  destruct i as [|i].
  - injection H as <-. split; [simpl; lia | reflexivity].
  - destruct (py_pop l i) as [e|r'] eqn:Hp; [discriminate|]. injection H as <-.
    destruct (IH i r' Hp) as [Hlt Heq]. split; [simpl; lia|]. now subst.
Qed.

Lemma randint_Ok (n : nat) (w : World) :
  0 < n ->
  exists i, i < n /\
    Random.randint 0 (Z.of_nat n - 1) w
    = Ok (Z.of_nat i) (mkWorld (graph w) (fun k => rng w (S k))).
Proof.
  intros Hn. unfold Random.randint.
  destruct (Z.ltb_spec (Z.of_nat n - 1) 0); [lia|].
  exists (Z.to_nat (Z.of_nat (rng w 0) mod Z.of_nat n)).
  assert (Hm : (0 <= Z.of_nat (rng w 0) mod Z.of_nat n < Z.of_nat n)%Z)
    by (apply Z.mod_pos_bound; lia).
  split; [lia|]. f_equal. rewrite Z2Nat.id by lia.
  replace (Z.of_nat n - 1 - 0 + 1)%Z with (Z.of_nat n) by lia. lia.
Qed.

(** With two or more paths and as many lengths and weights, one position is
    kept by the policy and the other paths go to [remove_paths], on the same
    graph. *)
Lemma select_best_path_selects (ps : list path) (ls ws : list Q) (de ds : bool)
    (w : World) :
  2 <= length ps -> length ls = length ps -> length ws = length ps ->
  exists (i : nat) (w1 : World),
    i < length ps /\ graph w1 = graph w /\
    select_best_path ps ls ws de ds w = remove_paths (without_nth i ps) de ds w1 /\
    ((Statistics.stdev_positive ws = inr true /\ first_argmax ws i /\ w1 = w)
     \/ (Statistics.stdev_positive ws = inr false /\
         Statistics.stdev_positive ls = inr true /\ first_argmax ls i /\ w1 = w)
     \/ (Statistics.stdev_positive ws = inr false /\
         Statistics.stdev_positive ls = inr false /\
         Random.randint 0 (Z.of_nat (length ps) - 1) w = Ok (Z.of_nat i) w1)).
Proof.
  intros H2 Hl Hw.
  destruct (stdev_positive_defined ws) as [b1 Hb1]; [lia|].
  destruct (stdev_positive_defined ls) as [b2 Hb2]; [lia|].
  unfold select_best_path.
  destruct (Nat.eqb_spec (length ps) 1) as [Hone|_]; [lia|].
  unfold bind. rewrite Hb1, Hb2. cbn [lift ret].
  destruct b1; [|destruct b2].
  - destruct (index_of_max ws) as [m [i [Hm [Hi Hfa]]]].
    { intros ->. simpl in Hw. lia. }
    rewrite Hm. cbn [lift ret]. rewrite Hi. cbn [lift ret].
    assert (Hlt : i < length ps) by (destruct Hfa; lia).
    rewrite (py_pop_inr ps i Hlt). cbn [lift ret].
    exists i, w. split; [exact Hlt|]. split; [reflexivity|]. split; [reflexivity|].
    left. auto.
  - destruct (index_of_max ls) as [m [i [Hm [Hi Hfa]]]].
    { intros ->. simpl in Hl. lia. }
    rewrite Hm. cbn [lift ret]. rewrite Hi. cbn [lift ret].
    assert (Hlt : i < length ps) by (destruct Hfa; lia).
    rewrite (py_pop_inr ps i Hlt). cbn [lift ret].
    exists i, w. split; [exact Hlt|]. split; [reflexivity|]. split; [reflexivity|].
    right. left. auto.
  - destruct (randint_Ok (length ps) w) as [i [Hlt Hr]]; [lia|].
    rewrite Hr. cbn [ret]. rewrite Nat2Z.id.
    rewrite (py_pop_inr ps i Hlt). cbn [lift ret graph].
    exists i, (mkWorld (graph w) (fun k => rng w (S k))).
    split; [exact Hlt|]. split; [reflexivity|]. split; [reflexivity|].
    right. right. auto.
Qed.

(** C1: the selection policy of [select_best_path].  With one path the world
    is returned as it is.  With two or more paths, given with their lengths
    and average weights, the path at some position [i] is kept and the others
    go to [remove_paths]: when the weights have a positive standard deviation,
    [i] is the first position of the greatest weight; else when the lengths
    have one, [i] is the first position of the greatest length; else [i] is
    the value [randint(0, n - 1)] draws.  With weights 5, 5, 1 and lengths 3,
    3, 3 the kept path is the first one, never the third. *)
Theorem select_best_path_policy :
  forall (path_list : list path) (path_length weight_avg_list : list Q)
         (delete_entry_node delete_sink_node : bool) (w : World),
    (length path_list = 1 ->
     select_best_path path_list path_length weight_avg_list
       delete_entry_node delete_sink_node w = Ok tt w) /\
    (2 <= length path_list ->
     length path_length = length path_list ->
     length weight_avg_list = length path_list ->
     exists (i : nat) (w1 : World),
       i < length path_list /\
       graph w1 = graph w /\
       select_best_path path_list path_length weight_avg_list
         delete_entry_node delete_sink_node w
       = remove_paths (without_nth i path_list) delete_entry_node delete_sink_node w1 /\
       ((Statistics.stdev_positive weight_avg_list = inr true /\
         first_argmax weight_avg_list i /\ w1 = w)
        \/ (Statistics.stdev_positive weight_avg_list = inr false /\
            Statistics.stdev_positive path_length = inr true /\
            first_argmax path_length i /\ w1 = w)
        \/ (Statistics.stdev_positive weight_avg_list = inr false /\
            Statistics.stdev_positive path_length = inr false /\
            Random.randint 0 (Z.of_nat (length path_list) - 1) w
            = Ok (Z.of_nat i) w1))) /\
    (forall p0 p1 p2 : path,
        select_best_path [p0; p1; p2] [3#1; 3#1; 3#1]%Q [5#1; 5#1; 1#1]%Q
          delete_entry_node delete_sink_node w
        = remove_paths [p1; p2] delete_entry_node delete_sink_node w).
Proof.
  intros ps ls ws de ds w. split; [|split].
  - intros H1. unfold select_best_path. now rewrite H1.
  - apply select_best_path_selects.
  - intros p0 p1 p2. reflexivity.
Qed.

(** C10: only the one-path case is short-circuited.  A call with an empty path
    list always raises and leaves the world as it was; when the weights are
    empty as well (the lists of an empty path list), the exception is the
    [StatisticsError] of the standard deviation of no data. *)
Theorem select_best_path_empty_raises :
  forall (path_length weight_avg_list : list Q)
         (delete_entry_node delete_sink_node : bool) (w : World),
    (exists e, select_best_path [] path_length weight_avg_list
                 delete_entry_node delete_sink_node w = Raise e w) /\
    select_best_path [] path_length [] delete_entry_node delete_sink_node w
    = Raise StatisticsError w.
Proof.
  intros ls ws de ds w. split; [|reflexivity].
  unfold select_best_path. cbn [length Nat.eqb]. unfold bind.
  destruct (Statistics.stdev_positive ws) as [e|b1]; [now exists e|].
  destruct (Statistics.stdev_positive ls) as [e|b2]; [now exists e|].
  cbn [lift ret raise].
  destruct b1; [|destruct b2].
  - destruct (py_max ws) as [e|m]; [now exists e|]. cbn [lift ret raise].
    destruct (py_index m ws) as [e|i]; [now exists e|]. cbn [lift ret raise].
    now exists IndexError.
  - destruct (py_max ls) as [e|m]; [now exists e|]. cbn [lift ret raise].
    destruct (py_index m ls) as [e|i]; [now exists e|]. cbn [lift ret raise].
    now exists IndexError.
  - now exists ValueError.
Qed.

(** ** What select_best_path removes *)

(** With any number of paths but one, a call that returns has kept one
    position and run [remove_paths] on the others, on the same graph. *)
Lemma select_best_path_Ok (ps : list path) (ls ws : list Q) (de ds : bool)
    (w w' : World) (r : unit) :
  length ps <> 1 ->
  select_best_path ps ls ws de ds w = Ok r w' ->
  exists i w1,
    i < length ps /\ graph w1 = graph w /\
    remove_paths (without_nth i ps) de ds w1 = Ok r w'.
Proof.
  intros Hne H. unfold select_best_path in H.
  destruct (Nat.eqb_spec (length ps) 1) as [Hone|_]; [contradiction|].
  apply bind_Ok in H. destruct H as [b1 [w1 [H1 H]]].
  apply lift_Ok in H1. destruct H1 as [_ ->].
  apply bind_Ok in H. destruct H as [b2 [w2 [H2 H]]].
  apply lift_Ok in H2. destruct H2 as [_ ->].
  apply bind_Ok in H. destruct H as [i [w3 [H3 H]]].
  apply bind_Ok in H. destruct H as [losers [w4 [H4 H]]].
  apply lift_Ok in H4. destruct H4 as [Hpop ->].
  apply py_pop_inr_inv in Hpop. destruct Hpop as [Hi ->].
  exists i, w3. split; [exact Hi|]. split; [|exact H].
  destruct b1; [|destruct b2].
  - inv_run. reflexivity.
  - inv_run. reflexivity.
  - apply bind_Ok in H3. destruct H3 as [z [w5 [Hz H3]]].
    unfold ret in H3. injection H3 as _ <-.
    unfold Random.randint in Hz.
    destruct (Z.of_nat (length ps) - 1 <? 0)%Z; [discriminate|].
    injection Hz as _ <-. reflexivity.
Qed.

Lemma without_nth_incl_edges (ps : list path) (i : nat) (uv : node * node) :
  In uv (flat_map path_edges (without_nth i ps)) -> In uv (flat_map path_edges ps).
Proof.
  intros H. apply in_flat_map in H. destruct H as [p [Hp Huv]].
  apply in_flat_map. exists p. split; [now apply (without_nth_In ps i) | exact Huv].
Qed.

(** C2, as the code has it.  A call with two or more paths returns when the
    paths are non-empty, their edges are edges of the graph, and the paths
    other than the kept one ask for no edge twice.  When a call with two or
    more paths returns, one position [i] was kept, and the edges of the
    returned graph are exactly the edges of the graph before that lie on none
    of the other paths and touch none of their deleted end nodes: an edge of
    the kept path stays when it is not also an edge of a removed path.  With
    [delete_entry_node] (resp. [delete_sink_node]) the first (resp. last)
    node of every removed path is gone, and no node of the returned graph has
    total degree 0. *)
Theorem select_best_path_removes_losing_paths :
  forall (path_list : list path) (path_length weight_avg_list : list Q)
         (delete_entry_node delete_sink_node : bool) (w : World),
    2 <= length path_list ->
    (length path_length = length path_list ->
     length weight_avg_list = length path_list ->
     (forall p, In p path_list -> p <> []) ->
     (forall uv, In uv (flat_map path_edges path_list) ->
                 has_edge (graph w) (fst uv) (snd uv) = true) ->
     (forall i, i < length path_list ->
                NoDup (flat_map path_edges (without_nth i path_list))) ->
     exists w', select_best_path path_list path_length weight_avg_list
                  delete_entry_node delete_sink_node w = Ok tt w') /\
    (forall w',
        select_best_path path_list path_length weight_avg_list
          delete_entry_node delete_sink_node w = Ok tt w' ->
        exists i : nat,
          i < length path_list /\
          (forall e, In e (g_edges (graph w')) <->
                     In e (g_edges (graph w)) /\
                     on_paths (without_nth i path_list) e = false /\
                     (delete_entry_node = true ->
                      touches_any (first_nodes (without_nth i path_list)) e = false) /\
                     (delete_sink_node = true ->
                      touches_any (last_nodes (without_nth i path_list)) e = false)) /\
          (forall n, delete_entry_node = true ->
                     In n (first_nodes (without_nth i path_list)) ->
                     ~ In n (g_nodes (graph w'))) /\
          (forall n, delete_sink_node = true ->
                     In n (last_nodes (without_nth i path_list)) ->
                     ~ In n (g_nodes (graph w'))) /\
          (forall n, In n (g_nodes (graph w')) -> degree (graph w') n <> 0)).
Proof.
  intros ps ls ws de ds w H2. split.
  - intros Hl Hw Hne Hall Hnd.
    destruct (select_best_path_selects ps ls ws de ds w H2 Hl Hw)
      as [i [w1 [Hi [Hg [Hrun _]]]]].
    rewrite Hrun. apply remove_paths_returns.
    + now apply Hnd.
    + intros uv Huv. rewrite Hg. apply Hall. now apply (without_nth_incl_edges ps i).
    + intros p Hp. apply Hne. now apply (without_nth_In ps i).
  - intros w' H.
    apply select_best_path_Ok in H; [|lia].
    destruct H as [i [w1 [Hi [Hg H]]]]. exists i. split; [exact Hi|].
    apply remove_paths_Ok in H. destruct H as [-> _]. rewrite Hg.
    split; [intros e; apply without_paths_edge_iff|].
    split; [|split].
    + intros n Hde Hin Hn. apply without_paths_node_iff in Hn. tauto.
    + intros n Hds Hin Hn. apply without_paths_node_iff in Hn. tauto.
    + intros n Hn. apply without_paths_node_iff in Hn. apply degree_nonzero_iff. tauto.
Qed.

(** ** path_average_weight *)

(** C4 fails on the code: [path_average_weight] averages over every edge that
    the nodes of the path induce.  On the path a, b, c of the triangle, whose
    two edges weigh 1 each, the chord a -> c of weight 10 is counted as well:
    the result is 12/3 where the mean along the path is 2/2.  The graph of
    the reads CAAG, CAG, CAG for k = 3 is such a triangle: the path CA, AA,
    AG gets 4/3 instead of 2/2. *)
Theorem path_average_weight_counts_chords :
  path_average_weight g_triangle ["a"; "b"; "c"]%string = inr (12 # 3)%Q /\
  mean_along_path g_triangle ["a"; "b"; "c"]%string = inr (2 # 2)%Q /\
  ~ (12 # 3 == 2 # 2)%Q /\
  path_average_weight g_indel ["CA"; "AA"; "AG"]%string = inr (4 # 3)%Q /\
  mean_along_path g_indel ["CA"; "AA"; "AG"]%string = inr (2 # 2)%Q /\
  ~ (4 # 3 == 2 # 2)%Q.
Proof.
  repeat split; try reflexivity; intros H; discriminate H.
Qed.

(** ** get_contigs *)

Lemma concat_results_inr {A : Type} (l : list (exn + list A)) (r xs : list A) (x : A) :
  concat_results l = inr r -> In (inr xs) l -> In x xs -> In x r.
Proof.
  revert r. induction l as [|y l IH]; intros r H Hin Hx; [contradiction|].
  simpl in H. destruct y as [e|ys]; [discriminate|].
  destruct (concat_results l) as [e|zs]; [discriminate|]. injection H as <-.
  apply in_or_app. destruct Hin as [Heq|Hin].
  - injection Heq as ->. now left.
  - right. now apply (IH zs).
Qed.

Lemma concat_results_defined {A : Type} (l : list (exn + list A)) :
  (forall y, In y l -> exists xs, y = inr xs) -> exists r, concat_results l = inr r.
Proof.
  induction l as [|y l IH]; intros H; simpl; [eauto|].
  destruct (H y (or_introl eq_refl)) as [xs ->].
  destruct IH as [r Hr]; [intros z Hz; apply H; now right|].
  rewrite Hr. eauto.
Qed.

Lemma contigs_of_paths_In (ps : list path) (cs : list (string * nat)) (p : path) (c : string) :
  contigs_of_paths ps = inr cs -> In p ps -> contig_of_path p = inr c ->
  In (c, String.length c) cs.
Proof.
  revert cs. induction ps as [|q ps IH]; intros cs H Hin Hc; [contradiction|].
  simpl in H. destruct (contig_of_path q) as [e|c'] eqn:Hq.
  - destruct (contigs_of_paths ps); discriminate.
  - destruct (contigs_of_paths ps) as [e|cs']; [discriminate|]. injection H as <-.
    destruct Hin as [->|Hin].
    + left. congruence.
    + right. now apply IH.
Qed.

Lemma contigs_of_paths_defined (ps : list path) :
  (forall p, In p ps -> p <> []) -> exists cs, contigs_of_paths ps = inr cs.
Proof.
  induction ps as [|q ps IH]; intros H; simpl; [eauto|].
  destruct q as [|x q]; [exfalso; now apply (H [] (or_introl eq_refl))|].
  destruct IH as [cs Hcs]; [intros p Hp; apply H; now right|].
  rewrite Hcs. simpl. eauto.
Qed.

Lemma length_zero_string (s : string) : String.length s = 0 -> s = EmptyString.
Proof. destruct s; simpl; [reflexivity | discriminate]. Qed.

(** For a node as long as the first one, [j[len(path[0]) - 1:]] is the last
    character of [j]. *)
Lemma slice_is_final_character (first j : string) :
  String.length j = String.length first ->
  py_slice_from j (Z.of_nat (String.length first) - 1) = final_character j.
Proof.
  intros Hlen. unfold py_slice_from, final_character. rewrite Hlen.
  destruct (String.length first) as [|n] eqn:Hn.
  - apply length_zero_string in Hlen. subst j. reflexivity.
  - destruct (Z.ltb_spec (Z.of_nat (S n) - 1) 0); [lia|].
    replace (Z.to_nat (Z.min (Z.of_nat (S n) - 1) (Z.of_nat (S n)))) with n by lia.
    replace (S n - n) with 1 by lia. replace (S n - 1) with n by lia. reflexivity.
Qed.

Lemma fold_slices_in_words (first : string) (rest : list node) (acc : string) :
  (forall j, In j rest -> String.length j = String.length first) ->
  fold_left
    (fun sequence_str j =>
       (sequence_str ++ py_slice_from j (Z.of_nat (String.length first) - 1))%string)
    rest acc
  = fold_left (fun acc j => (acc ++ final_character j)%string) rest acc.
Proof.
  revert acc. induction rest as [|j rest IH]; intros acc Hrest; simpl; [reflexivity|].
  rewrite slice_is_final_character by (apply Hrest; now left).
  apply IH. intros k Hk. apply Hrest. now right.
Qed.

Lemma contig_of_path_in_words (p : path) :
  p <> [] ->
  (forall n, In n p -> String.length n = String.length (hd EmptyString p)) ->
  contig_of_path p = inr (contig_in_words p).
Proof.
  destruct p as [|first rest]; [congruence|]. intros _ Hlen. simpl in *.
  f_equal. apply fold_slices_in_words. intros j Hj. apply Hlen. now right.
Qed.

(** ** all_simple_paths: what it yields *)

Lemma is_walk_cons (g : DiGraph) (u v : node) (l : list node) :
  is_walk g (u :: v :: l) <-> has_edge g u v = true /\ is_walk g (v :: l).
Proof. reflexivity. Qed.

(** Every path of the enumeration extends the path walked so far by a walk
    from its last node to a target. *)
Lemma simple_paths_from_sound (g : DiGraph) (targets : list node) (d : nat) :
  forall (visited : list node) (u : node) (p : path),
    In p (simple_paths_from d g targets visited u) ->
    exists rest,
      p = visited ++ rest /\ rest <> [] /\ is_walk g (u :: rest) /\
      In (last rest u) targets /\ (NoDup visited -> NoDup p).
Proof.
  induction d as [|d IH]; intros visited u p Hin; simpl in Hin; [contradiction|].
  apply in_flat_map in Hin. destruct Hin as [child [Hsucc Hin]].
  apply successors_iff in Hsucc.
  destruct (mem child visited) eqn:Hvis; [contradiction|].
  apply mem_false in Hvis.
  assert (Hnd : NoDup visited -> NoDup (visited ++ [child])).
  { intros Hv. apply NoDup_app; [exact Hv | constructor; [tauto | constructor] |].
    intros x Hx [<-|[]]. contradiction. }
  apply in_app_or in Hin. destruct Hin as [Hin|Hin].
  - destruct (mem child targets) eqn:Ht; [|contradiction].
    destruct Hin as [<-|[]]. exists [child]. split; [reflexivity|].
    split; [discriminate|]. split; [simpl; tauto|]. split; [|exact Hnd].
    simpl. now apply mem_In.
  - destruct (forallb _ targets); [contradiction|].
    apply IH in Hin. destruct Hin as [rest [-> [Hne [Hw [Hl Hn]]]]].
    exists (child :: rest). split; [now rewrite <- app_assoc|].
    split; [discriminate|]. split.
    + destruct rest as [|v rest]; [congruence|]. simpl. simpl in Hw. tauto.
    + split; [now rewrite last_cons | auto].
Qed.

Lemma all_simple_paths_defined (g : DiGraph) (s t : node) :
  has_node g s = true -> exists ps, all_simple_paths g s t = inr ps.
Proof.
  intros H. unfold all_simple_paths. rewrite H. simpl.
  destruct (mem s (targets_of g t)); eauto.
Qed.

Lemma all_simple_paths_sound (g : DiGraph) (s t : node) (ps : list path) (p : path) :
  all_simple_paths g s t = inr ps -> In p ps ->
  exists rest,
    p = s :: rest /\ rest <> [] /\ is_walk g p /\
    In (last rest s) (targets_of g t) /\ NoDup p.
Proof.
  unfold all_simple_paths. destruct (has_node g s); simpl; [|discriminate].
  destruct (mem s (targets_of g t)); intros H; injection H as <-; [contradiction|].
  intros Hin. apply simple_paths_from_sound in Hin.
  destruct Hin as [rest [-> [Hne [Hw [Hl Hn]]]]].
  exists rest. split; [reflexivity|]. split; [exact Hne|]. split; [exact Hw|].
  split; [exact Hl|]. apply Hn. constructor; [tauto | constructor].
Qed.

(** ** The seeded generator *)

(** Two equal values have no spread. *)
Lemma stdev_positive_pair (x y : Q) :
  (x == y)%Q -> Statistics.stdev_positive [x; y] = inr false.
Proof.
  intros Hxy. unfold Statistics.stdev_positive, Statistics.variance.
  cbn [length Nat.ltb Nat.leb map]. f_equal. apply negb_false_iff, Qle_bool_iff.
  unfold Statistics.Qsum, Statistics.Qlen. cbn [fold_right length Z.of_nat].
  rewrite Hxy. apply Qle_lteq. right. unfold inject_Z. field.
Qed.

(** ** solve_bubble *)

Lemma mapM_lift_Ok {A B : Type} (f : A -> exn + B) (l : list A) (w w' : World)
    (ys : list B) :
  mapM (fun x => lift (f x)) l w = Ok ys w' -> w' = w /\ length ys = length l.
Proof.
  revert ys w'. induction l as [|x l IH]; intros ys w' H; simpl in H.
  - unfold ret in H. injection H as <- <-. auto.
  - apply bind_Ok in H. destruct H as [y [w1 [H1 H]]].
    apply lift_Ok in H1. destruct H1 as [_ ->].
    apply bind_Ok in H. destruct H as [ys' [w2 [H2 H]]].
    apply IH in H2. destruct H2 as [-> Hlen].
    unfold ret in H. injection H as <- <-. simpl. auto.
Qed.

Lemma mapM_lift_not_Diverge {A B : Type} (f : A -> exn + B) (l : list A) (w : World) :
  mapM (fun x => lift (f x)) l w <> Diverge.
Proof.
  induction l as [|x l IH]; simpl; [discriminate|].
  unfold bind. rewrite lift_world. destruct (f x) as [e|y]; [discriminate|].
  destruct (mapM (fun x => lift (f x)) l w) as [ys w1|e w1|] eqn:Hm;
    [discriminate | discriminate | contradiction].
Qed.

(** What a call of [solve_bubble] on two nodes that returned has done. *)
Lemma solve_bubble_Ok (a d : node) (w w' : World) (r : unit) :
  solve_bubble (Some a) (Some d) w = Ok r w' ->
  exists paths,
    all_simple_paths (graph w) a d = inr paths /\
    ((length paths = 1 /\ w' = w) \/
     (length paths <> 1 /\
      exists i, i < length paths /\
        graph w' = without_paths (graph w) (without_nth i paths) false false)).
Proof.
  unfold solve_bubble. intros H.
  apply bind_Ok in H. destruct H as [g [w1 [H1 H]]].
  unfold get_graph in H1. injection H1 as <- <-.
  apply bind_Ok in H. destruct H as [paths [w2 [H2 H]]].
  apply lift_Ok in H2. destruct H2 as [Hp ->].
  apply bind_Ok in H. destruct H as [ws [w3 [H3 H]]].
  apply mapM_lift_Ok in H3. destruct H3 as [-> _].
  exists paths. split; [exact Hp|].
  destruct (Nat.eq_dec (length paths) 1) as [Hone|Hne].
  - left. split; [exact Hone|]. unfold select_best_path in H.
    rewrite Hone in H. unfold ret in H. simpl in H. now injection H as _ <-.
  - right. split; [exact Hne|].
    apply select_best_path_Ok in H; [|exact Hne].
    destruct H as [i [w4 [Hi [Hg H]]]]. exists i. split; [exact Hi|].
    apply remove_paths_Ok in H. destruct H as [-> _]. now rewrite Hg.
Qed.

Lemma on_path_first_edge (u v : node) (l : list node) (x : Z) :
  on_path (u :: v :: l) (u, v, x) = true.
Proof.
  unfold on_path. cbn [path_edges existsb fst snd]. unfold is_edge, e_src, e_dst.
  simpl. now rewrite !String.eqb_refl.
Qed.

Lemma on_path_cons (u : node) (l : list node) (e : node * node * Z) :
  on_path l e = true -> on_path (u :: l) e = true.
Proof.
  destruct l as [|v l]; [discriminate|]. unfold on_path.
  cbn [path_edges existsb]. intros ->. apply orb_true_r.
Qed.

(** The last edge of a walk. *)
Lemma walk_last_edge (g : DiGraph) (rest : list node) :
  forall s, rest <> [] -> is_walk g (s :: rest) ->
            exists u x, In (u, last rest s, x) (g_edges g) /\
                        on_path (s :: rest) (u, last rest s, x) = true.
Proof.
  induction rest as [|v rest IH]; intros s Hne Hw; [congruence|].
  destruct rest as [|v' rest'].
  - simpl in Hw. destruct Hw as [He _]. apply has_edge_iff in He. destruct He as [x Hx].
    exists s, x. split; [exact Hx | apply on_path_first_edge].
  - apply is_walk_cons in Hw. destruct Hw as [_ Hw].
    destruct (IH v) as [u [x [Hin Hon]]]; [discriminate | exact Hw |].
    exists u, x. rewrite last_cons. split; [exact Hin | now apply on_path_cons].
Qed.

Lemma has_node_In (g : DiGraph) (n : node) : has_node g n = true <-> In n (g_nodes g).
Proof. apply mem_In. Qed.

Lemma all_simple_paths_source (g : DiGraph) (s t : node) (ps : list path) :
  all_simple_paths g s t = inr ps -> has_node g s = true.
Proof.
  unfold all_simple_paths. destruct (has_node g s); [reflexivity | discriminate].
Qed.

(** ** solve_entry_tips, solve_out_tips *)

(** C5 fails on the code.  When a node has several predecessors but only one
    starting node leads to it, [select_best_path] gets one path and returns
    the graph as it is, and [solve_entry_tips] calls itself on the same
    graph: on [g_rho], with its one starting node [s], no recursion depth is
    enough. *)
Theorem solve_entry_tips_recurses_forever :
  get_starting_nodes g_rho = ["s"%string] /\
  forall depth : nat,
    solve_entry_tips depth (get_starting_nodes g_rho) (mkWorld g_rho zeros) = Diverge.
Proof.
  split; [reflexivity|].
  induction depth as [|d IH]; [reflexivity|]. simpl. exact IH.
Qed.

(** The same happens to [solve_out_tips] inside the pipeline: on the read
    ACACAG with k = 3 the node CA has the two successors AC and AG, and AG
    is the only sink. *)
Lemma solve_out_tips_recurses_forever :
  forall (depth : nat) (r : nat -> nat),
    solve_out_tips depth (get_sink_nodes g_repeat) (mkWorld g_repeat r) = Diverge.
Proof.
  intros depth r. induction depth as [|d IH]; [reflexivity|]. simpl. exact IH.
Qed.

Lemma main_recurses_forever_on_a_repeat :
  forall (gen : Z -> nat -> nat) (depth : nat) (w : World),
    main gen depth ["ACACAG"%string] 3 w = Diverge.
Proof.
  intros gen depth w. destruct depth as [|d]; [reflexivity|].
  unfold main. unfold bind at 1. unfold Random.seed.
  unfold bind at 1. unfold put_graph. cbn [graph rng].
  change (build_graph (build_kmer_dict ["ACACAG"%string] 3)) with g_repeat.
  unfold bind at 1.
  replace (simplify_bubbles (S d) (mkWorld g_repeat (gen 9001%Z)))
    with (Ok tt (mkWorld g_repeat (gen 9001%Z))) by reflexivity.
  unfold bind at 1. unfold get_graph at 1. cbn [graph].
  unfold bind at 1.
  replace (solve_entry_tips (S d) (get_starting_nodes g_repeat)
             (mkWorld g_repeat (gen 9001%Z)))
    with (Ok tt (mkWorld g_repeat (gen 9001%Z))) by reflexivity.
  unfold bind at 1. unfold get_graph at 1. cbn [graph].
  unfold bind at 1.
  now rewrite solve_out_tips_recurses_forever.
Qed.

(** On [g_two_tips] the first round deletes the losing starting node [s2];
    the second round asks for the paths from [s2] and fails. *)
Lemma solve_entry_tips_raises_on_a_deleted_start :
  get_starting_nodes g_two_tips = ["s1"; "s2"; "s3"]%string /\
  solve_entry_tips 2 (get_starting_nodes g_two_tips) (mkWorld g_two_tips zeros)
  = Raise NodeNotFound
      (mkWorld (mkDiGraph ["s1"; "n"; "s3"; "m"]%string
                  [("s1", "n", 5%Z); ("n", "m", 5%Z); ("s3", "m", 1%Z)]%string)
               zeros).
Proof. split; reflexivity. Qed.

(** ** What the tip solvers return, when they return *)

(** A returned graph has no node with two predecessors left, a fortiori none
    that two starting nodes reach. *)
Lemma solve_entry_tips_Ok (depth : nat) (starting_nodes : list node) :
  forall w w' r,
    solve_entry_tips depth starting_nodes w = Ok r w' ->
    forall nd, In nd (g_nodes (graph w')) -> length (predecessors (graph w') nd) <= 1.
Proof.
  induction depth as [|d IH]; intros w w' r H; [discriminate|].
  cbn [solve_entry_tips] in H.
  apply bind_Ok in H. destruct H as [g [w1 [H1 H]]].
  unfold get_graph in H1. injection H1 as <- <-.
  destruct (find _ (g_nodes (graph w))) as [nd|] eqn:Hfind.
  - apply bind_Ok in H. destruct H as [paths [w2 [_ H]]].
    apply bind_Ok in H. destruct H as [ws [w3 [_ H]]].
    apply bind_Ok in H. destruct H as [r1 [w4 [_ H]]].
    exact (IH _ _ _ H).
  - unfold ret in H. injection H as _ <-. intros nd Hnd.
    pose proof (find_none _ _ Hfind nd Hnd) as Hle. unfold more_than_one in Hle.
    apply Nat.ltb_ge in Hle. exact Hle.
Qed.

Lemma solve_out_tips_Ok (depth : nat) (ending_nodes : list node) :
  forall w w' r,
    solve_out_tips depth ending_nodes w = Ok r w' ->
    forall nd, In nd (g_nodes (graph w')) -> length (successors (graph w') nd) <= 1.
Proof.
  induction depth as [|d IH]; intros w w' r H; [discriminate|].
  cbn [solve_out_tips] in H.
  apply bind_Ok in H. destruct H as [g [w1 [H1 H]]].
  unfold get_graph in H1. injection H1 as <- <-.
  destruct (find _ (g_nodes (graph w))) as [nd|] eqn:Hfind.
  - apply bind_Ok in H. destruct H as [paths [w2 [_ H]]].
    apply bind_Ok in H. destruct H as [ws [w3 [_ H]]].
    apply bind_Ok in H. destruct H as [r1 [w4 [_ H]]].
    exact (IH _ _ _ H).
  - unfold ret in H. injection H as _ <-. intros nd Hnd.
    pose proof (find_none _ _ Hfind nd Hnd) as Hle. unfold more_than_one in Hle.
    apply Nat.ltb_ge in Hle. exact Hle.
Qed.

(** ** Acyclic graphs and walks *)

(** The generations of [is_directed_acyclic_graph] use up every node only
    when no set of nodes is closed under taking a predecessor. *)
Lemma topological_generations_sound (rounds : nat) :
  forall (ns : list node) (es : list (node * node * Z)),
    topological_generations rounds ns es = true ->
    (forall e, In e es -> In (e_src e) ns) ->
    forall c : list node,
      c <> [] ->
      ~ (forall y, In y c -> exists z, In z c /\ existsb (is_edge z y) es = true).
Proof.
  induction rounds as [|r IH]; intros ns es Htopo Hsrc c Hc Hclosed.
  - destruct ns as [|n ns]; [|simpl in Htopo; discriminate].
    destruct c as [|y c]; [congruence|].
    destruct (Hclosed y (or_introl eq_refl)) as [z [_ Hz]].
    apply existsb_exists in Hz. destruct Hz as [e [He _]]. exact (Hsrc e He).
  - destruct ns as [|n ns].
    + destruct c as [|y c]; [congruence|].
      destruct (Hclosed y (or_introl eq_refl)) as [z [_ Hz]].
      apply existsb_exists in Hz. destruct Hz as [e [He _]]. exact (Hsrc e He).
    + cbn [topological_generations] in Htopo.
      set (zero := filter (fun m => negb (existsb (fun e => String.eqb (e_dst e) m) es))
                          (n :: ns)) in *.
      destruct zero as [|z0 zs] eqn:Hzero; [discriminate|]. rewrite <- Hzero in *.
      assert (Hin_zero : forall z, In z c -> ~ In z zero).
      { intros z Hz Hzz. unfold zero in Hzz. apply filter_In in Hzz.
        destruct Hzz as [_ Hno]. apply negb_true_iff in Hno.
        destruct (Hclosed z Hz) as [z' [_ Hz']].
        apply existsb_exists in Hz'. destruct Hz' as [e [He Hedge]].
        apply is_edge_iff in Hedge. destruct Hedge as [_ Hdst].
        assert (Hex : existsb (fun e => String.eqb (e_dst e) z) es = true).
        { apply existsb_exists. exists e. split; [exact He|]. now apply String.eqb_eq. }
        congruence. }
      apply (IH _ _ Htopo) with (c := c); [|exact Hc|].
      * intros e He. apply filter_In in He. destruct He as [He Hnz].
        apply negb_true_iff, mem_false in Hnz.
        apply filter_In. split; [now apply Hsrc|]. now apply negb_true_iff, mem_false.
      * intros y Hy. destruct (Hclosed y Hy) as [z [Hz Hedge]].
        exists z. split; [exact Hz|].
        apply existsb_exists in Hedge. destruct Hedge as [e [He Hedge]].
        apply existsb_exists. exists e. split; [|exact Hedge].
        apply filter_In. split; [exact He|].
        apply negb_true_iff, mem_false.
        apply is_edge_iff in Hedge. destruct Hedge as [-> _]. now apply Hin_zero.
Qed.

Lemma is_directed_acyclic_graph_sound (g : DiGraph) :
  wf g -> is_directed_acyclic_graph g = true -> acyclic g.
Proof.
  intros [_ [_ Hends]] Hdag c Hc Hclosed.
  apply (topological_generations_sound _ _ _ Hdag) with (c := c);
    [|exact Hc | exact Hclosed].
  intros e He. now apply Hends.
Qed.

Lemma reaches_walk (g : DiGraph) (k : nat) :
  forall u v, reaches k g u v = true ->
              exists l, is_walk g (u :: l) /\ last l u = v.
Proof.
  induction k as [|k IH]; intros u v H; simpl in H.
  - rewrite orb_false_r in H. apply String.eqb_eq in H. subst. now exists [].
  - apply orb_true_iff in H. destruct H as [H|H].
    + apply String.eqb_eq in H. subst. now exists [].
    + apply existsb_exists in H. destruct H as [c [Hc Hr]].
      apply successors_iff in Hc. destruct (IH c v Hr) as [l [Hw Hl]].
      exists (c :: l). split; [now apply is_walk_cons|]. now rewrite last_cons.
Qed.

Lemma last_In {A : Type} (l : list A) (x : A) : In (last l x) (x :: l).
Proof.
  revert x. induction l as [|y l IH]; intros x; [now left|].
  rewrite last_cons. right. apply IH.
Qed.

Lemma last_app_cons {A : Type} (l1 l2 : list A) (y d : A) :
  last (l1 ++ y :: l2) d = last l2 y.
Proof.
  revert d. induction l1 as [|x l1 IH]; intros d; simpl app.
  - apply last_cons.
  - rewrite last_cons. apply IH.
Qed.

Lemma is_walk_app (g : DiGraph) (l1 l2 : list node) (y : node) :
  forall x, is_walk g (x :: l1 ++ y :: l2) <->
            is_walk g (x :: l1) /\ has_edge g (last l1 x) y = true /\ is_walk g (y :: l2).
Proof.
  induction l1 as [|z l1 IH]; intros x.
  - simpl app. rewrite is_walk_cons. simpl. tauto.
  - change (is_walk g (x :: z :: (l1 ++ y :: l2)) <->
            is_walk g (x :: z :: l1) /\ has_edge g (last (z :: l1) x) y = true /\
            is_walk g (y :: l2)).
    rewrite !is_walk_cons, IH, last_cons. tauto.
Qed.

Lemma walk_predecessor_inside (g : DiGraph) (l : list node) :
  forall x, is_walk g (x :: l) ->
            forall y, In y l -> exists z, In z (x :: l) /\ has_edge g z y = true.
Proof.
  induction l as [|v l IH]; intros x Hw y Hy; [contradiction|].
  apply is_walk_cons in Hw. destruct Hw as [He Hw].
  destruct Hy as [<-|Hy].
  - exists x. split; [now left | exact He].
  - destruct (IH v Hw y Hy) as [z [Hz Hedge]]. exists z. split; [now right | exact Hedge].
Qed.

Section Acyclic.

Variable g : DiGraph.
Hypothesis g_acyclic : acyclic g.

(** No walk comes back to its first node. *)
Lemma no_closed_walk (x : node) (l : list node) :
  is_walk g (x :: l) -> has_edge g (last l x) x = true -> False.
Proof.
  intros Hw Hback. apply (g_acyclic (x :: l)); [discriminate|].
  intros y [<-|Hy].
  - exists (last l x). split; [apply last_In | exact Hback].
  - now apply (walk_predecessor_inside g l x Hw).
Qed.

(** An edge out of the end of a walk leads to a node off the walk. *)
Lemma walk_end_edge_leaves (a d : node) (l : list node) :
  is_walk g (a :: l) -> has_edge g (last l a) d = true -> ~ In d (a :: l).
Proof.
  intros Hw He Hin. apply in_split in Hin. destruct Hin as [l1 [l2 Heq]].
  assert (Hlast : last l a = last l2 d).
  { destruct l1 as [|a' l1]; simpl in Heq.
    - injection Heq as -> ->. reflexivity.
    - injection Heq as -> ->. apply last_app_cons. }
  assert (Hw2 : is_walk g (d :: l2)).
  { destruct l1 as [|a' l1]; simpl in Heq.
    - injection Heq as -> ->. exact Hw.
    - injection Heq as -> ->. apply is_walk_app in Hw. tauto. }
  rewrite Hlast in He. exact (no_closed_walk d l2 Hw2 He).
Qed.

(** A walk visits no node twice. *)
Lemma walk_NoDup (p : path) : is_walk g p -> NoDup p.
Proof.
  induction p as [|x l IH]; intros Hw; [constructor|].
  constructor.
  - intros Hin. apply in_split in Hin. destruct Hin as [l1 [l2 ->]].
    apply is_walk_app in Hw. destruct Hw as [Hw1 [He _]].
    exact (no_closed_walk x l1 Hw1 He).
  - apply IH. destruct l as [|v l]; [exact I|]. now destruct Hw as [_ Hw].
Qed.

End Acyclic.

(** ** all_simple_paths: what it cannot miss *)

(** A walk to the target that avoids the path walked so far, and visits no
    node twice, is found when the depth allows its length. *)
Lemma simple_paths_from_complete (g : DiGraph) (t : node) (rest : list node) :
  forall (visited : list node) (u : node) (depth : nat),
    rest <> [] -> is_walk g (u :: rest) -> last rest u = t ->
    NoDup (visited ++ rest) -> length rest <= depth ->
    In (visited ++ rest) (simple_paths_from depth g [t] visited u).
Proof.
  induction rest as [|v rest IH]; intros visited u depth Hne Hw Hl Hnd Hlen;
    [congruence|].
  destruct depth as [|d]; [simpl in Hlen; lia|].
  cbn [simple_paths_from]. apply in_flat_map. exists v.
  pose proof Hw as Hw'. apply is_walk_cons in Hw'. destruct Hw' as [He Hw'].
  split; [now apply successors_iff|].
  assert (Hv : ~ In v visited).
  { intros Hin. apply (NoDup_app_disjoint _ _ Hnd v Hin). now left. }
  apply mem_false in Hv. rewrite Hv. apply in_or_app.
  rewrite last_cons in Hl.
  destruct rest as [|v' rest'].
  - left. simpl in Hl. subst t. cbn [mem existsb]. rewrite String.eqb_refl.
    simpl. now left.
  - right.
    assert (Hin : In t (v' :: rest')).
    { rewrite <- Hl, last_cons. apply last_In. }
    assert (Ht : ~ In t (visited ++ [v])).
    { intros Hc. apply in_app_or in Hc. destruct Hc as [Hc|[Hc|[]]].
      - apply (NoDup_app_disjoint _ _ Hnd t Hc). now right.
      - subst v. apply NoDup_app_remove_l in Hnd.
        inversion Hnd as [|? ? Hx _]; subst. contradiction. }
    apply mem_false in Ht. cbn [forallb]. rewrite Ht. cbn [andb].
    replace (visited ++ v :: v' :: rest') with ((visited ++ [v]) ++ v' :: rest')
      by now rewrite <- app_assoc.
    apply IH.
    + discriminate.
    + exact Hw'.
    + exact Hl.
    + now rewrite <- app_assoc.
    + simpl in *. lia.
Qed.

Lemma walk_nodes (g : DiGraph) (l : list node) :
  wf g -> forall x, In x (g_nodes g) -> is_walk g (x :: l) -> incl (x :: l) (g_nodes g).
Proof.
  intros [_ [_ Hends]]. induction l as [|v l IH]; intros x Hx Hw y Hy.
  - destruct Hy as [<-|[]]. exact Hx.
  - apply is_walk_cons in Hw. destruct Hw as [He Hw].
    destruct Hy as [<-|Hy]; [exact Hx|].
    apply (IH v); [|exact Hw | exact Hy].
    apply has_edge_iff in He. destruct He as [x' Hin].
    apply (Hends _ Hin).
Qed.

(** [all_simple_paths] lists every simple path between two distinct nodes. *)
Lemma all_simple_paths_complete (g : DiGraph) (s t : node) (rest : list node) :
  wf g -> In s (g_nodes g) -> In t (g_nodes g) ->
  rest <> [] -> is_walk g (s :: rest) -> last rest s = t -> NoDup (s :: rest) ->
  exists ps, all_simple_paths g s t = inr ps /\ In (s :: rest) ps.
Proof.
  intros Hwf Hs Ht Hne Hw Hl Hnd.
  unfold all_simple_paths, targets_of.
  rewrite (proj2 (has_node_In g s) Hs), (proj2 (has_node_In g t) Ht).
  cbn [negb mem existsb].
  assert (Hst : String.eqb s t = false).
  { apply String.eqb_neq. intros ->. inversion Hnd as [|? ? Hx _]; subst.
    apply Hx. destruct rest as [|v rest]; [congruence|].
    rewrite last_cons in Hl. rewrite <- Hl at 1. apply last_In. }
  rewrite Hst. cbn [orb]. eexists. split; [reflexivity|].
  apply (simple_paths_from_complete g t rest [s] s); try assumption.
  assert (Hlen : length (s :: rest) <= length (g_nodes g)).
  { apply NoDup_incl_length; [exact Hnd|]. now apply walk_nodes. }
  simpl in Hlen. lia.
Qed.

(** ** Well-formed graphs *)

Lemma NoDup_map_filter {A B : Type} (f : A -> B) (h : A -> bool) (l : list A) :
  NoDup (map f l) -> NoDup (map f (filter h l)).
Proof.
  induction l as [|x l IH]; simpl; intros H; [constructor|].
  inversion H as [|? ? Hx Hrest]; subst.
  destruct (h x); simpl; [|now apply IH].
  constructor; [|now apply IH].
  intros Hin. apply Hx. apply in_map_iff in Hin. destruct Hin as [y [Hy Hin]].
  apply filter_In in Hin. apply in_map_iff. exists y. tauto.
Qed.

Lemma touches_src (e : node * node * Z) : touches (e_src e) e = true.
Proof. unfold touches. now rewrite String.eqb_refl. Qed.

Lemma touches_dst (e : node * node * Z) : touches (e_dst e) e = true.
Proof. unfold touches. now rewrite String.eqb_refl, orb_true_r. Qed.

Lemma without_paths_wf (g : DiGraph) (ps : list path) (de ds : bool) :
  wf g -> wf (without_paths g ps de ds).
Proof.
  intros [Hn [He Hends]]. split; [|split].
  - unfold without_paths. rewrite remove_nodes_from_nodes. apply NoDup_filter.
    destruct de, ds; simpl; repeat rewrite remove_nodes_from_nodes; simpl;
      repeat apply NoDup_filter; exact Hn.
  - unfold without_paths. rewrite remove_isolates_edges.
    destruct de, ds; simpl; repeat rewrite remove_nodes_from_edges; simpl;
      repeat apply NoDup_map_filter; exact He.
  - intros e Hin. pose proof Hin as Hin'.
    apply without_paths_edge_iff in Hin'. destruct Hin' as [Hg [_ [Hde Hds]]].
    destruct (Hends e Hg) as [Hsrc Hdst].
    split; apply without_paths_node_iff.
    + split; [exact Hsrc|]. split; [|split].
      * intros Ht. specialize (Hde Ht). unfold touches_any in Hde.
        apply orb_false_iff in Hde. now apply mem_false.
      * intros Ht. specialize (Hds Ht). unfold touches_any in Hds.
        apply orb_false_iff in Hds. now apply mem_false.
      * exists e. split; [exact Hin | apply touches_src].
    + split; [exact Hdst|]. split; [|split].
      * intros Ht. specialize (Hde Ht). unfold touches_any in Hde.
        apply orb_false_iff in Hde. now apply mem_false.
      * intros Ht. specialize (Hds Ht). unfold touches_any in Hds.
        apply orb_false_iff in Hds. now apply mem_false.
      * exists e. split; [exact Hin | apply touches_dst].
Qed.

(** The predecessors of a node are pairwise distinct. *)
Lemma predecessors_NoDup (g : DiGraph) (nd : node) :
  wf g -> NoDup (predecessors g nd).
Proof.
  intros [_ [He _]]. unfold predecessors.
  induction (g_edges g) as [|e es IH]; simpl; [constructor|].
  simpl in He. inversion He as [|? ? Hx Hrest]; subst.
  destruct (String.eqb (e_dst e) nd) eqn:Hd; simpl; [|now apply IH].
  constructor; [|now apply IH].
  intros Hin. apply Hx. apply in_map_iff in Hin. destruct Hin as [e' [Hsrc Hin]].
  apply filter_In in Hin. destruct Hin as [Hin Hd'].
  apply in_map_iff. exists e'. split; [|exact Hin].
  apply String.eqb_eq in Hd, Hd'. unfold edge_key, e_src, e_dst in *.
  destruct e as [[u v] x], e' as [[u' v'] x']. simpl in *. congruence.
Qed.

(** ** Every graph the program builds is well formed *)

Lemma add_node_NoDup (g : DiGraph) (n : node) :
  NoDup (g_nodes g) -> NoDup (g_nodes (add_node g n)).
Proof.
  intros H. unfold add_node. destruct (has_node g n) eqn:Hn; [exact H|]. simpl.
  apply NoDup_app; [exact H | constructor; [tauto | constructor] |].
  intros x Hx [<-|[]]. apply has_node_In in Hx. congruence.
Qed.

Lemma add_node_In (g : DiGraph) (n m : node) :
  In m (g_nodes g) \/ m = n -> In m (g_nodes (add_node g n)).
Proof.
  unfold add_node. destruct (has_node g n) eqn:Hn; simpl.
  - intros [H| ->]; [exact H | now apply has_node_In].
  - intros [H| ->]; apply in_or_app; [now left | right; now left].
Qed.

Lemma add_node_edges (g : DiGraph) (n : node) : g_edges (add_node g n) = g_edges g.
Proof. unfold add_node. now destruct (has_node g n). Qed.

Lemma has_edge_key (g : DiGraph) (u v : node) :
  has_edge g u v = true <-> In (u, v) (map edge_key (g_edges g)).
Proof.
  rewrite has_edge_iff, in_map_iff. split.
  - intros [x Hx]. now exists (u, v, x).
  - intros [[[a b] x] [Hk Hin]]. unfold edge_key in Hk. simpl in Hk.
    injection Hk as -> ->. now exists x.
Qed.

Lemma add_edge_wf (g : DiGraph) (u v : node) (x : Z) : wf g -> wf (add_edge g u v x).
Proof.
  intros [Hn [He Hends]]. unfold add_edge.
  set (g1 := add_node (add_node g u) v).
  assert (Hn1 : NoDup (g_nodes g1)) by (unfold g1; now repeat apply add_node_NoDup).
  assert (He1 : g_edges g1 = g_edges g) by (unfold g1; now rewrite !add_node_edges).
  assert (Hin1 : forall m, In m (g_nodes g) \/ m = u \/ m = v -> In m (g_nodes g1)).
  { intros m Hm. unfold g1. apply add_node_In.
    destruct Hm as [Hm|[Hm|Hm]]; [left | left | now right];
      apply add_node_In; auto. }
  destruct (has_edge g1 u v) eqn:Hhas; (split; [|split]); simpl; try exact Hn1.
  - rewrite map_map, He1.
    replace (map (fun e => edge_key (if is_edge u v e then (u, v, x) else e)) (g_edges g))
      with (map edge_key (g_edges g)); [exact He|].
    apply map_ext. intros e. destruct (is_edge u v e) eqn:Hi; [|reflexivity].
    apply is_edge_iff in Hi. destruct e as [[a b] y]. unfold edge_key, e_src, e_dst in *.
    simpl in *. destruct Hi. now subst.
  - intros e Hin. apply in_map_iff in Hin. destruct Hin as [e' [<- Hin]].
    rewrite He1 in Hin. destruct (is_edge u v e').
    + simpl. split; apply Hin1; auto.
    + destruct (Hends e' Hin). split; apply Hin1; auto.
  - rewrite He1, map_app. simpl. apply NoDup_app; [exact He | constructor; [tauto | constructor] |].
    intros k Hk [<-|[]]. apply has_edge_key in Hk.
    unfold has_edge in Hhas, Hk. rewrite He1 in Hhas. congruence.
  - intros e Hin. rewrite He1 in Hin. apply in_app_or in Hin.
    destruct Hin as [Hin|[<-|[]]].
    + destruct (Hends e Hin). split; apply Hin1; auto.
    + simpl. split; apply Hin1; auto.
Qed.

Lemma empty_wf : wf Nx.empty.
Proof. split; [constructor | split; [constructor | intros e []]]. Qed.

Lemma build_graph_wf (kmer_dict : list (string * Z)) : wf (build_graph kmer_dict).
Proof.
  unfold build_graph.
  assert (Hgen : forall g, wf g ->
             wf (fold_left (fun G kv => add_edge G (py_drop_last (fst kv))
                                          (py_drop_first (fst kv)) (snd kv))
                           kmer_dict g)).
  { induction kmer_dict as [|kv d IH]; intros g Hg; simpl; [exact Hg|].
    apply IH. now apply add_edge_wf. }
  apply Hgen, empty_wf.
Qed.

(** ** lowest_common_ancestor *)

Lemma lowest_from_In (g : DiGraph) (common : list node) (k : nat) :
  forall c, In c common -> In (lowest_from k g common c) common.
Proof.
  induction k as [|k IH]; intros c Hc; simpl; [exact Hc|].
  destruct (find (fun s => mem s common) (successors g c)) as [s|] eqn:Hf; [|exact Hc].
  apply IH. apply find_some in Hf. now apply mem_In.
Qed.

(** When [lowest_common_ancestor] finds a node, the graph is acyclic and
    each of the two nodes is the ancestor or is reached from it. *)
Lemma lowest_common_ancestor_Some (g : DiGraph) (n1 n2 a : node) :
  lowest_common_ancestor g n1 n2 = inr (Some a) ->
  is_directed_acyclic_graph g = true /\ In a (g_nodes g) /\
  (exists l, is_walk g (a :: l) /\ last l a = n1) /\
  (exists l, is_walk g (a :: l) /\ last l a = n2).
Proof.
  unfold lowest_common_ancestor.
  destruct (is_directed_acyclic_graph g); simpl; [|discriminate].
  destruct (Nat.eqb (length (g_nodes g)) 0); [discriminate|].
  destruct (negb (has_node g n1 && has_node g n2)); [discriminate|].
  set (common := filter (fun a => mem a (ancestors_or_self g n2)) (ancestors_or_self g n1)).
  destruct common as [|c cs] eqn:Hc; [discriminate|]. rewrite <- Hc.
  cbv zeta. intros H. injection H as <-.
  set (first := nth (set_first g n1 n2 common mod length common) common c).
  assert (Hin : In (lowest_from (length (g_nodes g)) g common first) common).
  { apply lowest_from_In. unfold first. apply nth_In.
    apply Nat.mod_upper_bound. rewrite Hc. discriminate. }
  unfold common in Hin at 2. apply filter_In in Hin. destruct Hin as [H1 H2].
  apply mem_In in H2. unfold ancestors_or_self in H1, H2.
  apply filter_In in H1, H2. destruct H1 as [Hnode H1], H2 as [_ H2].
  split; [reflexivity|]. split; [exact Hnode|].
  split; eapply reaches_walk; eassumption.
Qed.

(** ** The scan of simplify_bubbles *)

Section Scan.

Variable g : DiGraph.

Lemma scan_pairs_j_consistent (nd node_i : node) (js : list node) :
  has_edge g node_i nd = true ->
  (forall node_j, In node_j js -> node_j <> node_i /\ has_edge g node_j nd = true) ->
  forall s s', scan_consistent g s -> scan_pairs_j g nd node_i js s = inr s' ->
               scan_consistent g s'.
Proof.
  intros Hi. induction js as [|node_j js IH]; intros Hjs s s' Hs H; simpl in H.
  - now injection H as <-.
  - destruct (lowest_common_ancestor g node_i node_j) as [e|[a|]] eqn:Hlca;
      [discriminate | |].
    + injection H as <-. intros a' d' Ha Hd. simpl in Ha, Hd.
      injection Ha as <-. injection Hd as <-.
      destruct (Hjs node_j (or_introl eq_refl)) as [Hne Hj].
      exists node_i, node_j. repeat split; auto.
    + apply (IH (fun n Hn => Hjs n (or_intror Hn)) _ _ ) in H; [exact H|].
      intros a' d' Ha. simpl in Ha. discriminate.
Qed.

Lemma scan_pairs_i_consistent (nd : node) (node_predecc : list node) :
  NoDup node_predecc ->
  (forall p, In p node_predecc -> has_edge g p nd = true) ->
  forall s s', scan_consistent g s -> scan_pairs_i g nd node_predecc s = inr s' ->
               scan_consistent g s'.
Proof.
  induction node_predecc as [|node_i rest IH]; intros Hnd Hp s s' Hs H; simpl in H.
  - now injection H as <-.
  - inversion Hnd as [|? ? Hx Hrest]; subst.
    destruct (scan_pairs_j g nd node_i rest s) as [e|s1] eqn:Hj; [discriminate|].
    assert (Hs1 : scan_consistent g s1).
    { apply (scan_pairs_j_consistent nd node_i rest) with (s := s); auto.
      - apply Hp. now left.
      - intros node_j Hin. split; [intros ->; contradiction|]. apply Hp. now right. }
    destruct (bubble s1); [now injection H as <-|].
    apply (IH Hrest (fun p Hin => Hp p (or_intror Hin)) s1 s' Hs1 H).
Qed.

Hypothesis g_wf : wf g.

Lemma scan_nodes_consistent (ns : list node) :
  forall s s', scan_consistent g s -> scan_nodes g ns s = inr s' -> scan_consistent g s'.
Proof.
  induction ns as [|nd rest IH]; intros s s' Hs H; simpl in H.
  - now injection H as <-.
  - destruct (1 <? length (predecessors g nd)); [|now apply (IH s)].
    destruct (scan_pairs_i g nd (predecessors g nd) s) as [e|s1] eqn:Hi; [discriminate|].
    apply (IH s1); [|exact H].
    apply (scan_pairs_i_consistent nd (predecessors g nd)) with (s := s); auto.
    + now apply predecessors_NoDup.
    + intros p Hin. now apply predecessors_iff.
Qed.

Lemma scan_bubbles_consistent (s : scan) :
  scan_bubbles g = inr s -> scan_consistent g s.
Proof.
  apply scan_nodes_consistent. intros a d Ha. discriminate.
Qed.

End Scan.

(** ** Calls that cannot recurse forever *)

Lemma total_ret {A : Type} (a : A) : total (ret a).
Proof. intros w. discriminate. Qed.

Lemma total_lift {A : Type} (r : exn + A) : total (lift r).
Proof. intros w. apply lift_not_Diverge. Qed.

Lemma total_bind {A B : Type} (m : M A) (k : A -> M B) :
  total m -> (forall a, total (k a)) -> total (bind m k).
Proof.
  intros Hm Hk w H. apply bind_Diverge in H. destruct H as [H|[a [w1 [_ H]]]].
  - exact (Hm w H).
  - exact (Hk a w1 H).
Qed.

Lemma total_get_graph : total get_graph.
Proof. intros w. discriminate. Qed.

Lemma total_put_graph (g : DiGraph) : total (put_graph g).
Proof. intros w. discriminate. Qed.

Lemma total_randint (a b : Z) : total (Random.randint a b).
Proof. intros w. unfold Random.randint. destruct (b <? a)%Z; discriminate. Qed.

Lemma total_mapM_lift {A B : Type} (f : A -> exn + B) (l : list A) :
  total (mapM (fun x => lift (f x)) l).
Proof. intros w. apply mapM_lift_not_Diverge. Qed.

Create HintDb total.

#[local] Hint Resolve total_ret total_lift total_get_graph total_put_graph
  total_randint total_mapM_lift : total.

Ltac total_step :=
  repeat first
    [ apply total_bind; [|intros ?]
    | progress auto with total ].

Lemma total_remove_path_edges (p : path) : total (remove_path_edges p).
Proof.
  induction p as [|u tl IH]; [apply total_ret|].
  destruct tl as [|v tl']; [apply total_ret|].
  rewrite remove_path_edges_cons. total_step.
Qed.

Lemma total_remove_all_path_edges (ps : list path) : total (remove_all_path_edges ps).
Proof.
  induction ps as [|p ps IH]; simpl; [apply total_ret|].
  apply total_bind; [apply total_remove_path_edges | intros _; exact IH].
Qed.

Lemma total_remove_paths (ps : list path) (de ds : bool) : total (remove_paths ps de ds).
Proof.
  unfold remove_paths.
  apply total_bind; [apply total_remove_all_path_edges | intros _].
  apply total_bind; [destruct de; total_step | intros _].
  apply total_bind; [destruct ds; total_step | intros _].
  total_step.
Qed.

Lemma total_select_best_path (ps : list path) (ls ws : list Q) (de ds : bool) :
  total (select_best_path ps ls ws de ds).
Proof.
  unfold select_best_path. destruct (Nat.eqb (length ps) 1); [apply total_ret|].
  apply total_bind; [apply total_lift | intros b1].
  apply total_bind; [apply total_lift | intros b2].
  apply total_bind; [destruct b1; [|destruct b2]; total_step | intros i].
  apply total_bind; [apply total_lift | intros losers].
  apply total_remove_paths.
Qed.

Lemma total_solve_bubble (a d : option node) : total (solve_bubble a d).
Proof.
  unfold solve_bubble.
  apply total_bind; [apply total_get_graph | intros g].
  apply total_bind; [apply total_lift | intros ps].
  apply total_bind; [apply total_mapM_lift | intros ws].
  apply total_select_best_path.
Qed.

(** ** Solving a bubble removes an edge *)

Lemma two_members_length {A : Type} (l : list A) (x y : A) :
  In x l -> In y l -> x <> y -> 2 <= length l.
Proof.
  destruct l as [|a [|b l]]; simpl; intros Hx Hy Hne; try lia; try contradiction.
  destruct Hx as [<-|[]], Hy as [<-|[]]. congruence.
Qed.

(** The bubble the scan reports has at least two paths. *)
Lemma bubble_has_two_paths (g : DiGraph) (s : scan) (a d : node) :
  wf g -> scan_consistent g s ->
  noeud_ancetre s = Some a -> noeud_descendant s = Some d ->
  exists ps, all_simple_paths g a d = inr ps /\ 2 <= length ps.
Proof.
  intros Hwf Hs Ha Hd.
  destruct (Hs a d Ha Hd) as [pi [pj [Hne [Hei [Hej Hlca]]]]].
  apply lowest_common_ancestor_Some in Hlca.
  destruct Hlca as [Hdag [Hnode [[li [Hwi Hli]] [lj [Hwj Hlj]]]]].
  pose proof (is_directed_acyclic_graph_sound g Hwf Hdag) as Hacyc.
  assert (Hdn : In d (g_nodes g)).
  { destruct Hwf as [_ [_ Hends]]. apply has_edge_iff in Hei.
    destruct Hei as [x Hx]. apply (Hends _ Hx). }
  assert (Hpath : forall l p, is_walk g (a :: l) -> last l a = p ->
                              has_edge g p d = true ->
                              exists ps, all_simple_paths g a d = inr ps /\
                                         In (a :: l ++ [d]) ps).
  { intros l p Hw Hl He. subst p.
    assert (Hw' : is_walk g (a :: l ++ [d])).
    { apply is_walk_app. repeat split; [exact Hw | exact He]. }
    apply all_simple_paths_complete; auto.
    - intros Hnil. now apply app_eq_nil in Hnil as [_ Hnil].
    - apply last_app_cons.
    - apply (walk_NoDup g Hacyc (a :: l ++ [d]) Hw'). }
  destruct (Hpath li pi Hwi Hli Hei) as [ps [Hps Hini]].
  destruct (Hpath lj pj Hwj Hlj Hej) as [ps' [Hps' Hinj]].
  rewrite Hps in Hps'. injection Hps' as <-.
  exists ps. split; [exact Hps|].
  apply (two_members_length ps _ _ Hini Hinj).
  intros Heq. injection Heq as Heq. apply app_inj_tail in Heq. destruct Heq as [-> _].
  congruence.
Qed.

Lemma without_paths_fewer_edges (g : DiGraph) (ps : list path) (e : node * node * Z) :
  In e (g_edges g) -> on_paths ps e = true ->
  number_of_edges (without_paths g ps false false) < number_of_edges g.
Proof.
  intros Hin Hon. unfold number_of_edges, without_paths.
  rewrite remove_isolates_edges. cbn [g_edges].
  apply (filter_length_lt _ _ e Hin). now rewrite Hon.
Qed.

(** Solving the bubble that the scan reports leaves a well-formed graph with
    fewer edges. *)
Lemma solve_bubble_reduces (w w' : World) (s : scan) (r : unit) :
  wf (graph w) -> scan_bubbles (graph w) = inr s ->
  solve_bubble (noeud_ancetre s) (noeud_descendant s) w = Ok r w' ->
  wf (graph w') /\ number_of_edges (graph w') < number_of_edges (graph w).
Proof.
  intros Hwf Hscan H.
  destruct (noeud_ancetre s) as [a|] eqn:Ha; [|discriminate H].
  destruct (noeud_descendant s) as [d|] eqn:Hd; [|discriminate H].
  destruct (bubble_has_two_paths (graph w) s a d Hwf
              (scan_bubbles_consistent (graph w) Hwf s Hscan) Ha Hd) as [ps [Hps H2]].
  apply solve_bubble_Ok in H. destruct H as [paths [Hpaths Hcases]].
  rewrite Hps in Hpaths. injection Hpaths as <-.
  destruct Hcases as [[Hone _]|[_ [i [Hi Hg]]]]; [lia|].
  rewrite Hg. split; [now apply without_paths_wf|].
  pose proof (without_nth_length ps i Hi) as Hlen.
  destruct (without_nth i ps) as [|q losers] eqn:Hl; [simpl in Hlen; lia|].
  assert (Hq : In q ps) by (apply (without_nth_In ps i); rewrite Hl; now left).
  destruct (all_simple_paths_sound _ _ _ _ q Hps Hq) as [rest [-> [Hne [Hw _]]]].
  destruct rest as [|v rest]; [congruence|].
  pose proof Hw as Hw'. apply is_walk_cons in Hw'. destruct Hw' as [He _].
  apply has_edge_iff in He. destruct He as [x Hx].
  apply (without_paths_fewer_edges _ _ (a, v, x) Hx).
  unfold on_paths. cbn [existsb]. now rewrite on_path_first_edge.
Qed.

(** ** A scan that reports no bubble has seen every pair *)

Lemma scan_pairs_j_none (g : DiGraph) (nd node_i : node) (js : list node) :
  forall s s', scan_pairs_j g nd node_i js s = inr s' -> bubble s' = false ->
               bubble s = false /\
               forall node_j, In node_j js ->
                              lowest_common_ancestor g node_i node_j = inr None.
Proof.
  induction js as [|node_j js IH]; intros s s' H Hb; simpl in H.
  - injection H as <-. split; [exact Hb | intros ? []].
  - destruct (lowest_common_ancestor g node_i node_j) as [e|[a|]] eqn:Hlca;
      [discriminate | injection H as <-; discriminate Hb |].
    destruct (IH _ _ H Hb) as [Hbs Hall]. split; [exact Hbs|].
    intros n [<-|Hn]; [exact Hlca | now apply Hall].
Qed.

Lemma scan_pairs_i_none (g : DiGraph) (nd : node) (node_predecc : list node) :
  forall s s', scan_pairs_i g nd node_predecc s = inr s' -> bubble s' = false ->
               bubble s = false /\
               forall l1 node_i l2, node_predecc = l1 ++ node_i :: l2 ->
                 forall node_j, In node_j l2 ->
                   lowest_common_ancestor g node_i node_j = inr None.
Proof.
  induction node_predecc as [|n rest IH]; intros s s' H Hb; simpl in H.
  - injection H as <-. split; [exact Hb|]. intros [|? ?] ? ? Heq; discriminate Heq.
  - destruct (scan_pairs_j g nd n rest s) as [e|s1] eqn:Hj; [discriminate|].
    destruct (bubble s1) eqn:Hb1; [injection H as <-; congruence|].
    destruct (IH _ _ H Hb) as [_ Hrest].
    destruct (scan_pairs_j_none g nd n rest s s1 Hj Hb1) as [Hbs Hfirst].
    split; [exact Hbs|].
    intros [|x l1] node_i l2 Heq node_j Hin; simpl in Heq; injection Heq as <- ->.
    + now apply Hfirst.
    + now apply (Hrest l1 node_i l2 eq_refl).
Qed.

Lemma scan_nodes_none (g : DiGraph) (ns : list node) :
  forall s s', scan_nodes g ns s = inr s' -> bubble s' = false ->
               bubble s = false /\
               forall nd, In nd ns -> 1 < length (predecessors g nd) ->
                 forall l1 node_i l2, predecessors g nd = l1 ++ node_i :: l2 ->
                   forall node_j, In node_j l2 ->
                     lowest_common_ancestor g node_i node_j = inr None.
Proof.
  induction ns as [|n rest IH]; intros s s' H Hb; simpl in H.
  - injection H as <-. split; [exact Hb | intros ? []].
  - destruct (Nat.ltb_spec 1 (length (predecessors g n))) as [Hlt|Hge].
    + destruct (scan_pairs_i g n (predecessors g n) s) as [e|s1] eqn:Hi; [discriminate|].
      destruct (IH _ _ H Hb) as [Hb1 Hrest].
      destruct (scan_pairs_i_none g n _ s s1 Hi Hb1) as [Hbs Hfirst].
      split; [exact Hbs|].
      intros nd [<-|Hin] Hlen; [exact Hfirst | now apply Hrest].
    + destruct (IH _ _ H Hb) as [Hbs Hrest]. split; [exact Hbs|].
      intros nd [<-|Hin] Hlen; [lia | now apply Hrest].
Qed.

Lemma scan_pairs_j_quiet (g : DiGraph) (nd node_i : node) (js : list node) :
  (forall node_j, In node_j js -> lowest_common_ancestor g node_i node_j = inr None) ->
  forall s, exists s', scan_pairs_j g nd node_i js s = inr s' /\ bubble s' = bubble s.
Proof.
  induction js as [|node_j js IH]; intros Hall s; simpl; [eauto|].
  rewrite (Hall node_j (or_introl eq_refl)).
  destruct (IH (fun n Hn => Hall n (or_intror Hn))
              (mkScan (bubble s) None (noeud_descendant s))) as [s' [Hs' Hb]].
  exists s'. split; [exact Hs' | exact Hb].
Qed.

Lemma scan_pairs_i_quiet (g : DiGraph) (nd : node) (node_predecc : list node) :
  (forall l1 node_i l2, node_predecc = l1 ++ node_i :: l2 ->
     forall node_j, In node_j l2 -> lowest_common_ancestor g node_i node_j = inr None) ->
  forall s, exists s', scan_pairs_i g nd node_predecc s = inr s' /\ bubble s' = bubble s.
Proof.
  induction node_predecc as [|n rest IH]; intros Hall s; simpl; [eauto|].
  destruct (scan_pairs_j_quiet g nd n rest (Hall [] n rest eq_refl) s) as [s1 [Hs1 Hb1]].
  rewrite Hs1. destruct (bubble s1) eqn:Hb; [exists s1; split; congruence|].
  destruct (IH (fun l1 ni l2 Heq => Hall (n :: l1) ni l2 (f_equal (cons n) Heq)) s1)
    as [s' [Hs' Hb']].
  exists s'. split; [exact Hs' | congruence].
Qed.

Lemma scan_nodes_quiet (g : DiGraph) (ns : list node) :
  (forall nd, In nd ns -> 1 < length (predecessors g nd) ->
     forall l1 node_i l2, predecessors g nd = l1 ++ node_i :: l2 ->
       forall node_j, In node_j l2 -> lowest_common_ancestor g node_i node_j = inr None) ->
  forall s, exists s', scan_nodes g ns s = inr s' /\ bubble s' = bubble s.
Proof.
  induction ns as [|n rest IH]; intros Hall s; simpl; [eauto|].
  destruct (Nat.ltb_spec 1 (length (predecessors g n))) as [Hlt|Hge].
  - destruct (scan_pairs_i_quiet g n (predecessors g n)
                (Hall n (or_introl eq_refl) Hlt) s) as [s1 [Hs1 Hb1]].
    rewrite Hs1.
    destruct (IH (fun nd Hin => Hall nd (or_intror Hin)) s1) as [s' [Hs' Hb']].
    exists s'. split; [exact Hs' | congruence].
  - apply IH. intros nd Hin. apply Hall. now right.
Qed.

(** ** simplify_bubbles *)

Lemma simplify_bubbles_returns_or_raises (depth : nat) :
  forall w, wf (graph w) -> number_of_edges (graph w) < depth ->
            simplify_bubbles depth w <> Diverge.
Proof.
  induction depth as [|d IH]; intros w Hwf Hlt; [lia|].
  cbn [simplify_bubbles]. unfold bind at 1. unfold get_graph.
  unfold bind at 1. rewrite lift_world.
  destruct (scan_bubbles (graph w)) as [e|s] eqn:Hscan; [discriminate|].
  destruct (bubble s); [|discriminate].
  unfold bind.
  destruct (solve_bubble (noeud_ancetre s) (noeud_descendant s) w)
    as [r w'|e w'|] eqn:Hsolve.
  - destruct (solve_bubble_reduces w w' s r Hwf Hscan Hsolve) as [Hwf' Hless].
    apply IH; [exact Hwf' | lia].
  - discriminate.
  - exfalso. exact (total_solve_bubble _ _ w Hsolve).
Qed.

(** C3: on every graph [simplify_bubbles] returns or raises within a
    recursion depth of one more than the number of edges.  Each time the
    bubble that the scan reports is solved, the graph has fewer edges.  The
    scan reports no bubble exactly when no node with more than one
    predecessor has two predecessors with a common ancestor, and the graph is
    then returned as it is, without a further call. *)
Theorem simplify_bubbles_terminates :
  forall w : World,
    wf (graph w) ->
    (forall depth, number_of_edges (graph w) < depth ->
                   (exists w', simplify_bubbles depth w = Ok tt w') \/
                   (exists e w', simplify_bubbles depth w = Raise e w')) /\
    (forall s w', scan_bubbles (graph w) = inr s -> bubble s = true ->
                  solve_bubble (noeud_ancetre s) (noeud_descendant s) w = Ok tt w' ->
                  number_of_edges (graph w') < number_of_edges (graph w)) /\
    (forall s, scan_bubbles (graph w) = inr s ->
               (bubble s = false <-> no_bubble (graph w))) /\
    (no_bubble (graph w) -> forall depth, simplify_bubbles (S depth) w = Ok tt w).
Proof.
  intros w Hwf. split; [|split; [|split]].
  - intros depth Hlt.
    pose proof (simplify_bubbles_returns_or_raises depth w Hwf Hlt) as H.
    destruct (simplify_bubbles depth w) as [[] w'|e w'|]; [left | right | congruence];
      eauto.
  - intros s w' Hscan _ Hsolve.
    now destruct (solve_bubble_reduces w w' s tt Hwf Hscan Hsolve).
  - intros s Hscan. unfold scan_bubbles in Hscan. split.
    + intros Hb. destruct (scan_nodes_none _ _ _ _ Hscan Hb) as [_ Hall]. exact Hall.
    + intros Hno.
      destruct (scan_nodes_quiet (graph w) (g_nodes (graph w)) Hno
                  (mkScan false None None)) as [s' [Hs' Hb']].
      rewrite Hscan in Hs'. injection Hs' as <-. exact Hb'.
  - intros Hno depth.
    destruct (scan_nodes_quiet (graph w) (g_nodes (graph w)) Hno
                (mkScan false None None)) as [s [Hs Hb]].
    cbn [simplify_bubbles]. unfold bind, get_graph. rewrite lift_world.
    unfold scan_bubbles. rewrite Hs. cbn [ret]. now rewrite Hb.
Qed.

(** ** The graph of the k-mers, and what simplification keeps of it *)

Lemma length_substring (s : string) :
  forall n m, n + m <= String.length s -> String.length (substring n m s) = m.
Proof.
  induction s as [|c s IH]; intros n m H; simpl in H.
  - assert (n = 0) by lia. assert (m = 0) by lia. subst. reflexivity.
  - destruct n as [|n]; destruct m as [|m]; simpl; try reflexivity.
    + f_equal. apply IH. lia.
    + apply IH. lia.
    + apply IH. lia.
Qed.

Lemma cut_kmer_length (read : string) (kmer_size : nat) (kmer : string) :
  In kmer (cut_kmer read kmer_size) -> String.length kmer = kmer_size.
Proof.
  unfold cut_kmer. intros H. apply in_map_iff in H. destruct H as [i [<- Hi]].
  apply in_seq in Hi. apply length_substring. lia.
Qed.

Lemma count_kmer_keys (d : list (string * Z)) (kmer : string) (kv : string * Z) :
  In kv (count_kmer d kmer) ->
  fst kv = kmer \/ exists kv', In kv' d /\ fst kv' = fst kv.
Proof.
  induction d as [|[k c] d IH]; simpl; intros H.
  - destruct H as [<-|[]]. now left.
  - destruct (String.eqb k kmer) eqn:Hk.
    + destruct H as [<-|H].
      * right. exists (k, c). split; [now left | reflexivity].
      * right. exists kv. split; [now right | reflexivity].
    + destruct H as [<-|H].
      * right. exists (k, c). split; [now left | reflexivity].
      * destruct (IH H) as [Hl|[kv' [Hin Heq]]]; [now left|].
        right. exists kv'. split; [now right | exact Heq].
Qed.

Lemma fold_count_kmer_keys (k : nat) (kmers : list string) :
  (forall kmer, In kmer kmers -> String.length kmer = k) ->
  forall d, (forall x, In x d -> String.length (fst x) = k) ->
            forall x, In x (fold_left count_kmer kmers d) -> String.length (fst x) = k.
Proof.
  induction kmers as [|km kms IH]; intros Hk d Hd x Hx; simpl in Hx; [now apply Hd|].
  apply (IH (fun z Hz => Hk z (or_intror Hz)) (count_kmer d km)); [|exact Hx].
  intros z Hz. apply count_kmer_keys in Hz. destruct Hz as [->|[z' [Hin <-]]].
  - apply Hk. now left.
  - now apply Hd.
Qed.

Lemma build_kmer_dict_keys (reads : list string) (kmer_size : nat) (kv : string * Z) :
  In kv (build_kmer_dict reads kmer_size) -> String.length (fst kv) = kmer_size.
Proof.
  unfold build_kmer_dict.
  assert (Hgen : forall d,
             (forall x, In x d -> String.length (fst x) = kmer_size) ->
             forall x, In x (fold_left
                               (fun kmer_dict sequence =>
                                  fold_left count_kmer (cut_kmer sequence kmer_size) kmer_dict)
                               reads d) ->
                       String.length (fst x) = kmer_size).
  { induction reads as [|r reads IH]; intros d Hd x Hx; simpl in Hx; [now apply Hd|].
    apply (IH (fold_left count_kmer (cut_kmer r kmer_size) d)); [|exact Hx].
    apply fold_count_kmer_keys; [apply cut_kmer_length | exact Hd]. }
  apply Hgen. intros x [].
Qed.

Lemma py_drop_last_length (s : string) :
  String.length (py_drop_last s) = String.length s - 1.
Proof. unfold py_drop_last. apply length_substring. lia. Qed.

Lemma py_drop_first_length (s : string) :
  String.length (py_drop_first s) = String.length s - 1.
Proof.
  unfold py_drop_first. destruct s as [|c s]; [reflexivity|].
  apply length_substring. simpl. lia.
Qed.

Lemma add_node_nodes (g : DiGraph) (n m : node) :
  In m (g_nodes (add_node g n)) -> In m (g_nodes g) \/ m = n.
Proof.
  unfold add_node. destruct (has_node g n); simpl; [now left|].
  intros H. apply in_app_or in H. destruct H as [H|[<-|[]]]; auto.
Qed.

Lemma add_edge_uniform (L : nat) (g : DiGraph) (u v : node) (x : Z) :
  uniform L g -> String.length u = L -> String.length v = L ->
  uniform L (add_edge g u v x).
Proof.
  intros [Hn He] Hu Hv. unfold add_edge.
  assert (Hn1 : forall n, In n (g_nodes (add_node (add_node g u) v)) ->
                          String.length n = L).
  { intros n H. apply add_node_nodes in H. destruct H as [H| ->]; [|exact Hv].
    apply add_node_nodes in H. destruct H as [H| ->]; [now apply Hn | exact Hu]. }
  assert (He1 : g_edges (add_node (add_node g u) v) = g_edges g).
  { unfold add_node. destruct (has_node g u); simpl;
      match goal with |- context [if ?b then _ else _] => destruct b end; reflexivity. }
  destruct (has_edge (add_node (add_node g u) v) u v); split; simpl; try exact Hn1.
  - intros e H. apply in_map_iff in H. destruct H as [e' [<- Hin]].
    rewrite He1 in Hin. destruct (is_edge u v e'); [simpl; auto | now apply He].
  - intros e H. rewrite He1 in H. apply in_app_or in H.
    destruct H as [H|[<-|[]]]; [now apply He | simpl; auto].
Qed.

Lemma build_graph_uniform (kmer_dict : list (string * Z)) (k : nat) :
  (forall kv, In kv kmer_dict -> String.length (fst kv) = k) ->
  uniform (k - 1) (build_graph kmer_dict).
Proof.
  unfold build_graph. intros Hk.
  assert (Hgen : forall g, uniform (k - 1) g ->
             uniform (k - 1)
               (fold_left (fun G kv => add_edge G (py_drop_last (fst kv))
                                         (py_drop_first (fst kv)) (snd kv))
                          kmer_dict g)).
  { induction kmer_dict as [|kv d IH]; intros g Hg; simpl; [exact Hg|].
    apply IH; [intros x Hx; apply Hk; now right|].
    apply add_edge_uniform; [exact Hg | |].
    - rewrite py_drop_last_length, (Hk kv (or_introl eq_refl)). reflexivity.
    - rewrite py_drop_first_length, (Hk kv (or_introl eq_refl)). reflexivity. }
  apply Hgen. split; intros ? [].
Qed.

Lemma uniform_subgraph (L : nat) (g g' : DiGraph) :
  subgraph_of g' g -> uniform L g -> uniform L g'.
Proof.
  intros [Hn He] [Un Ue]. split; intros x Hx; [apply Un, Hn | apply Ue, He]; exact Hx.
Qed.

Lemma subgraph_of_refl (g : DiGraph) : subgraph_of g g.
Proof. split; apply incl_refl. Qed.

Lemma subgraph_of_trans (g1 g2 g3 : DiGraph) :
  subgraph_of g1 g2 -> subgraph_of g2 g3 -> subgraph_of g1 g3.
Proof. intros [H1 H2] [H3 H4]. split; eapply incl_tran; eassumption. Qed.

Lemma without_paths_subgraph (g : DiGraph) (ps : list path) (de ds : bool) :
  subgraph_of (without_paths g ps de ds) g.
Proof.
  split.
  - intros n Hn. apply without_paths_node_iff in Hn. tauto.
  - intros e He. apply without_paths_edge_iff in He. tauto.
Qed.

Lemma select_best_path_subgraph (ps : list path) (ls ws : list Q) (de ds : bool)
    (w w' : World) (r : unit) :
  select_best_path ps ls ws de ds w = Ok r w' -> subgraph_of (graph w') (graph w).
Proof.
  intros H. destruct (Nat.eq_dec (length ps) 1) as [Hone|Hne].
  - unfold select_best_path in H. rewrite Hone in H. simpl in H.
    unfold ret in H. injection H as _ <-. apply subgraph_of_refl.
  - apply select_best_path_Ok in H; [|exact Hne].
    destruct H as [i [w1 [_ [Hg H]]]]. apply remove_paths_Ok in H.
    destruct H as [-> _]. rewrite Hg. apply without_paths_subgraph.
Qed.

Lemma solve_bubble_subgraph (a d : option node) (w w' : World) (r : unit) :
  solve_bubble a d w = Ok r w' -> subgraph_of (graph w') (graph w).
Proof.
  unfold solve_bubble. intros H.
  apply bind_Ok in H. destruct H as [g [w1 [H1 H]]].
  unfold get_graph in H1. injection H1 as <- <-.
  apply bind_Ok in H. destruct H as [paths [w2 [H2 H]]].
  apply lift_Ok in H2. destruct H2 as [_ ->].
  apply bind_Ok in H. destruct H as [ws [w3 [H3 H]]].
  apply mapM_lift_Ok in H3. destruct H3 as [-> _].
  now apply select_best_path_subgraph in H.
Qed.

Lemma simplify_bubbles_subgraph (depth : nat) :
  forall w w' r, simplify_bubbles depth w = Ok r w' -> subgraph_of (graph w') (graph w).
Proof.
  induction depth as [|d IH]; intros w w' r H; [discriminate|].
  cbn [simplify_bubbles] in H.
  apply bind_Ok in H. destruct H as [g [w1 [H1 H]]].
  unfold get_graph in H1. injection H1 as <- <-.
  apply bind_Ok in H. destruct H as [s [w2 [H2 H]]].
  apply lift_Ok in H2. destruct H2 as [_ ->].
  destruct (bubble s).
  - apply bind_Ok in H. destruct H as [r1 [w3 [H3 H]]].
    apply solve_bubble_subgraph in H3. apply IH in H.
    eapply subgraph_of_trans; eassumption.
  - unfold ret in H. injection H as _ <-. apply subgraph_of_refl.
Qed.

Lemma solve_entry_tips_subgraph (depth : nat) (starting_nodes : list node) :
  forall w w' r, solve_entry_tips depth starting_nodes w = Ok r w' ->
                 subgraph_of (graph w') (graph w).
Proof.
  induction depth as [|d IH]; intros w w' r H; [discriminate|].
  cbn [solve_entry_tips] in H.
  apply bind_Ok in H. destruct H as [g [w1 [H1 H]]].
  unfold get_graph in H1. injection H1 as <- <-.
  destruct (find _ (g_nodes (graph w))) as [nd|].
  - apply bind_Ok in H. destruct H as [paths [w2 [H2 H]]].
    apply mapM_lift_Ok in H2. destruct H2 as [-> _].
    apply bind_Ok in H. destruct H as [ws [w3 [H3 H]]].
    apply mapM_lift_Ok in H3. destruct H3 as [-> _].
    apply bind_Ok in H. destruct H as [r1 [w4 [H4 H]]].
    apply select_best_path_subgraph in H4. apply IH in H.
    eapply subgraph_of_trans; eassumption.
  - unfold ret in H. injection H as _ <-. apply subgraph_of_refl.
Qed.

Lemma solve_out_tips_subgraph (depth : nat) (ending_nodes : list node) :
  forall w w' r, solve_out_tips depth ending_nodes w = Ok r w' ->
                 subgraph_of (graph w') (graph w).
Proof.
  induction depth as [|d IH]; intros w w' r H; [discriminate|].
  cbn [solve_out_tips] in H.
  apply bind_Ok in H. destruct H as [g [w1 [H1 H]]].
  unfold get_graph in H1. injection H1 as <- <-.
  destruct (find _ (g_nodes (graph w))) as [nd|].
  - apply bind_Ok in H. destruct H as [paths [w2 [H2 H]]].
    apply mapM_lift_Ok in H2. destruct H2 as [-> _].
    apply bind_Ok in H. destruct H as [ws [w3 [H3 H]]].
    apply mapM_lift_Ok in H3. destruct H3 as [-> _].
    apply bind_Ok in H. destruct H as [r1 [w4 [H4 H]]].
    apply select_best_path_subgraph in H4. apply IH in H.
    eapply subgraph_of_trans; eassumption.
  - unfold ret in H. injection H as _ <-. apply subgraph_of_refl.
Qed.

Lemma uniform_walk (L : nat) (g : DiGraph) (l : list node) :
  uniform L g ->
  forall x, String.length x = L -> is_walk g (x :: l) ->
            forall n, In n (x :: l) -> String.length n = L.
Proof.
  intros [_ Ue]. induction l as [|v l IH]; intros x Hx Hw n Hn.
  - destruct Hn as [<-|[]]. exact Hx.
  - destruct Hn as [<-|Hn]; [exact Hx|].
    apply is_walk_cons in Hw. destruct Hw as [He Hw].
    apply (IH v); [|exact Hw | exact Hn].
    apply has_edge_iff in He. destruct He as [y Hy]. apply (Ue _ Hy).
Qed.

(** The graph [main] ends with is made of nodes of length k - 1. *)
Lemma main_graph_uniform (gen : Z -> nat -> nat) (depth : nat) (reads : list string)
    (kmer_size : nat) (w w' : World) (contigs : list (string * nat)) :
  main gen depth reads kmer_size w = Ok contigs w' ->
  uniform (kmer_size - 1) (graph w') /\
  get_contigs (graph w') (get_starting_nodes (graph w')) (get_sink_nodes (graph w'))
  = inr contigs.
Proof.
  unfold main. intros H.
  apply bind_Ok in H. destruct H as [r0 [w0 [H0 H]]].
  unfold Random.seed in H0. injection H0 as _ <-.
  apply bind_Ok in H. destruct H as [r1 [w1 [H1 H]]].
  unfold put_graph in H1. injection H1 as _ <-. cbn [graph rng] in H.
  apply bind_Ok in H. destruct H as [r2 [w2 [H2 H]]].
  apply simplify_bubbles_subgraph in H2. cbn [graph] in H2.
  apply bind_Ok in H. destruct H as [g3 [w3 [H3 H]]].
  unfold get_graph in H3. injection H3 as <- <-.
  apply bind_Ok in H. destruct H as [r4 [w4 [H4 H]]].
  apply solve_entry_tips_subgraph in H4.
  apply bind_Ok in H. destruct H as [g5 [w5 [H5 H]]].
  unfold get_graph in H5. injection H5 as <- <-.
  apply bind_Ok in H. destruct H as [r6 [w6 [H6 H]]].
  apply solve_out_tips_subgraph in H6.
  apply bind_Ok in H. destruct H as [g7 [w7 [H7 H]]].
  unfold get_graph in H7. injection H7 as <- <-.
  apply lift_Ok in H. destruct H as [Hc ->].
  split; [|exact Hc].
  apply (uniform_subgraph _ (build_graph (build_kmer_dict reads kmer_size))).
  - eapply subgraph_of_trans; [exact H6|]. eapply subgraph_of_trans; eassumption.
  - apply build_graph_uniform. apply build_kmer_dict_keys.
Qed.

(** ** get_contigs on the graph of the pipeline *)

(** C6: [get_contigs] returns whenever the starting nodes are nodes of the
    graph, and its list holds, for every path that [all_simple_paths] yields
    from a starting node to an ending node and whose nodes all have the
    length of the first one, the first node's label followed by the last
    character of every following node, paired with its length.  The nodes of
    the graph that [main] builds and simplifies all have length k - 1, so
    this holds for every source-to-sink path of the graph [main] ends with.
    On the graph of the reads AACCGGTT and CCGGTTAA for k = 4 the result is
    the one contig AACCGGTTAA of length 10. *)
Theorem get_contigs_emits_contig_of_every_path :
  forall (g : DiGraph) (starting_nodes ending_nodes : list node),
    ((forall s, In s starting_nodes -> has_node g s = true) ->
     exists contigs,
       get_contigs g starting_nodes ending_nodes = inr contigs /\
       forall (start end_ : node) (ps : list path) (p : path),
         In start starting_nodes -> In end_ ending_nodes ->
         all_simple_paths g start end_ = inr ps -> In p ps ->
         (forall n, In n p -> String.length n = String.length (hd EmptyString p)) ->
         In (contig_in_words p, String.length (contig_in_words p)) contigs) /\
    (forall (gen : Z -> nat -> nat) (depth : nat) (reads : list string)
            (kmer_size : nat) (w w' : World) (contigs : list (string * nat)),
        main gen depth reads kmer_size w = Ok contigs w' ->
        forall (start end_ : node) (ps : list path) (p : path),
          In start (get_starting_nodes (graph w')) ->
          In end_ (get_sink_nodes (graph w')) ->
          all_simple_paths (graph w') start end_ = inr ps -> In p ps ->
          In (contig_in_words p, String.length (contig_in_words p)) contigs) /\
    get_contigs g_two_reads (get_starting_nodes g_two_reads) (get_sink_nodes g_two_reads)
    = inr [("AACCGGTTAA"%string, 10)] /\
    (forall (gen : Z -> nat -> nat) (depth : nat) (w : World),
        main gen (S depth) ["AACCGGTT"; "CCGGTTAA"]%string 4 w
        = Ok [("AACCGGTTAA"%string, 10)] (mkWorld g_two_reads (gen 9001%Z))).
Proof.
  assert (Hgeneral : forall g starts ends,
             (forall s, In s starts -> has_node g s = true) ->
             exists contigs,
               get_contigs g starts ends = inr contigs /\
               forall (start end_ : node) (ps : list path) (p : path),
                 In start starts -> In end_ ends ->
                 all_simple_paths g start end_ = inr ps -> In p ps ->
                 (forall n, In n p ->
                            String.length n = String.length (hd EmptyString p)) ->
                 In (contig_in_words p, String.length (contig_in_words p)) contigs).
  { intros g starts ends Hnodes. unfold get_contigs.
    set (cell := fun start end_ =>
                   match all_simple_paths g start end_ with
                   | inl e => inl e
                   | inr ps => contigs_of_paths ps
                   end).
    destruct (concat_results_defined
                (flat_map (fun start => map (cell start) ends) starts)) as [contigs Hc].
    { intros y Hy. apply in_flat_map in Hy. destruct Hy as [s [Hs Hy]].
      apply in_map_iff in Hy. destruct Hy as [e [<- He]]. unfold cell.
      destruct (all_simple_paths_defined g s e (Hnodes s Hs)) as [ps Hps]. rewrite Hps.
      apply contigs_of_paths_defined. intros p Hp.
      destruct (all_simple_paths_sound g s e ps p Hps Hp) as [rest [-> _]]. discriminate. }
    exists contigs. split; [exact Hc|].
    intros s e ps p Hs He Hps Hp Hlen.
    assert (Hne : p <> []).
    { destruct (all_simple_paths_sound g s e ps p Hps Hp) as [rest [-> _]]. discriminate. }
    destruct (contigs_of_paths_defined ps) as [cs Hcs].
    { intros q Hq.
      destruct (all_simple_paths_sound g s e ps q Hps Hq) as [rest [-> _]]. discriminate. }
    apply (concat_results_inr _ contigs cs _ Hc).
    - apply in_flat_map. exists s. split; [exact Hs|]. apply in_map_iff. exists e.
      split; [|exact He]. unfold cell. now rewrite Hps.
    - apply (contigs_of_paths_In ps cs p _ Hcs Hp).
      now apply contig_of_path_in_words. }
  intros g starts ends. split; [apply Hgeneral|]. split; [|split; reflexivity].
  intros gen depth reads k w w' contigs Hmain s e ps p Hs He Hps Hp.
  apply main_graph_uniform in Hmain. destruct Hmain as [Huni Hc].
  destruct (Hgeneral (graph w') (get_starting_nodes (graph w'))
              (get_sink_nodes (graph w'))) as [contigs' [Hc' Hall]].
  { intros n Hn. apply filter_In in Hn. now apply has_node_In. }
  rewrite Hc in Hc'. injection Hc' as <-.
  apply (Hall s e ps p Hs He Hps Hp).
  destruct (all_simple_paths_sound _ _ _ _ p Hps Hp) as [rest [-> [_ [Hw _]]]].
  assert (Hlen : String.length s = k - 1).
  { apply filter_In in Hs. destruct Hs as [Hs _]. now apply (proj1 Huni). }
  intros n Hn. cbn [hd]. rewrite Hlen.
  now apply (uniform_walk (k - 1) (graph w') rest Huni s Hlen Hw).
Qed.

(** * Further properties of the program *)

(** ** cut_kmer *)

Lemma substring_zero_length (s : string) (n : nat) : substring n 0 s = EmptyString.
Proof.
  revert n. induction s as [|c s IH]; intros [|n]; simpl; try reflexivity. apply IH.
Qed.

(** X1: [cut_kmer] yields [len(read) - kmer_size + 1] windows (none when the
    read is shorter than [kmer_size]); the window at position [i] is
    [read[i : i + kmer_size]] and has exactly [kmer_size] characters, so no
    shorter window appears at the end of the read. *)
Theorem cut_kmer_windows :
  forall (read : string) (kmer_size : nat),
    length (cut_kmer read kmer_size) = String.length read + 1 - kmer_size /\
    (String.length read < kmer_size -> cut_kmer read kmer_size = []) /\
    (forall i, i < String.length read + 1 - kmer_size ->
               nth i (cut_kmer read kmer_size) EmptyString = substring i kmer_size read /\
               String.length (nth i (cut_kmer read kmer_size) EmptyString) = kmer_size).
Proof.
  intros read k. unfold cut_kmer. split; [|split].
  - now rewrite length_map, length_seq.
  - intros H. replace (String.length read + 1 - k) with 0 by lia. reflexivity.
  - intros i Hi.
    assert (Hnth : nth i (map (fun j => substring j k read)
                            (seq 0 (String.length read + 1 - k))) EmptyString
                   = substring i k read).
    { set (f := fun j => substring j k read).
      rewrite (nth_indep _ EmptyString (f 0)) by now rewrite length_map, length_seq.
      rewrite map_nth, seq_nth by lia. reflexivity. }
    rewrite Hnth. split; [reflexivity|]. apply length_substring. lia.
Qed.

(** ** build_kmer_dict *)

Lemma build_kmer_dict_fold (reads : list string) (kmer_size : nat) :
  build_kmer_dict reads kmer_size = fold_left count_kmer (all_kmers reads kmer_size) [].
Proof.
  unfold build_kmer_dict, all_kmers. generalize (@nil (string * Z)) as d.
  induction reads as [|r reads IH]; intros d; simpl; [reflexivity|].
  now rewrite fold_left_app, IH.
Qed.

Lemma count_kmer_get (d : list (string * Z)) (kmer x : string) :
  dict_get (count_kmer d kmer) x
  = (dict_get d x + if String.eqb kmer x then 1 else 0)%Z.
Proof.
  induction d as [|[k c] d IH]; simpl.
  - destruct (String.eqb kmer x); reflexivity.
  - destruct (String.eqb k kmer) eqn:Hk; simpl.
    + apply String.eqb_eq in Hk. subst k.
      destruct (String.eqb kmer x); lia.
    + destruct (String.eqb k x) eqn:Hx; [|exact IH].
      apply String.eqb_eq in Hx. subst x. rewrite String.eqb_sym, Hk. lia.
Qed.

Lemma count_kmer_keys_NoDup (d : list (string * Z)) (kmer : string) :
  NoDup (map fst d) -> NoDup (map fst (count_kmer d kmer)).
Proof.
  induction d as [|[k c] d IH]; simpl; intros H.
  - constructor; [tauto | constructor].
  - inversion H as [|? ? Hk Hd]; subst.
    destruct (String.eqb k kmer) eqn:Hkk; simpl; [exact H|].
    constructor; [|now apply IH].
    intros Hin. apply in_map_iff in Hin. destruct Hin as [kv [Hfst Hkv]].
    apply count_kmer_keys in Hkv. destruct Hkv as [Heq|[kv' [Hin' Heq]]].
    + rewrite Hfst in Heq. subst kmer. rewrite String.eqb_refl in Hkk. discriminate.
    + apply Hk. apply in_map_iff. exists kv'. split; [congruence | exact Hin'].
Qed.

Lemma count_kmer_total (d : list (string * Z)) (kmer : string) :
  total_count (count_kmer d kmer) = (total_count d + 1)%Z.
Proof.
  unfold total_count. induction d as [|[k c] d IH]; simpl; [reflexivity|].
  destruct (String.eqb k kmer); simpl; lia.
Qed.

Lemma dict_get_key (d : list (string * Z)) (x : string) :
  (forall kv, In kv d -> (0 < snd kv)%Z) ->
  (In x (map fst d) <-> (0 < dict_get d x)%Z).
Proof.
  induction d as [|[k c] d IH]; simpl; intros Hpos; [split; [tauto | lia]|].
  destruct (String.eqb_spec k x) as [->|Hne].
  - split; [intros _; apply (Hpos (x, c)); now left | intros _; now left].
  - rewrite <- IH by (intros kv Hkv; apply Hpos; now right).
    split; [intros [H|H]; [congruence | exact H] | intros H; now right].
Qed.

Lemma count_kmer_positive (d : list (string * Z)) (kmer : string) :
  (forall kv, In kv d -> (0 < snd kv)%Z) ->
  forall kv, In kv (count_kmer d kmer) -> (0 < snd kv)%Z.
Proof.
  induction d as [|[k c] d IH]; simpl; intros Hpos kv Hkv.
  - destruct Hkv as [<-|[]]. simpl. lia.
  - destruct (String.eqb k kmer); destruct Hkv as [<-|Hkv]; simpl.
    + specialize (Hpos (k, c) (or_introl eq_refl)). simpl in Hpos. lia.
    + apply Hpos. now right.
    + apply (Hpos (k, c)). now left.
    + apply IH; [|exact Hkv]. intros kv' H'. apply Hpos. now right.
Qed.

Lemma fold_count_kmer_facts (kmers : list string) :
  forall d,
    NoDup (map fst d) -> (forall kv, In kv d -> (0 < snd kv)%Z) ->
    let d' := fold_left count_kmer kmers d in
    NoDup (map fst d') /\
    (forall kv, In kv d' -> (0 < snd kv)%Z) /\
    (forall x, dict_get d' x
               = (dict_get d x + Z.of_nat (count_occ string_dec kmers x))%Z) /\
    total_count d' = (total_count d + Z.of_nat (length kmers))%Z.
Proof.
  induction kmers as [|km kms IH]; intros d Hnd Hpos; cbn zeta.
  - simpl. repeat split; try assumption; intros; lia.
  - cbn [fold_left].
    destruct (IH (count_kmer d km) (count_kmer_keys_NoDup d km Hnd)
                (count_kmer_positive d km Hpos)) as [H1 [H2 [H3 H4]]].
    split; [exact H1|]. split; [exact H2|]. split.
    + intros x. rewrite H3, count_kmer_get. cbn [count_occ].
      destruct (string_dec km x) as [->|Hne].
      * rewrite String.eqb_refl. lia.
      * apply String.eqb_neq in Hne. rewrite Hne. lia.
    + rewrite H4, count_kmer_total. cbn [length]. lia.
Qed.

(** X2: the dictionary of [build_kmer_dict] has one entry per distinct
    k-mer; the count it holds for a k-mer is the number of windows of the
    reads equal to it (0, the default of [get], for a k-mer that never
    occurs), every stored count is positive, and the counts add up to the
    number of windows of all the reads. *)
Theorem build_kmer_dict_counts :
  forall (reads : list string) (kmer_size : nat),
    let kmer_dict := build_kmer_dict reads kmer_size in
    NoDup (map fst kmer_dict) /\
    (forall kmer, dict_get kmer_dict kmer
                  = Z.of_nat (count_occ string_dec (all_kmers reads kmer_size) kmer)) /\
    (forall kmer, In kmer (map fst kmer_dict) <-> In kmer (all_kmers reads kmer_size)) /\
    total_count kmer_dict = Z.of_nat (length (all_kmers reads kmer_size)).
Proof.
  intros reads k. cbn zeta. rewrite build_kmer_dict_fold.
  destruct (fold_count_kmer_facts (all_kmers reads k) [])
    as [H1 [H2 [H3 H4]]]; [constructor | intros kv [] |].
  cbn zeta in *. split; [exact H1|]. split; [intros x; rewrite H3; simpl; lia|].
  split; [|rewrite H4; unfold total_count; simpl; lia].
  intros x. rewrite (dict_get_key _ x H2), H3. simpl.
  rewrite (count_occ_In string_dec). lia.
Qed.

(** ** build_graph *)

Lemma substring_all (s : string) : substring 0 (String.length s) s = s.
Proof. induction s as [|c s IH]; simpl; [reflexivity | now rewrite IH]. Qed.

Lemma py_drop_first_cons (c : ascii) (s : string) : py_drop_first (String c s) = s.
Proof. unfold py_drop_first. simpl. rewrite Nat.sub_0_r. apply substring_all. Qed.

Lemma py_drop_last_cons (c c' : ascii) (s : string) :
  py_drop_last (String c (String c' s)) = String c (py_drop_last (String c' s)).
Proof. unfold py_drop_last. simpl. now rewrite Nat.sub_0_r. Qed.

(** A k-mer of two characters or more is determined by its prefix and its
    suffix. *)
Lemma kmer_of_prefix_suffix (s t : string) :
  2 <= String.length s ->
  py_drop_last s = py_drop_last t -> py_drop_first s = py_drop_first t -> s = t.
Proof.
  destruct s as [|c [|c' s]]; simpl; try lia. intros _ Hl Hf.
  rewrite py_drop_first_cons in Hf. rewrite py_drop_last_cons in Hl.
  destruct t as [|d [|d' t]].
  - discriminate Hf.
  - rewrite py_drop_first_cons in Hf. discriminate Hf.
  - rewrite py_drop_first_cons in Hf. rewrite py_drop_last_cons in Hl.
    injection Hl as -> _. now rewrite Hf.
Qed.

Lemma add_edge_new (g : DiGraph) (u v : node) (x : Z) :
  has_edge g u v = false -> g_edges (add_edge g u v x) = g_edges g ++ [(u, v, x)].
Proof.
  intros H. unfold add_edge.
  assert (He : g_edges (add_node (add_node g u) v) = g_edges g)
    by now rewrite !add_node_edges.
  assert (Hh : has_edge (add_node (add_node g u) v) u v = false)
    by (unfold has_edge in *; now rewrite He).
  rewrite Hh. simpl. now rewrite He.
Qed.

Lemma build_graph_edges_from (d : list (string * Z)) :
  forall (g : DiGraph) (seen : list (string * Z)),
    g_edges g = map edge_of_kmer seen ->
    NoDup (map fst (seen ++ d)) ->
    (forall kv, In kv (seen ++ d) -> 2 <= String.length (fst kv)) ->
    g_edges (fold_left (fun G kv => add_edge G (py_drop_last (fst kv))
                                      (py_drop_first (fst kv)) (snd kv)) d g)
    = map edge_of_kmer (seen ++ d).
Proof.
  induction d as [|kv d IH]; intros g seen Hg Hnd Hlen; simpl.
  - now rewrite app_nil_r.
  - replace (seen ++ kv :: d) with ((seen ++ [kv]) ++ d) in * by now rewrite <- app_assoc.
    apply IH; [|exact Hnd | exact Hlen].
    rewrite add_edge_new; [rewrite Hg, map_app; reflexivity|].
    destruct (has_edge g _ _) eqn:Hhas; [|reflexivity]. exfalso.
    apply has_edge_iff in Hhas. destruct Hhas as [x Hx]. rewrite Hg in Hx.
    apply in_map_iff in Hx. destruct Hx as [kv' [Heq Hin]].
    unfold edge_of_kmer in Heq. injection Heq as Hl Hf _.
    assert (Hkey : fst kv' = fst kv).
    { apply kmer_of_prefix_suffix; [|exact Hl | exact Hf].
      apply Hlen. apply in_or_app. left. apply in_or_app. now left. }
    rewrite map_app, map_app in Hnd. apply NoDup_app_remove_r in Hnd as Hnd'.
    clear Hnd'. rewrite <- app_assoc in Hnd.
    apply (NoDup_app_disjoint _ _ Hnd (fst kv)).
    + rewrite <- Hkey. now apply in_map.
    + simpl. now left.
Qed.

Lemma find_edge_of_kmer (d : list (string * Z)) (kmer : string) :
  (forall kv, In kv d -> 2 <= String.length (fst kv)) ->
  find (is_edge (py_drop_last kmer) (py_drop_first kmer)) (map edge_of_kmer d)
  = option_map edge_of_kmer (find (fun kv => String.eqb (fst kv) kmer) d).
Proof.
  induction d as [|kv d IH]; intros Hlen; [reflexivity|]. simpl.
  destruct (String.eqb (fst kv) kmer) eqn:Hk.
  - apply String.eqb_eq in Hk. subst kmer.
    unfold is_edge, e_src, e_dst, edge_of_kmer at 1. simpl.
    now rewrite !String.eqb_refl.
  - destruct (is_edge _ _ (edge_of_kmer kv)) eqn:Hi.
    + exfalso. apply is_edge_iff in Hi. destruct Hi as [Hl Hf].
      unfold edge_of_kmer, e_src, e_dst in Hl, Hf. simpl in Hl, Hf.
      apply String.eqb_neq in Hk. apply Hk.
      apply kmer_of_prefix_suffix; [apply Hlen; now left | exact Hl | exact Hf].
    + apply IH. intros kv' H'. apply Hlen. now right.
Qed.

Lemma dict_get_find (d : list (string * Z)) (kmer : string) :
  dict_get d kmer = match find (fun kv => String.eqb (fst kv) kmer) d with
                    | Some kv => snd kv
                    | None => 0%Z
                    end.
Proof.
  induction d as [|[k c] d IH]; simpl; [reflexivity|].
  destruct (String.eqb k kmer); [reflexivity | exact IH].
Qed.

(** X3: for k of 2 or more, [build_graph] turns the dictionary of the reads
    into one edge per distinct k-mer, in the order of the dictionary, from
    the k-mer's prefix to its suffix; the weight of that edge is the number of
    windows of the reads equal to the k-mer, a k-mer that never occurs has no
    edge, and the weights add up to the number of windows of all the
    reads. *)
Theorem build_graph_weights :
  forall (reads : list string) (kmer_size : nat),
    2 <= kmer_size ->
    let kmer_dict := build_kmer_dict reads kmer_size in
    let g := build_graph kmer_dict in
    g_edges g = map edge_of_kmer kmer_dict /\
    (forall kmer,
        get_edge_data g (py_drop_last kmer) (py_drop_first kmer)
        = if Nat.eqb (count_occ string_dec (all_kmers reads kmer_size) kmer) 0
          then None
          else Some (Z.of_nat (count_occ string_dec (all_kmers reads kmer_size) kmer))) /\
    total_weight g = Z.of_nat (length (all_kmers reads kmer_size)).
Proof.
  intros reads k Hk. cbn zeta.
  assert (Hlen : forall kv, In kv (build_kmer_dict reads k) ->
                            2 <= String.length (fst kv)).
  { intros kv Hkv. rewrite (build_kmer_dict_keys reads k kv Hkv). exact Hk. }
  pose proof (build_kmer_dict_fold reads k) as Hfold.
  destruct (fold_count_kmer_facts (all_kmers reads k) [])
    as [H1 [H2 [H3 H4]]]; [constructor | intros kv [] |].
  cbn zeta in *. rewrite <- Hfold in *.
  assert (Hedges : g_edges (build_graph (build_kmer_dict reads k))
                   = map edge_of_kmer (build_kmer_dict reads k)).
  { unfold build_graph.
    apply (build_graph_edges_from (build_kmer_dict reads k) Nx.empty []);
      [reflexivity | exact H1 | exact Hlen]. }
  split; [exact Hedges|]. split.
  - intros kmer. unfold get_edge_data. rewrite Hedges, (find_edge_of_kmer _ _ Hlen).
    specialize (H3 kmer). rewrite dict_get_find in H3. simpl in H3.
    destruct (find (fun kv => String.eqb (fst kv) kmer) (build_kmer_dict reads k))
      as [kv|] eqn:Hfind; simpl.
    + apply find_some in Hfind. destruct Hfind as [Hin _].
      specialize (H2 kv Hin). unfold e_weight, edge_of_kmer. simpl.
      destruct (Nat.eqb_spec (count_occ string_dec (all_kmers reads k) kmer) 0);
        [lia | now rewrite <- H3].
    + destruct (Nat.eqb_spec (count_occ string_dec (all_kmers reads k) kmer) 0);
        [reflexivity | lia].
  - unfold total_weight. rewrite Hedges, map_map.
    unfold total_count in H4. simpl in H4. rewrite <- H4.
    f_equal.
Qed.

Lemma add_edge_nodes (g : DiGraph) (u v : node) (x : Z) :
  g_nodes (add_edge g u v x) = g_nodes (add_node (add_node g u) v).
Proof. unfold add_edge. now destruct (has_edge _ u v). Qed.

Lemma add_edge_has_edge (g : DiGraph) (u v : node) (x : Z) :
  has_edge (add_edge g u v x) u v = true.
Proof.
  unfold add_edge. destruct (has_edge (add_node (add_node g u) v) u v) eqn:Hh;
    unfold has_edge in *; simpl.
  - apply existsb_exists in Hh. destruct Hh as [e [Hin Hi]].
    apply existsb_exists. exists (u, v, x). split.
    + apply in_map_iff. exists e. now rewrite Hi.
    + apply is_edge_iff. now split.
  - rewrite existsb_app. simpl. unfold is_edge at 2. simpl.
    now rewrite !String.eqb_refl, orb_true_r.
Qed.

(** An edge that is there stays, with its ends, when another one is added. *)
Lemma add_edge_keeps (g : DiGraph) (u v : node) (x : Z) (e : node * node * Z) :
  In e (g_edges g) ->
  exists e', In e' (g_edges (add_edge g u v x)) /\
             e_src e' = e_src e /\ e_dst e' = e_dst e.
Proof.
  intros Hin. unfold add_edge.
  assert (He : g_edges (add_node (add_node g u) v) = g_edges g)
    by now rewrite !add_node_edges.
  destruct (has_edge (add_node (add_node g u) v) u v); simpl; rewrite He.
  - destruct (is_edge u v e) eqn:Hi.
    + exists (u, v, x). split.
      * apply in_map_iff. exists e. now rewrite Hi.
      * apply is_edge_iff in Hi. destruct Hi as [-> ->]. now split.
    + exists e. split; [|now split]. apply in_map_iff. exists e. now rewrite Hi.
  - exists e. split; [|now split]. apply in_or_app. now left.
Qed.

Lemma has_edge_ends (g : DiGraph) (u v : node) :
  has_edge g u v = true <->
  exists e, In e (g_edges g) /\ e_src e = u /\ e_dst e = v.
Proof.
  unfold has_edge. rewrite existsb_exists. split; intros [e [Hin H]]; exists e;
    (split; [exact Hin|]); now apply is_edge_iff.
Qed.

Lemma add_edge_keeps_has_edge (g : DiGraph) (u v a b : node) (x : Z) :
  has_edge g a b = true -> has_edge (add_edge g u v x) a b = true.
Proof.
  intros H. apply has_edge_ends in H. destruct H as [e [Hin [Hs Hd]]].
  destruct (add_edge_keeps g u v x e Hin) as [e' [Hin' [Hs' Hd']]].
  apply has_edge_ends. exists e'. split; [exact Hin' | split; congruence].
Qed.

Lemma add_edge_no_isolated (g : DiGraph) (u v : node) (x : Z) :
  (forall n, In n (g_nodes g) -> degree g n <> 0) ->
  forall n, In n (g_nodes (add_edge g u v x)) -> degree (add_edge g u v x) n <> 0.
Proof.
  intros Hg n Hn. apply degree_nonzero_iff.
  rewrite add_edge_nodes in Hn. apply add_node_nodes in Hn.
  assert (Huv : exists e, In e (g_edges (add_edge g u v x)) /\
                          e_src e = u /\ e_dst e = v).
  { apply has_edge_ends, add_edge_has_edge. }
  destruct Huv as [e0 [Hin0 [Hs0 Hd0]]].
  destruct Hn as [Hn| ->].
  - apply add_node_nodes in Hn. destruct Hn as [Hn| ->].
    + specialize (Hg n Hn). apply degree_nonzero_iff in Hg.
      destruct Hg as [e [Hin Ht]].
      destruct (add_edge_keeps g u v x e Hin) as [e' [Hin' [Hs' Hd']]].
      exists e'. split; [exact Hin'|]. unfold touches in *. now rewrite Hs', Hd'.
    + exists e0. split; [exact Hin0|]. rewrite <- Hs0. apply touches_src.
  - exists e0. split; [exact Hin0|]. rewrite <- Hd0. apply touches_dst.
Qed.

Lemma build_graph_no_isolated (kmer_dict : list (string * Z)) :
  forall n, In n (g_nodes (build_graph kmer_dict)) ->
            degree (build_graph kmer_dict) n <> 0.
Proof.
  unfold build_graph.
  assert (Hgen : forall g,
             (forall n, In n (g_nodes g) -> degree g n <> 0) ->
             forall n,
               In n (g_nodes (fold_left (fun G kv => add_edge G (py_drop_last (fst kv))
                                                    (py_drop_first (fst kv)) (snd kv))
                                        kmer_dict g)) ->
               degree (fold_left (fun G kv => add_edge G (py_drop_last (fst kv))
                                                (py_drop_first (fst kv)) (snd kv))
                                 kmer_dict g) n <> 0).
  { induction kmer_dict as [|kv d IH]; intros g Hg; simpl; [exact Hg|].
    apply IH. now apply add_edge_no_isolated. }
  apply Hgen. intros n [].
Qed.

Lemma build_graph_has_edge (kmer_dict : list (string * Z)) (kv : string * Z) :
  In kv kmer_dict ->
  has_edge (build_graph kmer_dict) (py_drop_last (fst kv)) (py_drop_first (fst kv)) = true.
Proof.
  unfold build_graph. generalize Nx.empty as g.
  induction kmer_dict as [|kv' d IH]; intros g Hin; [contradiction|]. simpl.
  destruct Hin as [->|Hin]; [|now apply IH].
  clear IH. generalize (add_edge_has_edge g (py_drop_last (fst kv))
                          (py_drop_first (fst kv)) (snd kv)).
  generalize (add_edge g (py_drop_last (fst kv)) (py_drop_first (fst kv)) (snd kv)) as g1.
  induction d as [|kv2 d IH]; intros g1 H; simpl; [exact H|].
  apply IH. now apply add_edge_keeps_has_edge.
Qed.

(** X4: whatever the reads and k, the graph that [build_graph] makes of their
    k-mers has no node twice, every edge between nodes of the graph, every
    node of length k - 1 (0 when k = 0), and no isolated node: each node is
    an end of some edge. *)
Theorem build_graph_nodes :
  forall (reads : list string) (kmer_size : nat),
    let g := build_graph (build_kmer_dict reads kmer_size) in
    NoDup (g_nodes g) /\
    (forall e, In e (g_edges g) -> In (e_src e) (g_nodes g) /\ In (e_dst e) (g_nodes g)) /\
    (forall n, In n (g_nodes g) -> String.length n = kmer_size - 1) /\
    (forall n, In n (g_nodes g) -> degree g n <> 0).
Proof.
  intros reads k. cbn zeta.
  destruct (build_graph_wf (build_kmer_dict reads k)) as [Hn [_ Hends]].
  split; [exact Hn|]. split; [exact Hends|]. split.
  - apply (build_graph_uniform (build_kmer_dict reads k) k).
    apply build_kmer_dict_keys.
  - apply build_graph_no_isolated.
Qed.

(** ** A read is a walk of the graph *)

Lemma substring_prefix (s : string) :
  forall i k m, m <= k -> substring 0 m (substring i k s) = substring i m s.
Proof.
  induction s as [|c s IH]; intros i k m Hm.
  - destruct i, k, m; reflexivity.
  - destruct i as [|i].
    + destruct k as [|k]; [assert (m = 0) by lia; subst; reflexivity|].
      destruct m as [|m]; [reflexivity|]. simpl. f_equal. apply (IH 0). lia.
    + simpl. now apply IH.
Qed.

Lemma substring_shift (s : string) :
  forall i m, substring 1 m (substring i (S m) s) = substring (S i) m s.
Proof.
  induction s as [|c s IH]; intros i m.
  - destruct i, m; reflexivity.
  - destruct i as [|i].
    + simpl. apply (substring_prefix s 0 m m). lia.
    + change (substring (S i) (S m) (String c s)) with (substring i (S m) s).
      change (substring (S (S i)) m (String c s)) with (substring (S i) m s).
      apply IH.
Qed.

Lemma window_prefix (read : string) (i k : nat) :
  i + k <= String.length read ->
  py_drop_last (substring i k read) = substring i (k - 1) read.
Proof.
  intros H. unfold py_drop_last. rewrite (length_substring read i k H).
  apply substring_prefix. lia.
Qed.

Lemma window_suffix (read : string) (i k : nat) :
  i + k <= String.length read ->
  py_drop_first (substring i k read) = substring (S i) (k - 1) read.
Proof.
  intros H. unfold py_drop_first. rewrite (length_substring read i k H).
  destruct k as [|k].
  - rewrite !substring_zero_length. reflexivity.
  - simpl. rewrite Nat.sub_0_r. apply substring_shift.
Qed.

Lemma kmer_in_dict (reads : list string) (kmer_size : nat) (kmer : string) :
  In kmer (all_kmers reads kmer_size) ->
  exists c, In (kmer, c) (build_kmer_dict reads kmer_size).
Proof.
  intros Hin. rewrite build_kmer_dict_fold.
  destruct (fold_count_kmer_facts (all_kmers reads kmer_size) [])
    as [_ [H2 [H3 _]]]; [constructor | intros kv [] |].
  cbn zeta in *.
  assert (Hkey : In kmer (map fst (fold_left count_kmer (all_kmers reads kmer_size) []))).
  { apply (dict_get_key _ kmer H2). rewrite H3. simpl.
    apply (count_occ_In string_dec) in Hin. lia. }
  apply in_map_iff in Hkey. destruct Hkey as [[k c] [Hk Hin']]. simpl in Hk. subst k.
  now exists c.
Qed.

Lemma is_walk_windows (g : DiGraph) (read : string) (L : nat) :
  forall n i,
    (forall j, i <= j -> S j < i + n ->
               has_edge g (substring j L read) (substring (S j) L read) = true) ->
    is_walk g (map (fun j => substring j L read) (seq i n)).
Proof.
  induction n as [|n IH]; intros i H; [exact I|].
  destruct n as [|n]; [exact I|].
  change (is_walk g (substring i L read :: substring (S i) L read
                       :: map (fun j => substring j L read) (seq (S (S i)) n))).
  apply is_walk_cons. split; [apply H; lia|].
  apply (IH (S i)). intros j Hj1 Hj2. apply H; lia.
Qed.

Lemma substring_grow (s : string) :
  forall n, n < String.length s ->
            (substring 0 n s ++ substring n 1 s)%string = substring 0 (S n) s.
Proof.
  induction s as [|c s IH]; intros n Hn; simpl in Hn; [lia|].
  destruct n as [|n].
  - simpl. now rewrite substring_zero_length.
  - change (substring (S n) 1 (String c s)) with (substring n 1 s).
    simpl. f_equal. apply IH. lia.
Qed.

Lemma final_character_window (read : string) (j L : nat) :
  1 <= L -> j + L <= String.length read ->
  final_character (substring j L read) = substring (j + L - 1) 1 read.
Proof.
  intros HL Hj. unfold final_character. rewrite (length_substring read j L Hj).
  destruct L as [|L]; [lia|]. replace (S L - 1) with L by lia.
  replace (j + S L - 1) with (j + L) by lia.
  clear HL. revert j L Hj. induction read as [|c s IH]; intros j L Hj; simpl in Hj.
  - assert (j = 0) by lia. lia.
  - destruct j as [|j].
    + simpl. destruct L as [|L].
      * now rewrite !substring_zero_length.
      * change (substring (S L) 1 (String c (substring 0 (S L) s)))
          with (substring L 1 (substring 0 (S L) s)).
        change (substring (S L) 1 (String c s)) with (substring L 1 s).
        apply (IH 0). simpl. lia.
    + change (substring (S j) (S L) (String c s)) with (substring j (S L) s).
      change (substring (S j + L) 1 (String c s)) with (substring (j + L) 1 s).
      apply IH. lia.
Qed.

Lemma spell_windows (read : string) (L : nat) :
  1 <= L ->
  forall n i,
    i + n + L <= S (String.length read) -> 1 <= i ->
    fold_left (fun acc j => (acc ++ final_character j)%string)
              (map (fun j => substring j L read) (seq i n))
              (substring 0 (i + L - 1) read)
    = substring 0 (i + n + L - 1) read.
Proof.
  intros HL. induction n as [|n IH]; intros i Hi H1; simpl.
  - now rewrite Nat.add_0_r.
  - rewrite final_character_window by lia.
    rewrite substring_grow by lia.
    replace (S (i + L - 1)) with (S i + L - 1) by lia.
    rewrite (IH (S i)) by lia. f_equal. lia.
Qed.

Lemma read_walk (reads : list string) (kmer_size : nat) (read : string) :
  In read reads ->
  is_walk (build_graph (build_kmer_dict reads kmer_size)) (cut_kmer read (kmer_size - 1)).
Proof.
  intros Hread. unfold cut_kmer. apply is_walk_windows. intros j _ Hj.
  assert (Hwin : In (substring j kmer_size read) (all_kmers reads kmer_size)).
  { unfold all_kmers. apply in_flat_map. exists read. split; [exact Hread|].
    unfold cut_kmer. apply in_map_iff. exists j. split; [reflexivity|].
    apply in_seq. lia. }
  destruct (kmer_in_dict reads kmer_size _ Hwin) as [c Hc].
  pose proof (build_graph_has_edge _ _ Hc) as He. simpl in He.
  rewrite window_prefix, window_suffix in He by lia. exact He.
Qed.

Lemma contig_of_windows (read : string) (L : nat) :
  1 <= L -> L <= String.length read -> contig_of_path (cut_kmer read L) = inr read.
Proof.
  intros H1 H2. unfold cut_kmer.
  destruct (String.length read + 1 - L) as [|n] eqn:Hn; [lia|].
  cbn [seq map contig_of_path]. f_equal.
  rewrite (fold_slices_in_words (substring 0 L read)).
  + pose proof (spell_windows read L H1 n 1) as Hs.
    replace (1 + L - 1) with L in Hs by lia.
    replace (1 + n + L - 1) with (String.length read) in Hs by lia.
    rewrite Hs by lia. apply substring_all.
  + intros j Hj. apply in_map_iff in Hj. destruct Hj as [i [<- Hi]].
    apply in_seq in Hi. rewrite !length_substring by lia. reflexivity.
Qed.

(** X5: every read is spelled by the graph built from the reads: the windows
    of length k - 1 of a read, in order, form a walk of the graph, and when
    the read has at least k - 1 >= 1 characters the contig that [get_contigs]
    would write for this walk is the read itself. *)
Theorem read_is_a_walk_of_the_graph :
  forall (reads : list string) (kmer_size : nat) (read : string),
    In read reads ->
    let g := build_graph (build_kmer_dict reads kmer_size) in
    let walk := cut_kmer read (kmer_size - 1) in
    is_walk g walk /\
    (1 <= kmer_size - 1 -> kmer_size - 1 <= String.length read ->
     contig_of_path walk = inr read).
Proof.
  intros reads k read Hread. cbn zeta. split.
  - now apply read_walk.
  - intros H1 H2. now apply contig_of_windows.
Qed.

(** ** main on reads without a k-mer *)

Lemma all_kmers_short (reads : list string) (kmer_size : nat) :
  (forall read, In read reads -> String.length read < kmer_size) ->
  all_kmers reads kmer_size = [].
Proof.
  intros H. unfold all_kmers. induction reads as [|r reads IH]; [reflexivity|].
  simpl. rewrite IH by (intros x Hx; apply H; now right).
  unfold cut_kmer. replace (String.length r + 1 - kmer_size) with 0; [reflexivity|].
  specialize (H r (or_introl eq_refl)). lia.
Qed.

(** X6: when every read is shorter than k (in particular when there is no
    read at all) the pipeline of [main] builds the empty graph, raises
    nothing, and returns no contig. *)
Theorem main_on_short_reads :
  forall (gen : Z -> nat -> nat) (depth : nat) (reads : list string) (kmer_size : nat)
         (w : World),
    (forall read, In read reads -> String.length read < kmer_size) ->
    main gen (S depth) reads kmer_size w = Ok [] (mkWorld Nx.empty (gen 9001%Z)).
Proof.
  intros gen depth reads k w H. unfold main.
  rewrite build_kmer_dict_fold, (all_kmers_short reads k H). reflexivity.
Qed.

(** ** What simplify_bubbles returns *)

Lemma simplify_bubbles_result_wf (depth : nat) :
  forall w w' r,
    wf (graph w) -> simplify_bubbles depth w = Ok r w' ->
    wf (graph w') /\ no_bubble (graph w').
Proof.
  induction depth as [|d IH]; intros w w' r Hwf H; [discriminate|].
  cbn [simplify_bubbles] in H. unfold bind at 1, get_graph in H.
  unfold bind at 1 in H. rewrite lift_world in H.
  destruct (scan_bubbles (graph w)) as [e|s] eqn:Hscan; [discriminate|].
  cbn [lift ret] in H. destruct (bubble s) eqn:Hb.
  - apply bind_Ok in H. destruct H as [[] [w1 [Hsolve Hrec]]].
    destruct (solve_bubble_reduces w w1 s tt Hwf Hscan Hsolve) as [Hwf1 _].
    exact (IH w1 w' r Hwf1 Hrec).
  - injection H as _ <-. split; [exact Hwf|].
    unfold scan_bubbles in Hscan.
    now destruct (scan_nodes_none _ _ _ _ Hscan Hb).
Qed.

(** X7: what [simplify_bubbles] returns.  When a call on a well-formed graph
    returns, the graph it returns is made of nodes and edges of the input
    graph, with their weights; in it no node with more than one predecessor
    has two predecessors with a common ancestor; and a further call of
    [simplify_bubbles] on it returns it unchanged, without drawing from the
    generator. *)
Theorem simplify_bubbles_result :
  forall (depth : nat) (w w' : World),
    wf (graph w) ->
    simplify_bubbles depth w = Ok tt w' ->
    subgraph_of (graph w') (graph w) /\
    wf (graph w') /\
    no_bubble (graph w') /\
    forall depth', simplify_bubbles (S depth') w' = Ok tt w'.
Proof.
  intros depth w w' Hwf H.
  destruct (simplify_bubbles_result_wf depth w w' tt Hwf H) as [Hwf' Hno].
  split; [exact (simplify_bubbles_subgraph depth w w' tt H)|].
  split; [exact Hwf'|]. split; [exact Hno|].
  intros depth'.
  destruct (scan_nodes_quiet (graph w') (g_nodes (graph w')) Hno
              (mkScan false None None)) as [s [Hs Hb]].
  cbn [simplify_bubbles]. unfold bind, get_graph. rewrite lift_world.
  unfold scan_bubbles. rewrite Hs. cbn [ret]. now rewrite Hb.
Qed.

(** ** simplify_bubbles on a graph with a cycle *)

Lemma scan_nodes_cyclic (g : DiGraph) :
  is_directed_acyclic_graph g = false ->
  forall ns s,
    (exists nd, In nd ns /\ 1 < length (predecessors g nd)) ->
    scan_nodes g ns s = inl NetworkXError.
Proof.
  intros Hdag. induction ns as [|nd ns IH]; intros s [x [Hx Hlen]]; [destruct Hx|].
  cbn [scan_nodes]. destruct (1 <? length (predecessors g nd)) eqn:Hnd.
  - destruct (predecessors g nd) as [|p0 [|p1 ps]]; simpl in Hnd; try discriminate.
    cbn [scan_pairs_i scan_pairs_j]. unfold lowest_common_ancestor.
    rewrite Hdag. reflexivity.
  - apply IH. exists x. split; [|exact Hlen].
    destruct Hx as [-> | Hx]; [|exact Hx].
    apply Nat.ltb_ge in Hnd. lia.
Qed.

Lemma scan_nodes_no_merge (g : DiGraph) :
  forall ns s,
    (forall nd, In nd ns -> length (predecessors g nd) <= 1) ->
    scan_nodes g ns s = inr s.
Proof.
  induction ns as [|nd ns IH]; intros s H; [reflexivity|].
  cbn [scan_nodes].
  replace (1 <? length (predecessors g nd)) with false.
  - apply IH. intros x Hx. apply H. now right.
  - symmetry. apply Nat.ltb_ge. apply H. now left.
Qed.

(** X8: [simplify_bubbles] on a graph with a cycle.  If some node has more
    than one predecessor, the first common-ancestor query raises
    [NetworkXError] and the call ends with it, the graph and the generator
    untouched; if no node has more than one predecessor, no query is made and
    the graph is returned as it is, cycle included. *)
Theorem simplify_bubbles_on_a_cycle :
  forall (depth : nat) (w : World),
    wf (graph w) ->
    ~ acyclic (graph w) ->
    ((exists nd, In nd (g_nodes (graph w)) /\ 1 < length (predecessors (graph w) nd)) ->
     simplify_bubbles (S depth) w = Raise NetworkXError w) /\
    ((forall nd, In nd (g_nodes (graph w)) -> length (predecessors (graph w) nd) <= 1) ->
     simplify_bubbles (S depth) w = Ok tt w).
Proof.
  intros depth w Hwf Hcyc.
  assert (Hdag : is_directed_acyclic_graph (graph w) = false).
  { destruct (is_directed_acyclic_graph (graph w)) eqn:E; [|reflexivity].
    exfalso. apply Hcyc. now apply is_directed_acyclic_graph_sound. }
  split; intros H; cbn [simplify_bubbles]; unfold bind, get_graph;
    rewrite lift_world; unfold scan_bubbles.
  - now rewrite (scan_nodes_cyclic _ Hdag _ _ H).
  - now rewrite (scan_nodes_no_merge _ _ _ H).
Qed.

(** ** What the tip solvers return *)

Lemma select_best_path_wf (ps : list path) (ls ws : list Q) (de ds : bool)
    (w w' : World) (r : unit) :
  wf (graph w) -> select_best_path ps ls ws de ds w = Ok r w' -> wf (graph w').
Proof.
  intros Hwf H. destruct (Nat.eq_dec (length ps) 1) as [E|E].
  - unfold select_best_path in H. rewrite E in H. cbn in H.
    injection H as _ <-. exact Hwf.
  - destruct (select_best_path_Ok ps ls ws de ds w w' r E H) as [i [w1 [_ [Hg Hrm]]]].
    apply remove_paths_Ok in Hrm. destruct Hrm as [Hg' _].
    rewrite Hg', Hg. now apply without_paths_wf.
Qed.

Lemma solve_entry_tips_wf (depth : nat) (starting_nodes : list node) :
  forall w w' r,
    wf (graph w) -> solve_entry_tips depth starting_nodes w = Ok r w' -> wf (graph w').
Proof.
  induction depth as [|d IH]; intros w w' r Hwf H; [discriminate|].
  cbn [solve_entry_tips] in H.
  apply bind_Ok in H. destruct H as [g [w1 [H1 H]]].
  unfold get_graph in H1. injection H1 as <- <-.
  destruct (find _ (g_nodes (graph w))) as [nd|] eqn:Hfind.
  - apply bind_Ok in H. destruct H as [paths [w2 [Hp H]]].
    apply mapM_lift_Ok in Hp. destruct Hp as [-> _].
    apply bind_Ok in H. destruct H as [ws [w3 [Hws H]]].
    apply mapM_lift_Ok in Hws. destruct Hws as [-> _].
    apply bind_Ok in H. destruct H as [r1 [w4 [Hsel H]]].
    apply (IH _ _ _ (select_best_path_wf _ _ _ _ _ _ _ _ Hwf Hsel) H).
  - unfold ret in H. injection H as _ <-. exact Hwf.
Qed.

Lemma solve_out_tips_wf (depth : nat) (ending_nodes : list node) :
  forall w w' r,
    wf (graph w) -> solve_out_tips depth ending_nodes w = Ok r w' -> wf (graph w').
Proof.
  induction depth as [|d IH]; intros w w' r Hwf H; [discriminate|].
  cbn [solve_out_tips] in H.
  apply bind_Ok in H. destruct H as [g [w1 [H1 H]]].
  unfold get_graph in H1. injection H1 as <- <-.
  destruct (find _ (g_nodes (graph w))) as [nd|] eqn:Hfind.
  - apply bind_Ok in H. destruct H as [paths [w2 [Hp H]]].
    apply mapM_lift_Ok in Hp. destruct Hp as [-> _].
    apply bind_Ok in H. destruct H as [ws [w3 [Hws H]]].
    apply mapM_lift_Ok in Hws. destruct Hws as [-> _].
    apply bind_Ok in H. destruct H as [r1 [w4 [Hsel H]]].
    apply (IH _ _ _ (select_best_path_wf _ _ _ _ _ _ _ _ Hwf Hsel) H).
  - unfold ret in H. injection H as _ <-. exact Hwf.
Qed.

Lemma first_merge_None (g : DiGraph) :
  first_merge g = None <->
  forall nd, In nd (g_nodes g) -> length (predecessors g nd) <= 1.
Proof.
  unfold first_merge. split.
  - intros H nd Hnd. pose proof (find_none _ _ H nd Hnd) as Hle.
    unfold more_than_one in Hle. now apply Nat.ltb_ge in Hle.
  - intros H. destruct (find _ (g_nodes g)) as [nd|] eqn:E; [|reflexivity].
    apply find_some in E. destruct E as [Hin Hm]. unfold more_than_one in Hm.
    apply Nat.ltb_lt in Hm. specialize (H nd Hin). lia.
Qed.

Lemma first_fork_None (g : DiGraph) :
  first_fork g = None <->
  forall nd, In nd (g_nodes g) -> length (successors g nd) <= 1.
Proof.
  unfold first_fork. split.
  - intros H nd Hnd. pose proof (find_none _ _ H nd Hnd) as Hle.
    unfold more_than_one in Hle. now apply Nat.ltb_ge in Hle.
  - intros H. destruct (find _ (g_nodes g)) as [nd|] eqn:E; [|reflexivity].
    apply find_some in E. destruct E as [Hin Hm]. unfold more_than_one in Hm.
    apply Nat.ltb_lt in Hm. specialize (H nd Hin). lia.
Qed.

(** X9: what [solve_entry_tips] does when it returns.  On a graph where no
    node has more than one predecessor it returns the graph as it is, whatever
    the starting nodes.  Whenever it returns, from a well-formed graph, the
    graph returned is well formed, is made of nodes and edges of the input
    graph with their weights, and has no node with more than one predecessor
    left. *)
Theorem solve_entry_tips_result :
  forall (starting_nodes : list node) (w : World),
    ((forall nd, In nd (g_nodes (graph w)) -> length (predecessors (graph w) nd) <= 1) ->
     forall depth, solve_entry_tips (S depth) starting_nodes w = Ok tt w) /\
    (forall depth w',
        wf (graph w) ->
        solve_entry_tips depth starting_nodes w = Ok tt w' ->
        wf (graph w') /\
        subgraph_of (graph w') (graph w) /\
        forall nd, In nd (g_nodes (graph w')) ->
                   length (predecessors (graph w') nd) <= 1).
Proof.
  intros starts w. split.
  - intros H depth. apply first_merge_None in H. unfold first_merge in H.
    cbn [solve_entry_tips]. unfold bind, get_graph. now rewrite H.
  - intros depth w' Hwf H. split; [|split].
    + exact (solve_entry_tips_wf depth starts w w' tt Hwf H).
    + exact (solve_entry_tips_subgraph depth starts w w' tt H).
    + exact (solve_entry_tips_Ok depth starts w w' tt H).
Qed.

(** X10: what [solve_out_tips] does when it returns.  On a graph where no
    node has more than one successor it returns the graph as it is, whatever
    the ending nodes.  Whenever it returns, from a well-formed graph, the
    graph returned is well formed, is made of nodes and edges of the input
    graph with their weights, and has no node with more than one successor
    left. *)
Theorem solve_out_tips_result :
  forall (ending_nodes : list node) (w : World),
    ((forall nd, In nd (g_nodes (graph w)) -> length (successors (graph w) nd) <= 1) ->
     forall depth, solve_out_tips (S depth) ending_nodes w = Ok tt w) /\
    (forall depth w',
        wf (graph w) ->
        solve_out_tips depth ending_nodes w = Ok tt w' ->
        wf (graph w') /\
        subgraph_of (graph w') (graph w) /\
        forall nd, In nd (g_nodes (graph w')) ->
                   length (successors (graph w') nd) <= 1).
Proof.
  intros ends w. split.
  - intros H depth. apply first_fork_None in H. unfold first_fork in H.
    cbn [solve_out_tips]. unfold bind, get_graph. now rewrite H.
  - intros depth w' Hwf H. split; [|split].
    + exact (solve_out_tips_wf depth ends w w' tt Hwf H).
    + exact (solve_out_tips_subgraph depth ends w w' tt H).
    + exact (solve_out_tips_Ok depth ends w w' tt H).
Qed.

(** ** The tip solvers without two candidate paths *)

Lemma bind_of_Ok {A B : Type} (m : M A) (k : A -> M B) (w w1 : World) (a : A) :
  m w = Ok a w1 -> bind m k w = k a w1.
Proof. intros H. unfold bind. now rewrite H. Qed.

Lemma bind_of_Raise {A B : Type} (m : M A) (k : A -> M B) (w w1 : World) (e : exn) :
  m w = Raise e w1 -> bind m k w = Raise e w1.
Proof. intros H. unfold bind. now rewrite H. Qed.

Lemma mapM_lift_inr {A B : Type} (f : A -> exn + B) (d : B) (l : list A) (w : World) :
  (forall x, In x l -> exists y, f x = inr y) ->
  mapM (fun x => lift (f x)) l w
  = Ok (map (fun x => match f x with inr y => y | inl _ => d end) l) w.
Proof.
  induction l as [|x l IH]; intros H; [reflexivity|].
  cbn [mapM map]. destruct (H x (or_introl eq_refl)) as [y Hy].
  unfold bind at 1. rewrite lift_world, Hy.
  unfold bind at 1. rewrite IH by (intros z Hz; apply H; now right).
  reflexivity.
Qed.

Lemma mapM_lift_raises {A B : Type} (f : A -> exn + B) (e : exn) (l : list A)
    (w : World) :
  (exists x, In x l /\ f x = inl e) ->
  (forall x e', In x l -> f x = inl e' -> e' = e) ->
  mapM (fun x => lift (f x)) l w = Raise e w.
Proof.
  induction l as [|x l IH]; intros [z [Hz Hfz]] Hall; [destruct Hz|].
  cbn [mapM]. unfold bind at 1. rewrite lift_world.
  destruct (f x) as [e'|y] eqn:Hx.
  - now rewrite (Hall x e' (or_introl eq_refl) Hx).
  - unfold bind at 1. rewrite IH; [reflexivity | | ].
    + destruct Hz as [-> | Hz]; [congruence|]. now exists z.
    + intros x' e' Hx' Hf. apply (Hall x' e'); [now right | exact Hf].
Qed.

Lemma all_simple_paths_inl (g : DiGraph) (s t : node) (e : exn) :
  all_simple_paths g s t = inl e -> e = NodeNotFound /\ has_node g s = false.
Proof.
  unfold all_simple_paths. destruct (has_node g s); simpl.
  - destruct (mem s (targets_of g t)); discriminate.
  - intros H. injection H as <-. now split.
Qed.

Lemma first_paths_of_entry (g : DiGraph) (starting_nodes : list node) (nd : node) :
  first_paths (map (fun s => match all_simple_paths g s nd with
                             | inr ps => ps
                             | inl _ => []
                             end) starting_nodes)
  = entry_candidates g starting_nodes nd.
Proof.
  unfold first_paths, entry_candidates.
  induction starting_nodes as [|s l IH]; [reflexivity|].
  cbn [map flat_map]. rewrite IH. f_equal.
  destruct (all_simple_paths g s nd) as [e|[|p ps]]; reflexivity.
Qed.

Lemma first_paths_of_out (g : DiGraph) (nd : node) (ending_nodes : list node) :
  first_paths (map (fun t => match all_simple_paths g nd t with
                             | inr ps => ps
                             | inl _ => []
                             end) ending_nodes)
  = out_candidates g nd ending_nodes.
Proof.
  unfold first_paths, out_candidates.
  induction ending_nodes as [|s l IH]; [reflexivity|].
  cbn [map flat_map]. rewrite IH. f_equal.
  destruct (all_simple_paths g nd s) as [e|[|p ps]]; reflexivity.
Qed.

Lemma entry_candidates_In (g : DiGraph) (starting_nodes : list node) (nd : node)
    (p : path) :
  In p (entry_candidates g starting_nodes nd) ->
  exists s ps, In s starting_nodes /\ all_simple_paths g s nd = inr ps /\ In p ps.
Proof.
  unfold entry_candidates. intros H. apply in_flat_map in H.
  destruct H as [s [Hs Hp]].
  destruct (all_simple_paths g s nd) as [e|[|q ps]] eqn:E; try (now destruct Hp).
  destruct Hp as [Hp|[]]. subst q.
  exists s, (p :: ps). split; [exact Hs|]. split; [exact E | now left].
Qed.

Lemma out_candidates_In (g : DiGraph) (nd : node) (ending_nodes : list node)
    (p : path) :
  In p (out_candidates g nd ending_nodes) ->
  exists t ps, In t ending_nodes /\ all_simple_paths g nd t = inr ps /\ In p ps.
Proof.
  unfold out_candidates. intros H. apply in_flat_map in H.
  destruct H as [s [Hs Hp]].
  destruct (all_simple_paths g nd s) as [e|[|q ps]] eqn:E; try (now destruct Hp).
  destruct Hp as [Hp|[]]. subst q.
  exists s, (p :: ps). split; [exact Hs|]. split; [exact E | now left].
Qed.

(** The weight the tip solvers compute is defined on every walk of two nodes
    or more. *)
Lemma tip_weight_defined (g : DiGraph) (u v : node) (rest : list node) :
  is_walk g (u :: v :: rest) -> exists q, tip_weight g (u :: v :: rest) = inr q.
Proof.
  intros [He _]. unfold tip_weight.
  destruct (1 <? Z.of_nat (length (u :: v :: rest)) - 1)%Z eqn:Hlen.
  - unfold path_average_weight, Statistics.mean.
    apply has_edge_iff in He. destruct He as [c Hc].
    assert (Hin : In (u, v, c) (subgraph_edges g (u :: v :: rest))).
    { unfold subgraph_edges. apply filter_In. split; [exact Hc|].
      unfold e_src, e_dst. simpl. unfold mem. simpl.
      rewrite !String.eqb_refl. simpl. now rewrite orb_true_r. }
    destruct (subgraph_edges g (u :: v :: rest)) as [|e es]; [destruct Hin|].
    simpl. eauto.
  - destruct rest as [|x rest].
    + unfold get_edge_data. apply has_edge_iff in He. destruct He as [c Hc].
      destruct (find (is_edge u v) (g_edges g)) as [e|] eqn:Hf; simpl; [eauto|].
      exfalso. pose proof (find_none _ _ Hf _ Hc) as Hn.
      unfold is_edge, e_src, e_dst in Hn. simpl in Hn.
      now rewrite !String.eqb_refl in Hn.
    + exfalso. apply Z.ltb_ge in Hlen. simpl length in Hlen. lia.
Qed.

Lemma tip_weight_of_yield (g : DiGraph) (s t : node) (ps : list path) (p : path) :
  all_simple_paths g s t = inr ps -> In p ps -> exists q, tip_weight g p = inr q.
Proof.
  intros H Hp. destruct (all_simple_paths_sound g s t ps p H Hp)
    as [rest [-> [Hne [Hw _]]]].
  destruct rest as [|v rest]; [congruence|]. now apply tip_weight_defined.
Qed.

Lemma select_best_path_single (p : path) (ls ws : list Q) (de ds : bool) (w : World) :
  select_best_path [p] ls ws de ds w = Ok tt w.
Proof. reflexivity. Qed.

Lemma select_best_path_none (de ds : bool) (w : World) :
  select_best_path [] [] [] de ds w = Raise StatisticsError w.
Proof. reflexivity. Qed.

Lemma mapM_lift_single {A B : Type} (f : A -> exn + B) (x : A) (y : B) (w : World) :
  f x = inr y -> mapM (fun x => lift (f x)) [x] w = Ok [y] w.
Proof.
  intros H. cbn [mapM]. unfold bind at 1. rewrite lift_world, H. reflexivity.
Qed.

(** X11: a round of [solve_entry_tips] that does not get two candidate paths.
    Let [nd] be the first node with more than one predecessor.  If a starting
    node is not a node of the graph, the call raises [NodeNotFound].
    Otherwise, if no starting node has a path to [nd], [select_best_path] is
    given empty lists and the call raises [StatisticsError]; and if exactly
    one candidate path is found, [select_best_path] returns the graph as it
    is and the call recurses on the same graph, exhausting any recursion
    depth.  In the two raising cases the graph and the generator are
    untouched. *)
Theorem solve_entry_tips_without_two_candidates :
  forall (starting_nodes : list node) (w : World) (nd : node),
    first_merge (graph w) = Some nd ->
    ((exists s, In s starting_nodes /\ has_node (graph w) s = false) ->
     forall depth, solve_entry_tips (S depth) starting_nodes w = Raise NodeNotFound w) /\
    ((forall s, In s starting_nodes -> has_node (graph w) s = true) ->
     (entry_candidates (graph w) starting_nodes nd = [] ->
      forall depth, solve_entry_tips (S depth) starting_nodes w = Raise StatisticsError w) /\
     (length (entry_candidates (graph w) starting_nodes nd) = 1 ->
      forall depth, solve_entry_tips depth starting_nodes w = Diverge)).
Proof.
  intros starts w nd Hm. unfold first_merge in Hm. split.
  - intros [s [Hs Hnode]] depth. cbn [solve_entry_tips].
    rewrite (bind_of_Ok get_graph _ w w (graph w) eq_refl). rewrite Hm.
    apply bind_of_Raise.
    apply (mapM_lift_raises (fun s => all_simple_paths (graph w) s nd)).
    + exists s. split; [exact Hs|]. unfold all_simple_paths. now rewrite Hnode.
    + intros x e' _ Hf. now apply all_simple_paths_inl in Hf.
  - intros Hall.
    assert (Hpaths :
              mapM (fun s => lift (all_simple_paths (graph w) s nd)) starts w
              = Ok (map (fun s => match all_simple_paths (graph w) s nd with
                                  | inr ps => ps
                                  | inl _ => []
                                  end) starts) w).
    { apply (mapM_lift_inr (fun s => all_simple_paths (graph w) s nd)).
      intros s Hs. apply all_simple_paths_defined. now apply Hall. }
    split.
    + intros Hc depth. cbn [solve_entry_tips].
      rewrite (bind_of_Ok get_graph _ w w (graph w) eq_refl). rewrite Hm.
      rewrite (bind_of_Ok _ _ _ _ _ Hpaths). cbv zeta.
      rewrite first_paths_of_entry, Hc. reflexivity.
    + intros Hc.
      destruct (entry_candidates (graph w) starts nd) as [|p [|p' l]] eqn:Ec;
        try discriminate Hc.
      assert (Hq : exists q, tip_weight (graph w) p = inr q).
      { destruct (entry_candidates_In (graph w) starts nd p) as [s [ps [_ [Hps Hp]]]].
        - rewrite Ec. now left.
        - exact (tip_weight_of_yield _ _ _ _ _ Hps Hp). }
      destruct Hq as [q Hq].
      induction depth as [|d IH]; [reflexivity|].
      cbn [solve_entry_tips].
      rewrite (bind_of_Ok get_graph _ w w (graph w) eq_refl). rewrite Hm.
      rewrite (bind_of_Ok _ _ _ _ _ Hpaths). cbv zeta.
      rewrite first_paths_of_entry, Ec.
      rewrite (bind_of_Ok _ _ _ _ _ (mapM_lift_single (tip_weight (graph w)) p q w Hq)).
      rewrite (bind_of_Ok _ _ _ _ _ (select_best_path_single p _ _ true false w)).
      exact IH.
Qed.

(** X12: a round of [solve_out_tips] that does not get two candidate paths.
    Let [nd] be the first node with more than one successor.  If no ending
    node can be reached from [nd], [select_best_path] is given empty lists
    and the call raises [StatisticsError], the graph and the generator
    untouched; if exactly one candidate path is found, [select_best_path]
    returns the graph as it is and the call recurses on the same graph,
    exhausting any recursion depth. *)
Theorem solve_out_tips_without_two_candidates :
  forall (ending_nodes : list node) (w : World) (nd : node),
    first_fork (graph w) = Some nd ->
    (out_candidates (graph w) nd ending_nodes = [] ->
     forall depth, solve_out_tips (S depth) ending_nodes w = Raise StatisticsError w) /\
    (length (out_candidates (graph w) nd ending_nodes) = 1 ->
     forall depth, solve_out_tips depth ending_nodes w = Diverge).
Proof.
  intros ends w nd Hm. unfold first_fork in Hm.
  assert (Hnd : has_node (graph w) nd = true).
  { apply find_some in Hm. apply mem_In. tauto. }
  assert (Hpaths :
            mapM (fun t => lift (all_simple_paths (graph w) nd t)) ends w
            = Ok (map (fun t => match all_simple_paths (graph w) nd t with
                                | inr ps => ps
                                | inl _ => []
                                end) ends) w).
  { apply (mapM_lift_inr (fun t => all_simple_paths (graph w) nd t)).
    intros t _. now apply all_simple_paths_defined. }
  split.
  - intros Hc depth. cbn [solve_out_tips].
    rewrite (bind_of_Ok get_graph _ w w (graph w) eq_refl). rewrite Hm.
    rewrite (bind_of_Ok _ _ _ _ _ Hpaths). cbv zeta.
    rewrite first_paths_of_out, Hc. reflexivity.
  - intros Hc.
    destruct (out_candidates (graph w) nd ends) as [|p [|p' l]] eqn:Ec;
      try discriminate Hc.
    assert (Hq : exists q, tip_weight (graph w) p = inr q).
    { destruct (out_candidates_In (graph w) nd ends p) as [s [ps [_ [Hps Hp]]]].
      - rewrite Ec. now left.
      - exact (tip_weight_of_yield _ _ _ _ _ Hps Hp). }
    destruct Hq as [q Hq].
    induction depth as [|d IH]; [reflexivity|].
    cbn [solve_out_tips].
    rewrite (bind_of_Ok get_graph _ w w (graph w) eq_refl). rewrite Hm.
    rewrite (bind_of_Ok _ _ _ _ _ Hpaths). cbv zeta.
    rewrite first_paths_of_out, Ec.
    rewrite (bind_of_Ok _ _ _ _ _ (mapM_lift_single (tip_weight (graph w)) p q w Hq)).
    rewrite (bind_of_Ok _ _ _ _ _ (select_best_path_single p _ _ false true w)).
    exact IH.
Qed.

(** ** remove_paths on an edge that is not there *)

Lemma without_edges_nil (g : DiGraph) : without_edges g [] = g.
Proof.
  destruct g as [ns es]. unfold without_edges. simpl. f_equal.
  now apply filter_all.
Qed.

Lemma without_edges_app (g : DiGraph) (l l' : list (node * node)) :
  without_edges (without_edges g l) l' = without_edges g (l ++ l').
Proof.
  unfold without_edges. simpl. f_equal. rewrite filter_andb.
  apply filter_ext. intros e. now rewrite existsb_app, negb_orb.
Qed.

Lemma remove_edge_is (g : DiGraph) (a b : node) :
  has_edge g a b = true -> remove_edge g a b = Some (without_edges g [(a, b)]).
Proof.
  intros H. unfold remove_edge, without_edges. rewrite H. do 2 f_equal.
  apply filter_ext. intros e. simpl. now rewrite orb_false_r.
Qed.

Lemma has_edge_without_edges (g : DiGraph) (l : list (node * node)) (a b : node) :
  has_edge (without_edges g l) a b = true <-> has_edge g a b = true /\ ~ In (a, b) l.
Proof.
  unfold has_edge, without_edges. simpl. rewrite !existsb_exists. split.
  - intros [e [He Hab]]. apply filter_In in He. destruct He as [He Hl].
    split; [now exists e|].
    intros Hin. apply negb_true_iff in Hl.
    assert (Ht : existsb (fun uv => is_edge (fst uv) (snd uv) e) l = true).
    { apply existsb_exists. exists (a, b). now split. }
    congruence.
  - intros [[e [He Hab]] Hnot]. exists e. split; [|exact Hab].
    apply filter_In. split; [exact He|]. apply negb_true_iff.
    destruct (existsb _ l) eqn:Hl; [|reflexivity]. exfalso. apply Hnot.
    apply existsb_exists in Hl. destruct Hl as [[x y] [Hxy Hexy]]. simpl in Hexy.
    apply is_edge_iff in Hab. apply is_edge_iff in Hexy.
    destruct Hab as [<- <-]. destruct Hexy as [-> ->]. exact Hxy.
Qed.

Lemma remove_edge_step (a b : node) (k : M unit) (w : World) :
  has_edge (graph w) a b = true ->
  (g <- get_graph ;;
   g' <- lift (or_raise NetworkXError (remove_edge g a b)) ;;
   put_graph g' ;; k) w
  = k (mkWorld (without_edges (graph w) [(a, b)]) (rng w)).
Proof.
  intros H. rewrite (bind_of_Ok get_graph _ w w (graph w) eq_refl).
  rewrite (remove_edge_is _ _ _ H). reflexivity.
Qed.

Lemma remove_edge_step_fails (a b : node) (k : M unit) (w : World) :
  has_edge (graph w) a b = false ->
  (g <- get_graph ;;
   g' <- lift (or_raise NetworkXError (remove_edge g a b)) ;;
   put_graph g' ;; k) w
  = Raise NetworkXError w.
Proof.
  intros H. rewrite (bind_of_Ok get_graph _ w w (graph w) eq_refl).
  unfold remove_edge. rewrite H. reflexivity.
Qed.

Lemma world_eta (w : World) : mkWorld (graph w) (rng w) = w.
Proof. now destruct w. Qed.

Lemma remove_path_edges_run (p : path) :
  forall w,
    NoDup (path_edges p) ->
    (forall uv, In uv (path_edges p) -> has_edge (graph w) (fst uv) (snd uv) = true) ->
    remove_path_edges p w
    = Ok tt (mkWorld (without_edges (graph w) (path_edges p)) (rng w)).
Proof.
  induction p as [|a tl IH]; intros w Hnd Hin.
  - simpl. unfold ret. now rewrite without_edges_nil, world_eta.
  - destruct tl as [|b tl'].
    + simpl. unfold ret. now rewrite without_edges_nil, world_eta.
    + rewrite remove_path_edges_cons.
      change (path_edges (a :: b :: tl')) with ((a, b) :: path_edges (b :: tl')) in *.
      rewrite remove_edge_step by (apply (Hin (a, b)); now left).
      apply NoDup_cons_iff in Hnd. destruct Hnd as [Hnot Hnd].
      rewrite IH; [| exact Hnd |].
      * cbn [graph rng]. now rewrite without_edges_app.
      * intros [x y] Hxy. cbn [graph fst snd]. apply has_edge_without_edges. split.
        -- apply (Hin (x, y)). now right.
        -- intros [E|[]]. apply Hnot. now rewrite E.
Qed.

Lemma remove_path_edges_fails (p : path) :
  forall w l1 u v l2,
    path_edges p = l1 ++ (u, v) :: l2 ->
    NoDup l1 ->
    (forall uv, In uv l1 -> has_edge (graph w) (fst uv) (snd uv) = true) ->
    In (u, v) l1 \/ has_edge (graph w) u v = false ->
    remove_path_edges p w
    = Raise NetworkXError (mkWorld (without_edges (graph w) l1) (rng w)).
Proof.
  induction p as [|a tl IH]; intros w l1 u v l2 Hp Hnd Hin Huv.
  - destruct l1; discriminate Hp.
  - destruct tl as [|b tl'].
    + destruct l1; discriminate Hp.
    + rewrite remove_path_edges_cons.
      change (path_edges (a :: b :: tl')) with ((a, b) :: path_edges (b :: tl')) in Hp.
      destruct l1 as [|uv l1'].
      * simpl in Hp. injection Hp as -> -> _.
        destruct Huv as [[]|Huv].
        rewrite remove_edge_step_fails by exact Huv.
        now rewrite without_edges_nil, world_eta.
      * simpl in Hp. injection Hp as <- Hp.
        rewrite remove_edge_step by (apply (Hin (a, b)); now left).
        apply NoDup_cons_iff in Hnd. destruct Hnd as [Hnot Hnd].
        rewrite (IH _ l1' u v l2 Hp Hnd).
        -- cbn [graph rng]. now rewrite without_edges_app.
        -- intros [x y] Hxy. cbn [graph fst snd]. apply has_edge_without_edges. split.
           ++ apply (Hin (x, y)). now right.
           ++ intros [E|[]]. apply Hnot. now rewrite E.
        -- cbn [graph]. destruct Huv as [[E|Huv]|Huv].
           ++ right. destruct (has_edge _ u v) eqn:Hh; [|reflexivity].
              apply has_edge_without_edges in Hh. destruct Hh as [_ Hh].
              exfalso. apply Hh. left. exact E.
           ++ now left.
           ++ right. destruct (has_edge (without_edges _ _) u v) eqn:Hh; [|reflexivity].
              apply has_edge_without_edges in Hh. destruct Hh as [Hh _]. congruence.
Qed.

Lemma remove_all_path_edges_fails (ps : list path) :
  forall w l1 u v l2,
    flat_map path_edges ps = l1 ++ (u, v) :: l2 ->
    NoDup l1 ->
    (forall uv, In uv l1 -> has_edge (graph w) (fst uv) (snd uv) = true) ->
    In (u, v) l1 \/ has_edge (graph w) u v = false ->
    remove_all_path_edges ps w
    = Raise NetworkXError (mkWorld (without_edges (graph w) l1) (rng w)).
Proof.
  induction ps as [|p ps IH]; intros w l1 u v l2 Hp Hnd Hin Huv.
  - destruct l1; discriminate Hp.
  - cbn [flat_map] in Hp. cbn [remove_all_path_edges].
    apply app_eq_app in Hp. destruct Hp as [l [[Hp1 Hp2] | [Hp1 Hp2]]].
    + (* the missing edge is an edge of the path, or the first one after it *)
      destruct l as [|x l].
      * rewrite app_nil_r in Hp1. simpl in Hp2. subst l1.
        rewrite (bind_of_Ok _ _ _ _ _ (remove_path_edges_run p w Hnd Hin)).
        rewrite (IH _ [] u v l2 (eq_sym Hp2) (NoDup_nil _)).
        -- cbn [graph rng]. now rewrite without_edges_app, app_nil_r.
        -- intros ? [].
        -- cbn [graph]. right. destruct Huv as [Huv|Huv].
           ++ destruct (has_edge _ u v) eqn:Hh; [|reflexivity].
              apply has_edge_without_edges in Hh. now destruct Hh.
           ++ destruct (has_edge (without_edges _ _) u v) eqn:Hh; [|reflexivity].
              apply has_edge_without_edges in Hh. destruct Hh as [Hh _]. congruence.
      * simpl in Hp2. injection Hp2 as <- Hp2.
        apply bind_of_Raise.
        exact (remove_path_edges_fails p w l1 u v l Hp1 Hnd Hin Huv).
    + (* the path ends inside l1 *)
      subst l1.
      assert (Hnd' : NoDup (path_edges p) /\ NoDup l /\
                     forall x, In x (path_edges p) -> ~ In x l).
      { clear -Hnd. induction (path_edges p) as [|x xs IHx]; simpl in *.
        - repeat split; [constructor | exact Hnd | intros ? []].
        - apply NoDup_cons_iff in Hnd. destruct Hnd as [Hx Hnd].
          destruct (IHx Hnd) as [H1 [H2 H3]]. repeat split.
          + constructor; [|exact H1]. intros Hc. apply Hx. apply in_or_app. now left.
          + exact H2.
          + intros y [<-|Hy] Hl; [apply Hx; apply in_or_app; now right|].
            exact (H3 y Hy Hl). }
      destruct Hnd' as [Hndp [Hndl Hdisj]].
      rewrite (bind_of_Ok _ _ _ _ _
                 (remove_path_edges_run p w Hndp
                    (fun uv H => Hin uv (in_or_app _ _ _ (or_introl H))))).
      rewrite (IH _ l u v l2 Hp2 Hndl).
      * cbn [graph rng]. now rewrite without_edges_app.
      * intros [x y] Hxy. cbn [graph fst snd]. apply has_edge_without_edges. split.
        -- apply (Hin (x, y)). apply in_or_app. now right.
        -- intros Hc. exact (Hdisj _ Hc Hxy).
      * cbn [graph]. destruct Huv as [Huv|Huv].
        -- apply in_app_or in Huv. destruct Huv as [Huv|Huv]; [|now left].
           right. destruct (has_edge _ u v) eqn:Hh; [|reflexivity].
           apply has_edge_without_edges in Hh. now destruct Hh.
        -- right. destruct (has_edge (without_edges _ _) u v) eqn:Hh; [|reflexivity].
           apply has_edge_without_edges in Hh. destruct Hh as [Hh _]. congruence.
Qed.

(** X13: [remove_paths] on an edge that is not there.  The edges of the
    paths are removed one by one, in order; at the first one that is not an
    edge of the graph, or that this very call has already removed (an edge
    that two of the paths share, or that a path takes twice), the call raises
    [NetworkXError].  Nothing is rolled back: the graph is left without the
    edges removed so far, with all its nodes, no end node deleted and no
    isolated node pruned. *)
Theorem remove_paths_fails_at_first_missing_edge :
  forall (path_list : list path) (delete_entry_node delete_sink_node : bool)
         (w : World) (l1 l2 : list (node * node)) (u v : node),
    flat_map path_edges path_list = l1 ++ (u, v) :: l2 ->
    NoDup l1 ->
    (forall uv, In uv l1 -> has_edge (graph w) (fst uv) (snd uv) = true) ->
    In (u, v) l1 \/ has_edge (graph w) u v = false ->
    remove_paths path_list delete_entry_node delete_sink_node w
    = Raise NetworkXError (mkWorld (without_edges (graph w) l1) (rng w)).
Proof.
  intros ps de ds w l1 l2 u v Hp Hnd Hin Huv. unfold remove_paths.
  apply bind_of_Raise.
  exact (remove_all_path_edges_fails ps w l1 u v l2 Hp Hnd Hin Huv).
Qed.

(** ** Repeats, cycles, and the pipeline *)

Lemma repeat_is_cyclic (reads : list string) (kmer_size : nat) (read : string) :
  In read reads ->
  ~ NoDup (cut_kmer read (kmer_size - 1)) ->
  ~ acyclic (build_graph (build_kmer_dict reads kmer_size)).
Proof.
  intros Hread Hrep Hacyc. apply Hrep.
  apply (walk_NoDup _ Hacyc). now apply read_walk.
Qed.

(** X14: a repeat inside a read makes the graph cyclic.  If the same
    (k-1)-mer occurs twice among the windows of one read, the graph built
    from the reads is not acyclic. *)
Theorem repeated_kmer_makes_a_cycle :
  forall (reads : list string) (kmer_size : nat) (read : string),
    In read reads ->
    ~ NoDup (cut_kmer read (kmer_size - 1)) ->
    ~ acyclic (build_graph (build_kmer_dict reads kmer_size)).
Proof.
  intros reads k read Hread Hrep. now apply (repeat_is_cyclic reads k read).
Qed.

Lemma simplify_bubbles_cyclic_raises (depth : nat) (w : World) :
  wf (graph w) -> ~ acyclic (graph w) ->
  (exists nd, In nd (g_nodes (graph w)) /\ 1 < length (predecessors (graph w) nd)) ->
  simplify_bubbles (S depth) w = Raise NetworkXError w.
Proof.
  intros Hwf Hcyc H.
  assert (Hdag : is_directed_acyclic_graph (graph w) = false).
  { destruct (is_directed_acyclic_graph (graph w)) eqn:E; [|reflexivity].
    exfalso. apply Hcyc. now apply is_directed_acyclic_graph_sound. }
  cbn [simplify_bubbles]. unfold bind, get_graph.
  rewrite lift_world. unfold scan_bubbles.
  now rewrite (scan_nodes_cyclic _ Hdag _ _ H).
Qed.

(** X15: the pipeline on a cyclic graph.  When the graph built from the reads
    has a cycle and a node with more than one predecessor, [main] ends in
    [simplify_bubbles] with [NetworkXError]: no contig is produced, and the
    graph is left as built. *)
Theorem main_raises_on_a_cycle_with_a_merge :
  forall (gen : Z -> nat -> nat) (depth : nat) (reads : list string) (kmer_size : nat)
         (w : World),
    let g := build_graph (build_kmer_dict reads kmer_size) in
    ~ acyclic g ->
    (exists nd, In nd (g_nodes g) /\ 1 < length (predecessors g nd)) ->
    main gen (S depth) reads kmer_size w = Raise NetworkXError (mkWorld g (gen 9001%Z)).
Proof.
  intros gen depth reads k w g Hcyc Hmerge. unfold main.
  rewrite (bind_of_Ok (Random.seed gen 9001) _ w (mkWorld (graph w) (gen 9001%Z)) tt eq_refl).
  rewrite (bind_of_Ok (put_graph g) _ (mkWorld (graph w) (gen 9001%Z))
             (mkWorld g (gen 9001%Z)) tt eq_refl).
  apply bind_of_Raise.
  apply simplify_bubbles_cyclic_raises; cbn [graph];
    [apply build_graph_wf | exact Hcyc | exact Hmerge].
Qed.

(** ** The graph of one path *)

Lemma path_edges_cons2 (x y : node) (l : list node) :
  path_edges (x :: y :: l) = (x, y) :: path_edges (y :: l).
Proof. reflexivity. Qed.

Lemma path_edges_split (l1 l2 : list node) (x y : node) :
  path_edges (l1 ++ x :: y :: l2)
  = path_edges (l1 ++ [x]) ++ (x, y) :: path_edges (y :: l2).
Proof.
  induction l1 as [|a l1 IH]; [reflexivity|].
  destruct l1 as [|b l1].
  - simpl app. rewrite !path_edges_cons2. simpl. reflexivity.
  - change ((a :: b :: l1) ++ x :: y :: l2) with (a :: b :: (l1 ++ x :: y :: l2)).
    change ((a :: b :: l1) ++ [x]) with (a :: b :: (l1 ++ [x])).
    rewrite !path_edges_cons2.
    change (b :: l1 ++ x :: y :: l2) with ((b :: l1) ++ x :: y :: l2).
    change (b :: l1 ++ [x]) with ((b :: l1) ++ [x]).
    rewrite IH. reflexivity.
Qed.

Lemma path_edges_ends (p : path) (u v : node) :
  In (u, v) (path_edges p) -> In u p /\ In v p.
Proof.
  induction p as [|a p IH]; [intros []|].
  destruct p as [|b p]; [intros []|].
  rewrite path_edges_cons2. intros [E|H].
  - injection E as <- <-. split; [now left | right; now left].
  - destruct (IH H). split; now right.
Qed.

Lemma path_edges_src (l : list node) (x u v : node) :
  In (u, v) (path_edges (l ++ [x])) -> In u l.
Proof.
  induction l as [|a l IH]; [intros []|].
  destruct l as [|b l].
  - simpl. intros [E|[]]. injection E as <- _. now left.
  - change ((a :: b :: l) ++ [x]) with (a :: b :: (l ++ [x])).
    rewrite path_edges_cons2. intros [E|H].
    + injection E as <- _. now left.
    + right. apply IH. exact H.
Qed.

Lemma path_edges_dst (l : list node) (y u v : node) :
  In (u, v) (path_edges (y :: l)) -> In v l.
Proof.
  revert y. induction l as [|b l IH]; intros y; [intros []|].
  rewrite path_edges_cons2. intros [E|H].
  - injection E as _ <-. now left.
  - right. exact (IH b H).
Qed.

Lemma filter_map_nil {A B : Type} (f : B -> bool) (h : A -> B) (l : list A) :
  (forall a, In a l -> f (h a) = false) -> filter f (map h l) = [].
Proof.
  intros H. apply filter_nil_iff. intros b Hb. apply in_map_iff in Hb.
  destruct Hb as [a [<- Ha]]. now apply H.
Qed.

Lemma NoDup_middle (l1 l2 : list node) (x : node) :
  NoDup (l1 ++ x :: l2) -> ~ In x l1 /\ ~ In x l2.
Proof.
  intros H. apply NoDup_remove_2 in H. split; intros Hc; apply H, in_or_app; tauto.
Qed.

Lemma chain_successors (l1 l2 : list node) (x y : node) :
  NoDup (l1 ++ x :: y :: l2) ->
  successors (chain (l1 ++ x :: y :: l2)) x = [y].
Proof.
  intros Hnd. destruct (NoDup_middle _ _ _ Hnd) as [Hx1 Hx2].
  unfold successors, chain. cbn [g_edges].
  rewrite path_edges_split, map_app, filter_app. cbn [map filter].
  rewrite (filter_map_nil _ _ (path_edges (l1 ++ [x]))).
  - rewrite (filter_map_nil _ _ (path_edges (y :: l2))).
    + unfold e_src. cbn [fst snd]. rewrite String.eqb_refl. reflexivity.
    + intros [u v] Huv. unfold e_src. cbn [fst snd]. apply String.eqb_neq.
      intros ->. apply path_edges_ends in Huv. tauto.
  - intros [u v] Huv. unfold e_src. cbn [fst snd]. apply String.eqb_neq.
    intros ->. apply path_edges_src in Huv. tauto.
Qed.

Lemma chain_predecessors (l1 l2 : list node) (x y : node) :
  NoDup (l1 ++ x :: y :: l2) ->
  predecessors (chain (l1 ++ x :: y :: l2)) y = [x].
Proof.
  intros Hnd.
  assert (Hy : ~ In y (l1 ++ [x]) /\ ~ In y l2).
  { replace (l1 ++ x :: y :: l2) with ((l1 ++ [x]) ++ y :: l2) in Hnd
      by now rewrite <- app_assoc.
    now apply NoDup_middle. }
  destruct Hy as [Hy1 Hy2].
  unfold predecessors, chain. cbn [g_edges].
  rewrite path_edges_split, map_app, filter_app. cbn [map filter].
  rewrite (filter_map_nil _ _ (path_edges (l1 ++ [x]))).
  - rewrite (filter_map_nil _ _ (path_edges (y :: l2))).
    + unfold e_dst. cbn [fst snd]. rewrite String.eqb_refl. reflexivity.
    + intros [u v] Huv. unfold e_dst. cbn [fst snd]. apply String.eqb_neq.
      intros ->. apply path_edges_dst in Huv. tauto.
  - intros [u v] Huv. unfold e_dst. cbn [fst snd]. apply String.eqb_neq.
    intros ->. apply path_edges_ends in Huv. tauto.
Qed.

Lemma chain_first_no_predecessor (x : node) (l : list node) :
  NoDup (x :: l) -> predecessors (chain (x :: l)) x = [].
Proof.
  intros Hnd. apply NoDup_cons_iff in Hnd. destruct Hnd as [Hx _].
  unfold predecessors, chain. cbn [g_edges].
  rewrite (filter_map_nil _ _ (path_edges (x :: l))); [reflexivity|].
  intros [u v] Huv. unfold e_dst. cbn [fst snd]. apply String.eqb_neq.
  intros ->. apply path_edges_dst in Huv. tauto.
Qed.

Lemma chain_last_no_successor (l : list node) (z : node) :
  NoDup (l ++ [z]) -> successors (chain (l ++ [z])) z = [].
Proof.
  intros Hnd. destruct (NoDup_middle _ _ _ Hnd) as [Hz _].
  unfold successors, chain. cbn [g_edges].
  rewrite (filter_map_nil _ _ (path_edges (l ++ [z]))); [reflexivity|].
  intros [u v] Huv. unfold e_src. cbn [fst snd]. apply String.eqb_neq.
  intros ->. apply path_edges_src in Huv. tauto.
Qed.

(** A node of a path is its last node or has a next one; it is its first
    node or has one before it. *)
Lemma in_path_next (p : path) (x : node) :
  In x p -> (exists l, p = l ++ [x]) \/ (exists l1 y l2, p = l1 ++ x :: y :: l2).
Proof.
  intros H. apply in_split in H. destruct H as [l1 [l2 ->]].
  destruct l2 as [|y l2]; [left; now exists l1 | right; now exists l1, y, l2].
Qed.

Lemma in_path_previous (p : path) (y : node) :
  In y p -> (exists l, p = y :: l) \/ (exists l1 x l2, p = l1 ++ x :: y :: l2).
Proof.
  intros H. apply in_split in H. destruct H as [l1 [l2 ->]].
  destruct l1 as [|a l1] using rev_ind; [left; now exists l2|].
  right. exists l1, a, l2. now rewrite <- app_assoc.
Qed.

Lemma chain_no_fork (p : path) :
  NoDup p -> forall nd, In nd (g_nodes (chain p)) -> length (successors (chain p) nd) <= 1.
Proof.
  intros Hnd nd Hin. cbn [chain g_nodes] in Hin.
  destruct (in_path_next p nd Hin) as [[l ->] | [l1 [y [l2 ->]]]].
  - rewrite chain_last_no_successor by exact Hnd. simpl. lia.
  - rewrite chain_successors by exact Hnd. simpl. lia.
Qed.

Lemma chain_no_merge (p : path) :
  NoDup p -> forall nd, In nd (g_nodes (chain p)) -> length (predecessors (chain p) nd) <= 1.
Proof.
  intros Hnd nd Hin. cbn [chain g_nodes] in Hin.
  destruct (in_path_previous p nd Hin) as [[l ->] | [l1 [y [l2 ->]]]].
  - rewrite chain_first_no_predecessor by exact Hnd. simpl. lia.
  - rewrite chain_predecessors by exact Hnd. simpl. lia.
Qed.

Lemma chain_starting_nodes (x y : node) (l : list node) :
  NoDup (x :: y :: l) -> get_starting_nodes (chain (x :: y :: l)) = [x].
Proof.
  intros Hnd. unfold get_starting_nodes.
  change (g_nodes (chain (x :: y :: l))) with (x :: y :: l).
  remember (y :: l) as rest eqn:Hrest.
  cbn [filter]. rewrite (chain_first_no_predecessor x rest Hnd). cbn [length Nat.eqb].
  f_equal. apply filter_nil_iff. intros nd Hin.
  destruct (in_path_previous (x :: rest) nd (or_intror Hin))
    as [[l' E] | [l1 [a [l2 E]]]].
  - injection E as -> _. apply NoDup_cons_iff in Hnd. tauto.
  - rewrite E in *. now rewrite chain_predecessors.
Qed.

Lemma chain_sink_nodes (l : list node) (z : node) :
  NoDup (l ++ [z]) -> get_sink_nodes (chain (l ++ [z])) = [z].
Proof.
  intros Hnd. unfold get_sink_nodes.
  change (g_nodes (chain (l ++ [z]))) with (l ++ [z]).
  rewrite filter_app. cbn [filter].
  rewrite (chain_last_no_successor l z Hnd). cbn [length Nat.eqb].
  replace (filter _ l) with (@nil node); [reflexivity|].
  symmetry. apply filter_nil_iff. intros nd Hin.
  destruct (in_path_next (l ++ [z]) nd (in_or_app _ _ _ (or_introl Hin)))
    as [[l' E] | [l1 [a [l2 E]]]].
  - apply app_inj_tail in E. destruct E as [_ <-].
    destruct (NoDup_middle _ _ _ Hnd). tauto.
  - rewrite E in *. now rewrite chain_successors.
Qed.

Lemma chain_simple_paths (g : DiGraph) :
  forall (suf pre : list node) (u : node) (depth : nat),
    (forall l1 x y l2, pre ++ u :: suf = l1 ++ x :: y :: l2 -> successors g x = [y]) ->
    NoDup (pre ++ u :: suf) -> suf <> [] -> length suf <= depth ->
    simple_paths_from depth g [last suf u] (pre ++ [u]) u = [pre ++ u :: suf].
Proof.
  induction suf as [|y suf IH]; intros pre u depth Hsucc Hnd Hne Hlen; [congruence|].
  destruct depth as [|d]; [simpl in Hlen; lia|].
  cbn [simple_paths_from]. rewrite (Hsucc pre u y suf eq_refl). cbn [flat_map].
  rewrite app_nil_r.
  assert (Hy : ~ In y (pre ++ [u]) /\ ~ In y suf).
  { replace (pre ++ u :: y :: suf) with ((pre ++ [u]) ++ y :: suf) in Hnd
      by now rewrite <- app_assoc.
    now apply NoDup_middle. }
  destruct Hy as [Hy1 Hy2].
  replace (mem y (pre ++ [u])) with false by (symmetry; now apply mem_false).
  rewrite last_cons.
  destruct suf as [|z suf].
  - cbn [last]. unfold mem at 1. cbn [existsb]. rewrite String.eqb_refl. cbn [orb].
    cbn [forallb]. replace (mem y ((pre ++ [u]) ++ [y])) with true.
    + cbn. now rewrite <- app_assoc.
    + symmetry. apply mem_In. apply in_or_app. right. now left.
  - set (t := last (z :: suf) y).
    assert (Ht : In t (z :: suf)).
    { unfold t. rewrite last_cons. apply last_In. }
    assert (Hty : y <> t) by (intros E; rewrite E in Hy2; tauto).
    replace (mem y [t]) with false.
    2:{ symmetry. apply mem_false. intros [E|[]]. congruence. }
    cbn [forallb].
    replace (mem t ((pre ++ [u]) ++ [y])) with false.
    2:{ symmetry. apply mem_false. intros Hin.
        replace (pre ++ u :: y :: z :: suf) with (((pre ++ [u]) ++ [y]) ++ z :: suf) in Hnd
          by now rewrite <- !app_assoc.
        apply in_split in Ht. destruct Ht as [s1 [s2 Es]]. rewrite Es in Hnd.
        replace (((pre ++ [u]) ++ [y]) ++ s1 ++ t :: s2)
          with ((((pre ++ [u]) ++ [y]) ++ s1) ++ t :: s2) in Hnd
          by now rewrite <- !app_assoc.
        destruct (NoDup_middle _ _ _ Hnd) as [Hc _]. apply Hc.
        apply in_or_app. now left. }
    cbn [andb app]. unfold t.
    rewrite (IH (pre ++ [u]) y d).
    + now rewrite <- app_assoc.
    + intros l1 a b l2 E. apply (Hsucc l1 a b l2). rewrite <- E.
      now rewrite <- app_assoc.
    + now rewrite <- app_assoc.
    + discriminate.
    + simpl in Hlen. simpl. lia.
Qed.

Lemma chain_all_simple_paths (x y : node) (l : list node) :
  NoDup (x :: y :: l) ->
  all_simple_paths (chain (x :: y :: l)) x (last (y :: l) x) = inr [x :: y :: l].
Proof.
  intros Hnd. unfold all_simple_paths.
  set (t := last (y :: l) x).
  assert (Ht : In t (y :: l)).
  { unfold t. rewrite last_cons. apply last_In. }
  assert (Hx : ~ In x (y :: l)) by (apply NoDup_cons_iff in Hnd; tauto).
  assert (Hxt : x <> t) by (intros E; rewrite E in Hx; tauto).
  replace (has_node (chain (x :: y :: l)) x) with true.
  2:{ symmetry. apply has_node_In. now left. }
  unfold targets_of.
  replace (has_node (chain (x :: y :: l)) t) with true.
  2:{ symmetry. apply has_node_In. now right. }
  cbn [negb].
  replace (mem x [t]) with false.
  2:{ symmetry. apply mem_false. intros [E|[]]. congruence. }
  f_equal. apply (chain_simple_paths (chain (x :: y :: l)) (y :: l) [] x).
  - intros l1 a b l2 E. cbn [app] in E. rewrite E.
    apply chain_successors. now rewrite <- E.
  - exact Hnd.
  - discriminate.
  - cbn [chain g_nodes length]. lia.
Qed.

Lemma simplify_bubbles_no_merge (depth : nat) (w : World) :
  (forall nd, In nd (g_nodes (graph w)) -> length (predecessors (graph w) nd) <= 1) ->
  simplify_bubbles (S depth) w = Ok tt w.
Proof.
  intros H. cbn [simplify_bubbles]. unfold bind, get_graph.
  rewrite lift_world. unfold scan_bubbles.
  now rewrite (scan_nodes_no_merge _ _ _ H).
Qed.

Lemma solve_entry_tips_no_merge (depth : nat) (starting_nodes : list node) (w : World) :
  (forall nd, In nd (g_nodes (graph w)) -> length (predecessors (graph w) nd) <= 1) ->
  solve_entry_tips (S depth) starting_nodes w = Ok tt w.
Proof.
  intros H. apply first_merge_None in H. unfold first_merge in H.
  cbn [solve_entry_tips]. unfold bind, get_graph. now rewrite H.
Qed.

Lemma solve_out_tips_no_fork (depth : nat) (ending_nodes : list node) (w : World) :
  (forall nd, In nd (g_nodes (graph w)) -> length (successors (graph w) nd) <= 1) ->
  solve_out_tips (S depth) ending_nodes w = Ok tt w.
Proof.
  intros H. apply first_fork_None in H. unfold first_fork in H.
  cbn [solve_out_tips]. unfold bind, get_graph. now rewrite H.
Qed.

(** ** The graph of a read without a repeat *)

Lemma path_edges_map_seq (f : nat -> node) :
  forall n a, path_edges (map f (seq a (S n))) = map (fun i => (f i, f (S i))) (seq a n).
Proof.
  induction n as [|n IH]; intros a; [reflexivity|].
  change (seq a (S (S n))) with (a :: seq (S a) (S n)).
  change (seq (S a) (S n)) with (S a :: seq (S (S a)) n) at 1.
  cbn [map]. rewrite path_edges_cons2.
  change (f (S a) :: map f (seq (S (S a)) n)) with (map f (seq (S a) (S n))).
  now rewrite IH.
Qed.

Lemma count_kmer_fresh (d : list (string * Z)) (x : string) :
  ~ In x (map fst d) -> count_kmer d x = d ++ [(x, 1%Z)].
Proof.
  induction d as [|[k c] d IH]; intros H; [reflexivity|].
  cbn [count_kmer]. destruct (String.eqb k x) eqn:E.
  - apply String.eqb_eq in E. exfalso. apply H. now left.
  - cbn [app]. f_equal. apply IH. intros Hc. apply H. now right.
Qed.

Lemma fold_count_kmer_fresh (l : list string) :
  forall d,
    NoDup l -> (forall x, In x l -> ~ In x (map fst d)) ->
    fold_left count_kmer l d = d ++ map (fun x => (x, 1%Z)) l.
Proof.
  induction l as [|x l IH]; intros d Hnd Hfresh.
  - simpl. now rewrite app_nil_r.
  - cbn [fold_left map]. apply NoDup_cons_iff in Hnd. destruct Hnd as [Hx Hnd].
    rewrite count_kmer_fresh by (apply Hfresh; now left).
    rewrite IH; [now rewrite <- app_assoc | exact Hnd |].
    intros y Hy Hin. rewrite map_app in Hin. apply in_app_or in Hin.
    destruct Hin as [Hin|[E|[]]].
    + apply (Hfresh y); [now right | exact Hin].
    + simpl in E. subst y. tauto.
Qed.

Lemma NoDup_map_injective {A B : Type} (h : A -> B) (l : list A) (a b : A) :
  NoDup (map h l) -> In a l -> In b l -> h a = h b -> a = b.
Proof.
  induction l as [|x l IH]; intros Hnd Ha Hb E; [destruct Ha|].
  cbn [map] in Hnd. apply NoDup_cons_iff in Hnd. destruct Hnd as [Hx Hnd].
  destruct Ha as [<-|Ha], Hb as [<-|Hb]; try reflexivity.
  - exfalso. apply Hx. rewrite E. now apply in_map.
  - exfalso. apply Hx. rewrite <- E. now apply in_map.
  - now apply IH.
Qed.

Lemma NoDup_map_of_injective {A B : Type} (h : A -> B) (l : list A) :
  NoDup l -> (forall a b, In a l -> In b l -> h a = h b -> a = b) -> NoDup (map h l).
Proof.
  induction l as [|x l IH]; intros Hnd Hinj; [constructor|].
  apply NoDup_cons_iff in Hnd. destruct Hnd as [Hx Hnd]. cbn [map]. constructor.
  - intros Hin. apply in_map_iff in Hin. destruct Hin as [y [E Hy]].
    apply Hx. rewrite <- (Hinj y x); [exact Hy | now right | now left | exact E].
  - apply IH; [exact Hnd|]. intros a b Ha Hb. apply Hinj; now right.
Qed.

(** The k-mers of a read whose (k-1)-mers are all different are all
    different. *)
Lemma cut_kmer_NoDup (read : string) (kmer_size : nat) :
  1 <= kmer_size ->
  NoDup (cut_kmer read (kmer_size - 1)) -> NoDup (cut_kmer read kmer_size).
Proof.
  intros Hk Hnd. unfold cut_kmer in *. apply NoDup_map_of_injective; [apply seq_NoDup|].
  intros i j Hi Hj E. apply in_seq in Hi. apply in_seq in Hj.
  apply (NoDup_map_injective _ _ i j Hnd); try (apply in_seq; lia).
  rewrite <- (window_prefix read i kmer_size), <- (window_prefix read j kmer_size) by lia.
  now rewrite E.
Qed.

Lemma fold_add_edge_nodes (rest : list node) :
  forall (pre : list node) (x0 : node) (d : list (string * Z)) (g : DiGraph),
    map (fun kv => (py_drop_last (fst kv), py_drop_first (fst kv))) d
    = path_edges (x0 :: rest) ->
    g_nodes g = pre ++ [x0] ->
    NoDup (pre ++ x0 :: rest) ->
    g_nodes (fold_left (fun G kv => add_edge G (py_drop_last (fst kv))
                                      (py_drop_first (fst kv)) (snd kv)) d g)
    = pre ++ x0 :: rest.
Proof.
  induction rest as [|x1 rest IH]; intros pre x0 d g Hd Hg Hnd.
  - destruct d; [|discriminate Hd]. exact Hg.
  - rewrite path_edges_cons2 in Hd. destruct d as [|kv d]; [discriminate Hd|].
    cbn [map] in Hd. injection Hd as H0 H1 Hd. cbn [fold_left].
    rewrite H0, H1.
    replace (pre ++ x0 :: x1 :: rest) with ((pre ++ [x0]) ++ x1 :: rest) in *
      by now rewrite <- app_assoc.
    apply IH; [exact Hd | | exact Hnd].
    rewrite add_edge_nodes.
    assert (H0in : has_node g x0 = true).
    { apply has_node_In. rewrite Hg. apply in_or_app. right. now left. }
    unfold add_node at 2. rewrite H0in.
    assert (H1in : has_node g x1 = false).
    { destruct (has_node g x1) eqn:E; [|reflexivity]. apply has_node_In in E.
      rewrite Hg in E. destruct (NoDup_middle _ _ _ Hnd). tauto. }
    unfold add_node. rewrite H1in. cbn [g_nodes]. now rewrite Hg.
Qed.

Lemma graph_of_single_read (read : string) (kmer_size : nat) :
  2 <= kmer_size -> kmer_size <= String.length read ->
  NoDup (cut_kmer read (kmer_size - 1)) ->
  build_graph (build_kmer_dict [read] kmer_size) = chain (cut_kmer read (kmer_size - 1)).
Proof.
  intros Hk Hlen Hnd.
  assert (Hdict : build_kmer_dict [read] kmer_size
                  = map (fun x => (x, 1%Z)) (cut_kmer read kmer_size)).
  { unfold build_kmer_dict. cbn [fold_left].
    rewrite fold_count_kmer_fresh; [reflexivity | | intros ? ? []].
    apply cut_kmer_NoDup; [lia | exact Hnd]. }
  set (f := fun i => substring i (kmer_size - 1) read).
  set (n := String.length read + 1 - kmer_size).
  assert (Hwin : cut_kmer read (kmer_size - 1) = map f (seq 0 (S n))).
  { unfold cut_kmer, f, n. f_equal. f_equal. lia. }
  assert (Hpairs :
            map (fun kv => (py_drop_last (fst kv), py_drop_first (fst kv)))
                (build_kmer_dict [read] kmer_size)
            = path_edges (cut_kmer read (kmer_size - 1))).
  { rewrite Hdict, Hwin, path_edges_map_seq. unfold cut_kmer. fold n.
    rewrite !map_map. apply map_ext_in. intros i Hi. apply in_seq in Hi.
    cbn [fst]. unfold f, n in *.
    rewrite window_prefix, window_suffix by lia. reflexivity. }
  assert (Hedges : g_edges (build_graph (build_kmer_dict [read] kmer_size))
                   = map (fun uv => (fst uv, snd uv, 1%Z))
                         (path_edges (cut_kmer read (kmer_size - 1)))).
  { unfold build_graph.
    rewrite (build_graph_edges_from (build_kmer_dict [read] kmer_size) Nx.empty []
               eq_refl).
    - cbn [app]. rewrite <- Hpairs, Hdict, !map_map. reflexivity.
    - cbn [app]. rewrite Hdict, map_map. cbn [fst]. rewrite map_id.
      apply cut_kmer_NoDup; [lia | exact Hnd].
    - cbn [app]. intros kv Hkv. rewrite Hdict in Hkv. apply in_map_iff in Hkv.
      destruct Hkv as [x [<- Hx]]. cbn [fst].
      now rewrite (cut_kmer_length read kmer_size x Hx). }
  assert (Hnodes : g_nodes (build_graph (build_kmer_dict [read] kmer_size))
                   = cut_kmer read (kmer_size - 1)).
  { unfold build_graph. rewrite Hwin in Hpairs, Hnd |- *.
    destruct n as [|m] eqn:En; [unfold n in En; lia|].
    change (seq 0 (S (S m))) with (0 :: 1 :: seq 2 m) in *.
    cbn [map] in *.
    destruct (build_kmer_dict [read] kmer_size) as [|kv d]; [discriminate Hpairs|].
    rewrite path_edges_cons2 in Hpairs. cbn [map] in Hpairs.
    injection Hpairs as H0 H1 Hd. cbn [fold_left]. rewrite H0, H1.
    apply (fold_add_edge_nodes (map f (seq 2 m)) [f 0] (f 1) d).
    - exact Hd.
    - assert (Hneq : String.eqb (f 1) (f 0) = false).
      { apply String.eqb_neq. intros E.
        apply NoDup_cons_iff in Hnd. destruct Hnd as [Hnd _]. apply Hnd.
        rewrite <- E. now left. }
      rewrite add_edge_nodes. unfold add_node, has_node, mem.
      cbn [g_nodes g_edges Nx.empty existsb app]. rewrite Hneq. reflexivity.
    - exact Hnd. }
  unfold chain. rewrite <- Hedges, <- Hnodes.
  now destruct (build_graph (build_kmer_dict [read] kmer_size)).
Qed.

Lemma chain_sink_nodes_last (x y : node) (l : list node) :
  NoDup (x :: y :: l) -> get_sink_nodes (chain (x :: y :: l)) = [last (y :: l) x].
Proof.
  intros Hnd.
  assert (E : x :: y :: l = (x :: removelast (y :: l)) ++ [last (y :: l) x]).
  { cbn [app]. f_equal. apply app_removelast_last. discriminate. }
  rewrite E in Hnd |- * at 1. now apply chain_sink_nodes.
Qed.

(** X16: the pipeline reassembles a read without a repeat.  For one read of
    at least k characters, k >= 2, whose (k-1)-mers are all different, the
    graph [main] builds is the path of these (k-1)-mers with weight 1 on every
    edge; no simplification step changes it; and [main] returns exactly one
    contig, the read itself, with its length. *)
Theorem main_reassembles_a_read_without_repeat :
  forall (gen : Z -> nat -> nat) (depth : nat) (read : string) (kmer_size : nat)
         (w : World),
    2 <= kmer_size -> kmer_size <= String.length read ->
    NoDup (cut_kmer read (kmer_size - 1)) ->
    build_graph (build_kmer_dict [read] kmer_size) = chain (cut_kmer read (kmer_size - 1)) /\
    main gen (S depth) [read] kmer_size w
    = Ok [(read, String.length read)]
         (mkWorld (chain (cut_kmer read (kmer_size - 1))) (gen 9001%Z)).
Proof.
  intros gen depth read k w Hk Hlen Hnd.
  pose proof (graph_of_single_read read k Hk Hlen Hnd) as Hg.
  split; [exact Hg|].
  pose proof (contig_of_windows read (k - 1) ltac:(lia) ltac:(lia)) as Hcontig.
  unfold main. rewrite Hg.
  destruct (cut_kmer read (k - 1)) as [|x [|y l]] eqn:EN.
  - apply (f_equal (@length string)) in EN. unfold cut_kmer in EN.
    rewrite length_map, length_seq in EN. simpl in EN. lia.
  - apply (f_equal (@length string)) in EN. unfold cut_kmer in EN.
    rewrite length_map, length_seq in EN. simpl in EN. lia.
  - set (g := chain (x :: y :: l)) in *.
    set (w0 := mkWorld g (gen 9001%Z)).
    rewrite (bind_of_Ok (Random.seed gen 9001) _ w (mkWorld (graph w) (gen 9001%Z)) tt
               eq_refl).
    rewrite (bind_of_Ok (put_graph g) _ (mkWorld (graph w) (gen 9001%Z)) w0 tt eq_refl).
    rewrite (bind_of_Ok _ _ _ _ _
               (simplify_bubbles_no_merge depth w0 (chain_no_merge _ Hnd))).
    rewrite (bind_of_Ok get_graph _ w0 w0 g eq_refl).
    rewrite (bind_of_Ok _ _ _ _ _
               (solve_entry_tips_no_merge depth _ w0 (chain_no_merge _ Hnd))).
    rewrite (bind_of_Ok get_graph _ w0 w0 g eq_refl).
    rewrite (bind_of_Ok _ _ _ _ _
               (solve_out_tips_no_fork depth _ w0 (chain_no_fork _ Hnd))).
    rewrite (bind_of_Ok get_graph _ w0 w0 g eq_refl).
    unfold g.
    replace (get_starting_nodes (chain (x :: y :: l))) with [x]
      by (symmetry; exact (chain_starting_nodes x y l Hnd)).
    replace (get_sink_nodes (chain (x :: y :: l))) with [last (y :: l) x]
      by (symmetry; exact (chain_sink_nodes_last x y l Hnd)).
    unfold get_contigs. cbn [flat_map map app].
    replace (all_simple_paths (chain (x :: y :: l)) x (last (y :: l) x))
      with (@inr exn (list path) [x :: y :: l])
      by (symmetry; exact (chain_all_simple_paths x y l Hnd)).
    cbn [contigs_of_paths concat_results]. rewrite Hcontig.
    cbn [concat_results app lift]. reflexivity.
Qed.

(** ** get_contigs: nothing but the contigs of the paths *)

Lemma length_append (s1 s2 : string) :
  String.length (s1 ++ s2) = String.length s1 + String.length s2.
Proof. induction s1 as [|c s1 IH]; simpl; [reflexivity | now rewrite IH]. Qed.

Lemma concat_results_In {A : Type} (l : list (exn + list A)) (r : list A) (x : A) :
  concat_results l = inr r -> In x r -> exists xs, In (inr xs) l /\ In x xs.
Proof.
  revert r. induction l as [|y l IH]; intros r H Hx; simpl in H.
  - injection H as <-. destruct Hx.
  - destruct y as [e|xs]; [discriminate|].
    destruct (concat_results l) as [e|r'] eqn:E; [discriminate|].
    injection H as <-. apply in_app_or in Hx. destruct Hx as [Hx|Hx].
    + exists xs. split; [now left | exact Hx].
    + destruct (IH r' eq_refl Hx) as [xs' [H1 H2]]. exists xs'. split; [now right | exact H2].
Qed.

Lemma concat_results_raises {A : Type} (l : list (exn + list A)) (e : exn) :
  In (inl e) l -> (forall e', In (inl e') l -> e' = e) -> concat_results l = inl e.
Proof.
  induction l as [|y l IH]; intros Hin Hall; [destruct Hin|].
  simpl. destruct y as [e'|xs].
  - now rewrite (Hall e' (or_introl eq_refl)).
  - destruct Hin as [Hin|Hin]; [discriminate|].
    rewrite IH; [reflexivity | exact Hin |]. intros e' He'. apply Hall. now right.
Qed.

Lemma contigs_of_paths_sound (ps : list path) :
  forall cs c n,
    contigs_of_paths ps = inr cs -> In (c, n) cs ->
    n = String.length c /\ exists p, In p ps /\ contig_of_path p = inr c.
Proof.
  induction ps as [|p ps IH]; intros cs c n H Hin; simpl in H.
  - injection H as <-. destruct Hin.
  - destruct (contig_of_path p) as [e|c0] eqn:Ep; [discriminate|].
    destruct (contigs_of_paths ps) as [e|cs'] eqn:Eps; [discriminate|].
    injection H as <-. destruct Hin as [Hin|Hin].
    + injection Hin as <- <-. split; [reflexivity|]. exists p. split; [now left | exact Ep].
    + destruct (IH cs' c n eq_refl Hin) as [Hn [q [Hq Hc]]].
      split; [exact Hn|]. exists q. split; [now right | exact Hc].
Qed.

Lemma final_character_length (s : string) :
  1 <= String.length s -> String.length (final_character s) = 1.
Proof.
  intros H. unfold final_character. apply length_substring. lia.
Qed.

Lemma contig_length (first : string) (rest : list node) (c : string) :
  1 <= String.length first ->
  (forall j, In j rest -> String.length j = String.length first) ->
  contig_of_path (first :: rest) = inr c ->
  String.length c = String.length first + length rest.
Proof.
  intros H1 Hlen H. cbn [contig_of_path] in H. injection H as <-.
  rewrite fold_slices_in_words by exact Hlen.
  assert (Hgen : forall acc,
             String.length (fold_left (fun acc j => (acc ++ final_character j)%string)
                              rest acc)
             = String.length acc + length rest).
  { induction rest as [|j rest IH]; intros acc; simpl; [lia|].
    rewrite IH by (intros k Hk; apply Hlen; now right).
    rewrite length_append, final_character_length; [lia|].
    rewrite (Hlen j (or_introl eq_refl)). exact H1. }
  apply Hgen.
Qed.

Lemma get_contigs_sound (g : DiGraph) (starting_nodes ending_nodes : list node)
    (contigs : list (string * nat)) :
  get_contigs g starting_nodes ending_nodes = inr contigs ->
  forall c n,
    In (c, n) contigs ->
    n = String.length c /\
    exists start end_ ps p,
      In start starting_nodes /\ In end_ ending_nodes /\
      all_simple_paths g start end_ = inr ps /\ In p ps /\
      contig_of_path p = inr c /\
      forall L, 1 <= L -> uniform L g -> String.length c = L + (length p - 1).
Proof.
  unfold get_contigs. intros H c n Hin.
  destruct (concat_results_In _ _ _ H Hin) as [xs [Hxs Hc]].
  apply in_flat_map in Hxs. destruct Hxs as [s [Hs Hxs]].
  apply in_map_iff in Hxs. destruct Hxs as [t [Hcell Ht]].
  destruct (all_simple_paths g s t) as [e0|ps] eqn:Eps; [discriminate|].
  destruct (contigs_of_paths_sound ps xs c n Hcell Hc) as [Hn [p [Hp Hcp]]].
  split; [exact Hn|]. exists s, t, ps, p. repeat split; try assumption.
  intros L HL Huni.
  destruct (all_simple_paths_sound g s t ps p Eps Hp) as [rest [-> [_ [Hw _]]]].
  assert (Hs_len : String.length s = L).
  { apply Huni. apply has_node_In. exact (all_simple_paths_source g s t ps Eps). }
  pose proof (uniform_walk L g rest Huni s Hs_len Hw) as Hall.
  rewrite (contig_length s rest c); [simpl; lia | lia | | exact Hcp].
  intros j Hj. rewrite Hs_len. apply Hall. now right.
Qed.

(** X17: [get_contigs] emits nothing but the contigs of the paths.  Every
    entry of the list it returns is the contig of a path that
    [all_simple_paths] yields from one of the starting nodes to one of the
    ending nodes, paired with the length of that contig; when the nodes of the
    graph all have the same length L >= 1, a path of n nodes gives a contig
    of L + n - 1 characters.  If a starting node is not a node of the graph
    and there is an ending node, the call raises [NodeNotFound]. *)
Theorem get_contigs_emits_contigs_of_paths_only :
  forall (g : DiGraph) (starting_nodes ending_nodes : list node),
    (ending_nodes <> [] ->
     (exists s, In s starting_nodes /\ has_node g s = false) ->
     get_contigs g starting_nodes ending_nodes = inl NodeNotFound) /\
    (forall contigs,
        get_contigs g starting_nodes ending_nodes = inr contigs ->
        forall c n,
          In (c, n) contigs ->
          n = String.length c /\
          exists start end_ ps p,
            In start starting_nodes /\ In end_ ending_nodes /\
            all_simple_paths g start end_ = inr ps /\ In p ps /\
            contig_of_path p = inr c /\
            forall L, 1 <= L -> uniform L g -> String.length c = L + (length p - 1)).
Proof.
  intros g starts ends. unfold get_contigs.
  set (cell := fun start end_ =>
                 match all_simple_paths g start end_ with
                 | inl e => inl e
                 | inr ps => contigs_of_paths ps
                 end).
  change (concat_results
            (flat_map (fun start => map (fun end_ =>
                                           match all_simple_paths g start end_ with
                                           | inl e => inl e
                                           | inr ps => contigs_of_paths ps
                                           end) ends) starts))
    with (concat_results (flat_map (fun start => map (cell start) ends) starts)).
  split.
  - intros Hends [s [Hs Hnode]]. apply concat_results_raises.
    + destruct ends as [|e ends]; [congruence|].
      apply in_flat_map. exists s. split; [exact Hs|]. left.
      unfold cell, all_simple_paths. now rewrite Hnode.
    + intros e' He'. apply in_flat_map in He'. destruct He' as [s' [_ He']].
      apply in_map_iff in He'. destruct He' as [t [Hc _]]. unfold cell in Hc.
      destruct (all_simple_paths g s' t) as [e0|ps] eqn:Eps.
      * injection Hc as <-. now apply all_simple_paths_inl in Eps.
      * exfalso. destruct (contigs_of_paths_defined ps) as [cs Hcs]; [|congruence].
        intros p Hp.
        destruct (all_simple_paths_sound g s' t ps p Eps Hp) as [rest [-> _]].
        discriminate.
  - intros contigs H c n Hin. exact (get_contigs_sound g starts ends contigs H c n Hin).
Qed.

(** ** path_average_weight on a path without a chord *)

Lemma path_edges_NoDup (p : path) : NoDup p -> NoDup (path_edges p).
Proof.
  induction p as [|u p IH]; intros Hnd; [constructor|].
  destruct p as [|v p]; [constructor|].
  rewrite path_edges_cons2. apply NoDup_cons_iff in Hnd. destruct Hnd as [Hu Hnd].
  constructor; [|now apply IH].
  intros Hin. apply path_edges_ends in Hin. tauto.
Qed.

Lemma find_edge_wf (es : list (node * node * Z)) (e : node * node * Z) :
  NoDup (map edge_key es) -> In e es ->
  find (is_edge (e_src e) (e_dst e)) es = Some e.
Proof.
  induction es as [|x es IH]; intros Hnd Hin; [destruct Hin|].
  cbn [map] in Hnd. apply NoDup_cons_iff in Hnd. destruct Hnd as [Hx Hnd].
  cbn [find]. destruct (is_edge (e_src e) (e_dst e) x) eqn:E.
  - destruct Hin as [->|Hin]; [reflexivity|]. exfalso. apply Hx.
    apply is_edge_iff in E. destruct E as [E1 E2].
    replace (edge_key x) with (edge_key e).
    + now apply in_map.
    + destruct x as [[a b] c], e as [[a' b'] c']. unfold edge_key, e_src, e_dst in *.
      simpl in *. congruence.
  - destruct Hin as [->|Hin]; [|now apply IH].
    exfalso. unfold is_edge in E. now rewrite !String.eqb_refl in E.
Qed.

Lemma Qsum_Permutation (l l' : list Q) :
  Permutation l l' -> (Statistics.Qsum l == Statistics.Qsum l')%Q.
Proof.
  unfold Statistics.Qsum. induction 1 as [|x l l' _ IH|x y l|l l' l'' _ IH1 _ IH2]; simpl.
  - reflexivity.
  - now rewrite IH.
  - ring.
  - now rewrite IH1.
Qed.

Lemma weights_along_walk (g : DiGraph) (p : path) :
  is_walk g p ->
  weights_along g p
  = map (fun uv => inject_Z (match get_edge_data g (fst uv) (snd uv) with
                             | Some w => w
                             | None => 0%Z
                             end))
        (path_edges p).
Proof.
  unfold weights_along. induction p as [|u p IH]; intros Hw; [reflexivity|].
  destruct p as [|v p]; [reflexivity|].
  rewrite path_edges_cons2. destruct Hw as [He Hw]. cbn [flat_map map fst snd].
  rewrite (IH Hw). clear IH.
  unfold get_edge_data at 1 3. apply has_edge_iff in He. destruct He as [c Hc].
  destruct (find (is_edge u v) (g_edges g)) as [e|] eqn:Hf; [reflexivity|].
  exfalso. pose proof (find_none _ _ Hf _ Hc) as Hn.
  unfold is_edge, e_src, e_dst in Hn. simpl in Hn. now rewrite !String.eqb_refl in Hn.
Qed.

(** X18: on a path whose nodes induce no other edge, [path_average_weight]
    is the mean along the path.  For a well-formed graph and a walk of two
    nodes or more that visits no node twice, if every edge of the graph with
    both ends on the path joins two consecutive nodes of the path, then
    [path_average_weight] returns, and what it returns equals the mean of
    the weights of the edges along the path. *)
Theorem path_average_weight_without_chords :
  forall (g : DiGraph) (p : path),
    wf g -> NoDup p -> is_walk g p -> 2 <= length p ->
    (forall e, In e (g_edges g) -> In (e_src e) p -> In (e_dst e) p ->
               In (e_src e, e_dst e) (path_edges p)) ->
    exists q q' : Q,
      path_average_weight g p = inr q /\
      mean_along_path g p = inr q' /\
      (q == q')%Q.
Proof.
  intros g p [_ [Hkeys _]] Hnd Hw Hlen Hchord.
  set (wt := fun uv : node * node =>
               inject_Z (match get_edge_data g (fst uv) (snd uv) with
                         | Some w => w
                         | None => 0%Z
                         end)).
  assert (Hperm : Permutation (map edge_key (subgraph_edges g p)) (path_edges p)).
  { apply NoDup_Permutation.
    - unfold subgraph_edges. now apply NoDup_map_filter.
    - now apply path_edges_NoDup.
    - intros [u v]. split.
      + intros Hin. apply in_map_iff in Hin. destruct Hin as [e [Hk He]].
        unfold subgraph_edges in He. apply filter_In in He. destruct He as [He Hends].
        apply andb_true_iff in Hends. destruct Hends as [H1 H2].
        apply mem_In in H1. apply mem_In in H2.
        pose proof (Hchord e He H1 H2) as Hc.
        destruct e as [[a b] c]. unfold edge_key, e_src, e_dst in *. simpl in *.
        now injection Hk as <- <-.
      + intros Hin. destruct (path_edges_ends p u v Hin) as [Hu Hv].
        assert (He : has_edge g u v = true).
        { clear -Hw Hin. induction p as [|a p IH]; [destruct Hin|].
          destruct p as [|b p]; [destruct Hin|].
          rewrite path_edges_cons2 in Hin. destruct Hw as [Hab Hw].
          destruct Hin as [E|Hin]; [now injection E as <- <- | now apply IH]. }
        apply has_edge_iff in He. destruct He as [c Hc].
        apply in_map_iff. exists (u, v, c). split; [reflexivity|].
        unfold subgraph_edges. apply filter_In. split; [exact Hc|].
        unfold e_src, e_dst. simpl. apply andb_true_iff. split; now apply mem_In. }
  assert (Hweights : map (fun e => inject_Z (e_weight e)) (subgraph_edges g p)
                     = map wt (map edge_key (subgraph_edges g p))).
  { rewrite map_map. apply map_ext_in. intros e He.
    unfold subgraph_edges in He. apply filter_In in He. destruct He as [He _].
    unfold wt, get_edge_data.
    replace (fst (edge_key e)) with (e_src e) by reflexivity.
    replace (snd (edge_key e)) with (e_dst e) by reflexivity.
    now rewrite (find_edge_wf _ e Hkeys He). }
  assert (Hperm' : Permutation (map (fun e => inject_Z (e_weight e)) (subgraph_edges g p))
                               (weights_along g p)).
  { rewrite Hweights, (weights_along_walk g p Hw). now apply Permutation_map. }
  unfold path_average_weight, mean_along_path.
  assert (Hne : weights_along g p <> []).
  { rewrite (weights_along_walk g p Hw).
    destruct p as [|a [|b p]]; simpl in Hlen; try lia.
    rewrite path_edges_cons2. discriminate. }
  set (A := map (fun e => inject_Z (e_weight e)) (subgraph_edges g p)) in *.
  set (B := weights_along g p) in *.
  assert (HneA : A <> []).
  { intros E. rewrite E in Hperm'. apply Permutation_nil in Hperm'. congruence. }
  exists (Statistics.Qsum A / Statistics.Qlen A)%Q,
         (Statistics.Qsum B / Statistics.Qlen B)%Q.
  unfold Statistics.mean.
  destruct A as [|a A'] eqn:EA; [congruence|].
  destruct B as [|b B'] eqn:EB; [congruence|].
  split; [reflexivity|]. split; [reflexivity|].
  rewrite (Qsum_Permutation _ _ Hperm'). unfold Statistics.Qlen.
  now rewrite (Permutation_length Hperm').
Qed.

(** ** get_starting_nodes, get_sink_nodes *)

Lemma walks_of_any_length (g : DiGraph) :
  wf g ->
  (forall n, In n (g_nodes g) -> exists v, has_edge g n v = true) ->
  forall k x, In x (g_nodes g) -> exists l, length l = k /\ is_walk g (x :: l).
Proof.
  intros Hwf Hsucc. induction k as [|k IH]; intros x Hx.
  - exists []. split; [reflexivity | exact I].
  - destruct (Hsucc x Hx) as [v Hv].
    assert (Hvin : In v (g_nodes g)).
    { apply has_edge_ends in Hv. destruct Hv as [e [He [_ <-]]].
      destruct Hwf as [_ [_ Hends]]. now apply Hends. }
    destruct (IH v Hvin) as [l [Hl Hw]].
    exists (v :: l). split; [simpl; now rewrite Hl|].
    apply is_walk_cons. now split.
Qed.

(** X19: the starting nodes and the sinks.  In a well-formed graph
    [get_starting_nodes] lists exactly the nodes without an incoming edge and
    [get_sink_nodes] exactly the nodes without an outgoing edge; when the
    graph is acyclic and has a node, it has a starting node and a sink. *)
Theorem starting_nodes_and_sinks :
  forall g : DiGraph,
    wf g ->
    (forall n, In n (get_starting_nodes g) <->
               In n (g_nodes g) /\ forall u, has_edge g u n = false) /\
    (forall n, In n (get_sink_nodes g) <->
               In n (g_nodes g) /\ forall v, has_edge g n v = false) /\
    (acyclic g -> g_nodes g <> [] ->
     get_starting_nodes g <> [] /\ get_sink_nodes g <> []).
Proof.
  intros g Hwf.
  assert (Hstart : forall n, In n (get_starting_nodes g) <->
                             In n (g_nodes g) /\ forall u, has_edge g u n = false).
  { intros n. unfold get_starting_nodes. rewrite filter_In. split.
    - intros [Hn Hz]. split; [exact Hn|]. intros u.
      destruct (has_edge g u n) eqn:E; [|reflexivity].
      apply predecessors_iff in E. apply Nat.eqb_eq in Hz.
      destruct (predecessors g n); [destruct E | discriminate Hz].
    - intros [Hn Hno]. split; [exact Hn|]. apply Nat.eqb_eq.
      destruct (predecessors g n) as [|u l] eqn:E; [reflexivity|].
      assert (Hu : In u (predecessors g n)) by (rewrite E; now left).
      apply predecessors_iff in Hu. rewrite Hno in Hu. discriminate. }
  assert (Hsink : forall n, In n (get_sink_nodes g) <->
                            In n (g_nodes g) /\ forall v, has_edge g n v = false).
  { intros n. unfold get_sink_nodes. rewrite filter_In. split.
    - intros [Hn Hz]. split; [exact Hn|]. intros v.
      destruct (has_edge g n v) eqn:E; [|reflexivity].
      apply successors_iff in E. apply Nat.eqb_eq in Hz.
      destruct (successors g n); [destruct E | discriminate Hz].
    - intros [Hn Hno]. split; [exact Hn|]. apply Nat.eqb_eq.
      destruct (successors g n) as [|v l] eqn:E; [reflexivity|].
      assert (Hv : In v (successors g n)) by (rewrite E; now left).
      apply successors_iff in Hv. rewrite Hno in Hv. discriminate. }
  split; [exact Hstart|]. split; [exact Hsink|].
  intros Hacyc Hne. split.
  - intros Hnone. apply (Hacyc (g_nodes g) Hne). intros y Hy.
    destruct (predecessors g y) as [|z l] eqn:E.
    + exfalso. assert (Hin : In y (get_starting_nodes g)).
      { apply Hstart. split; [exact Hy|]. intros u.
        destruct (has_edge g u y) eqn:Eu; [|reflexivity].
        apply predecessors_iff in Eu. rewrite E in Eu. destruct Eu. }
      rewrite Hnone in Hin. destruct Hin.
    + assert (Hz : In z (predecessors g y)) by (rewrite E; now left).
      apply predecessors_iff in Hz. exists z. split; [|exact Hz].
      apply has_edge_ends in Hz. destruct Hz as [e [He [<- _]]].
      destruct Hwf as [_ [_ Hends]]. now apply Hends.
  - intros Hnone.
    assert (Hsucc : forall n, In n (g_nodes g) -> exists v, has_edge g n v = true).
    { intros n Hn. destruct (successors g n) as [|v l] eqn:E.
      - exfalso. assert (Hin : In n (get_sink_nodes g)).
        { apply Hsink. split; [exact Hn|]. intros v.
          destruct (has_edge g n v) eqn:Ev; [|reflexivity].
          apply successors_iff in Ev. rewrite E in Ev. destruct Ev. }
        rewrite Hnone in Hin. destruct Hin.
      - exists v. apply successors_iff. rewrite E. now left. }
    assert (Hsome : exists x, In x (g_nodes g)).
    { destruct (g_nodes g) as [|x ns]; [congruence|]. exists x. now left. }
    destruct Hsome as [x Hx].
    destruct (walks_of_any_length g Hwf Hsucc (length (g_nodes g)) x Hx) as [l [Hl Hw]].
    pose proof (walk_NoDup g Hacyc (x :: l) Hw) as Hnd.
    pose proof (walk_nodes g l Hwf x Hx Hw) as Hincl.
    pose proof (NoDup_incl_length Hnd Hincl) as Hle.
    simpl in Hle. rewrite Hl in Hle. lia.
Qed.

(** ** What main returns *)

Lemma wf_edges_NoDup (g : DiGraph) : wf g -> NoDup (g_edges g).
Proof. intros [_ [H _]]. exact (NoDup_map_inv _ _ H). Qed.

Lemma subgraph_predecessors (g' g : DiGraph) (n : node) :
  wf g' -> subgraph_of g' g ->
  length (predecessors g' n) <= length (predecessors g n).
Proof.
  intros Hwf [_ Hincl]. unfold predecessors. rewrite !length_map.
  apply NoDup_incl_length.
  - apply NoDup_filter. now apply wf_edges_NoDup.
  - intros e He. apply filter_In in He. apply filter_In. split; [apply Hincl|]; tauto.
Qed.

Lemma subgraph_successors (g' g : DiGraph) (n : node) :
  wf g' -> subgraph_of g' g ->
  length (successors g' n) <= length (successors g n).
Proof.
  intros Hwf [_ Hincl]. unfold successors. rewrite !length_map.
  apply NoDup_incl_length.
  - apply NoDup_filter. now apply wf_edges_NoDup.
  - intros e He. apply filter_In in He. apply filter_In. split; [apply Hincl|]; tauto.
Qed.

(** X20: what [main] returns.  Whenever the pipeline returns, the graph it
    ends with is well formed and made of nodes and edges of the graph built
    from the reads, with their weights; every node of it has at most one
    predecessor and at most one successor; and every contig returned comes
    with its length, which is at least k when k is 2 or more. *)
Theorem main_result :
  forall (gen : Z -> nat -> nat) (depth : nat) (reads : list string) (kmer_size : nat)
         (w w' : World) (contigs : list (string * nat)),
    main gen depth reads kmer_size w = Ok contigs w' ->
    wf (graph w') /\
    subgraph_of (graph w') (build_graph (build_kmer_dict reads kmer_size)) /\
    (forall nd, In nd (g_nodes (graph w')) ->
                length (predecessors (graph w') nd) <= 1 /\
                length (successors (graph w') nd) <= 1) /\
    (forall c n, In (c, n) contigs ->
                 n = String.length c /\ (2 <= kmer_size -> kmer_size <= n)).
Proof.
  intros gen depth reads k w w' contigs Hmain.
  pose proof (main_graph_uniform gen depth reads k w w' contigs Hmain) as [Huni Hcontigs].
  unfold main in Hmain.
  apply bind_Ok in Hmain. destruct Hmain as [r0 [w0 [H0 H]]].
  unfold Random.seed in H0. injection H0 as _ <-.
  apply bind_Ok in H. destruct H as [r1 [w1 [H1 H]]].
  unfold put_graph in H1. injection H1 as _ <-. cbn [graph rng] in H.
  apply bind_Ok in H. destruct H as [r2 [w2 [H2 H]]].
  assert (Hwf2 : wf (graph w2)).
  { refine (proj1 (simplify_bubbles_result_wf depth _ w2 r2 _ H2)).
    cbn [graph]. apply build_graph_wf. }
  apply simplify_bubbles_subgraph in H2. cbn [graph] in H2.
  apply bind_Ok in H. destruct H as [g3 [w3 [H3 H]]].
  unfold get_graph in H3. injection H3 as <- <-.
  apply bind_Ok in H. destruct H as [r4 [w4 [H4 H]]].
  pose proof (solve_entry_tips_wf _ _ _ _ _ Hwf2 H4) as Hwf4.
  pose proof (solve_entry_tips_Ok _ _ _ _ _ H4) as Hpred4.
  apply solve_entry_tips_subgraph in H4.
  apply bind_Ok in H. destruct H as [g5 [w5 [H5 H]]].
  unfold get_graph in H5. injection H5 as <- <-.
  apply bind_Ok in H. destruct H as [r6 [w6 [H6 H]]].
  pose proof (solve_out_tips_wf _ _ _ _ _ Hwf4 H6) as Hwf6.
  pose proof (solve_out_tips_Ok _ _ _ _ _ H6) as Hsucc6.
  apply solve_out_tips_subgraph in H6.
  apply bind_Ok in H. destruct H as [g7 [w7 [H7 H]]].
  unfold get_graph in H7. injection H7 as <- <-.
  apply lift_Ok in H. destruct H as [_ ->].
  split; [exact Hwf6|]. split; [|split].
  - eapply subgraph_of_trans; [exact H6|]. eapply subgraph_of_trans; eassumption.
  - intros nd Hnd. split; [|now apply Hsucc6].
    pose proof (subgraph_predecessors _ _ nd Hwf6 H6) as Hle.
    assert (Hnd4 : In nd (g_nodes (graph w4))) by (now apply (proj1 H6)).
    specialize (Hpred4 nd Hnd4). lia.
  - intros c n Hin.
    destruct (get_contigs_sound _ _ _ _ Hcontigs c n Hin)
      as [Hn [s [t [ps [p [_ [_ [Hps [Hp [_ Hlen]]]]]]]]]].
    split; [exact Hn|]. intros Hk.
    destruct (all_simple_paths_sound _ s t ps p Hps Hp) as [rest [-> [Hne _]]].
    rewrite Hn, (Hlen (k - 1)); [| lia | exact Huni].
    destruct rest as [|x rest]; [congruence|]. simpl. lia.
Qed.

(** ** read_fastq *)

Lemma py_lstrip_pad (pad s : string) :
  all_space pad = true -> py_lstrip (pad ++ s) = py_lstrip s.
Proof.
  unfold all_space. induction pad as [|c pad IH]; intros H; [reflexivity|].
  simpl in H. apply andb_true_iff in H. destruct H as [Hc H].
  simpl. rewrite Hc. now apply IH.
Qed.

Lemma py_rstrip_spaces (pad : string) : all_space pad = true -> py_rstrip pad = EmptyString.
Proof.
  unfold all_space. induction pad as [|c pad IH]; intros H; [reflexivity|].
  simpl in H. apply andb_true_iff in H. destruct H as [Hc H].
  simpl. rewrite (IH H). now rewrite Hc.
Qed.

Lemma py_rstrip_pad (s pad : string) :
  all_space pad = true -> py_rstrip (s ++ pad) = py_rstrip s.
Proof.
  intros H. induction s as [|c s IH]; simpl.
  - now apply py_rstrip_spaces.
  - now rewrite IH.
Qed.

Lemma py_rstrip_no_space (s : string) : no_space s = true -> py_rstrip s = s.
Proof.
  unfold no_space. induction s as [|c s IH]; intros H; [reflexivity|].
  simpl in H. apply andb_true_iff in H. destruct H as [Hc H].
  simpl. rewrite (IH H). apply negb_true_iff in Hc. rewrite Hc.
  now destruct s.
Qed.

Lemma py_lstrip_no_space (s : string) : no_space s = true -> py_lstrip s = s.
Proof.
  unfold no_space. destruct s as [|c s]; intros H; [reflexivity|].
  simpl in H. apply andb_true_iff in H. destruct H as [Hc _].
  simpl. apply negb_true_iff in Hc. now rewrite Hc.
Qed.

Lemma read_fastq_round (h s p q : string) (rest : list string) :
  h <> EmptyString ->
  read_fastq (h :: s :: p :: q :: rest)
  = (py_strip s :: fst (read_fastq rest), snd (read_fastq rest)).
Proof.
  intros Hh. destruct h as [|c h]; [congruence|].
  cbn [read_fastq]. now destruct (read_fastq rest).
Qed.

(** X21: what [read_fastq] yields.  On the lines of a file made of four-line
    records with non-empty headers it yields the second line of every
    record, stripped, in order, and ends normally.  On any lines none of
    which is empty, 4q + r of them with r < 4, it yields q sequences, and one
    more when r is 2 or 3; it ends normally exactly when r = 0, and otherwise
    a [next] of the body finds no line.  A sequence without white space comes
    out as it is, whatever white space surrounds it on its line. *)
Theorem read_fastq_yields :
  (forall records : list fastq_record,
      (forall r, In r records -> record_header r <> EmptyString) ->
      read_fastq (flat_map record_lines records)
      = (map (fun r => py_strip (record_sequence r)) records, Exhausted)) /\
  (forall (lines : list string) (q r : nat),
      ~ In EmptyString lines -> length lines = 4 * q + r -> r < 4 ->
      length (fst (read_fastq lines)) = q + (if 2 <=? r then 1 else 0) /\
      (snd (read_fastq lines) = Exhausted <-> r = 0)) /\
  (forall pad1 s pad2 : string,
      all_space pad1 = true -> all_space pad2 = true -> no_space s = true ->
      py_strip (pad1 ++ s ++ pad2) = s).
Proof.
  split; [|split].
  - induction records as [|r records IH]; intros Hh; [reflexivity|].
    cbn [flat_map map]. unfold record_lines at 1. cbn [app].
    rewrite read_fastq_round by (apply Hh; now left).
    now rewrite IH by (intros x Hx; apply Hh; now right).
  - intros lines q. revert lines. induction q as [|q IH]; intros lines r Hne Hlen Hr.
    + destruct lines as [|a [|b [|c [|d lines]]]]; simpl in Hlen.
      * assert (r = 0) by lia. subst r. simpl. tauto.
      * assert (r = 1) by lia. subst r.
        destruct a as [|ch a]; [exfalso; apply Hne; now left|].
        simpl. split; [reflexivity|]. split; [discriminate | lia].
      * assert (r = 2) by lia. subst r.
        destruct a as [|ch a]; [exfalso; apply Hne; now left|].
        simpl. split; [reflexivity|]. split; [discriminate | lia].
      * assert (r = 3) by lia. subst r.
        destruct a as [|ch a]; [exfalso; apply Hne; now left|].
        simpl. split; [reflexivity|]. split; [discriminate | lia].
      * lia.
    + destruct lines as [|a [|b [|c [|d lines]]]]; simpl in Hlen; try lia.
      assert (Ha : a <> EmptyString) by (intros ->; apply Hne; now left).
      rewrite (read_fastq_round a b c d lines Ha). cbn [fst snd length].
      destruct (IH lines r) as [H1 H2]; [| lia | exact Hr |].
      * intros Hin. apply Hne. now do 4 right.
      * rewrite H1. split; [lia | exact H2].
  - intros pad1 s pad2 H1 H2 Hs. unfold py_strip.
    rewrite py_lstrip_pad by exact H1.
    destruct s as [|c s].
    + cbn [append].
      assert (E : exists t, py_lstrip pad2 = t /\ all_space t = true).
      { clear -H2. unfold all_space in *. induction pad2 as [|c pad2 IH].
        - exists EmptyString. now split.
        - simpl in H2. apply andb_true_iff in H2. destruct H2 as [Hc H2].
          simpl. rewrite Hc. now apply IH. }
      destruct E as [t [-> Ht]]. now apply py_rstrip_spaces.
    + assert (Hc : is_space c = false).
      { unfold no_space in Hs. simpl in Hs. apply andb_true_iff in Hs.
        destruct Hs as [Hc _]. now apply negb_true_iff in Hc. }
      change (String c s ++ pad2)%string with (String c (s ++ pad2)).
      cbn [py_lstrip]. rewrite Hc.
      change (String c (s ++ pad2)) with (String c s ++ pad2)%string.
      rewrite py_rstrip_pad by exact H2. now apply py_rstrip_no_space.
Qed.

(** ** save_contigs *)

Lemma append_nil_r (s : string) : (s ++ EmptyString)%string = s.
Proof. induction s as [|c s IH]; simpl; [reflexivity | now rewrite IH]. Qed.

Lemma append_assoc (s1 s2 s3 : string) :
  ((s1 ++ s2) ++ s3)%string = (s1 ++ (s2 ++ s3))%string.
Proof. induction s1 as [|c s1 IH]; simpl; [reflexivity | now rewrite IH]. Qed.

Lemma save_contigs_from_acc (fill : string -> string) (l : list (string * nat)) :
  forall i acc,
    save_contigs_from fill i l acc
    = (acc ++ save_contigs_from fill i l EmptyString)%string.
Proof.
  induction l as [|[c n] l IH]; intros i acc.
  - simpl. now rewrite append_nil_r.
  - cbn [save_contigs_from]. cbv zeta.
    set (h := (">contig_" ++ py_str i ++ " len=" ++ py_str n
               ++ String "010"%char EmptyString)%string).
    change (EmptyString ++ h)%string with h.
    destruct (Nat.eqb (S i) (String.length c));
      match goal with
      | |- save_contigs_from _ _ _ ?X = (_ ++ save_contigs_from _ _ _ ?Y)%string =>
          rewrite (IH (S i) X), (IH (S i) Y)
      end;
      now rewrite !append_assoc.
Qed.

Lemma save_contigs_from_app (fill : string -> string) (l1 l2 : list (string * nat)) :
  forall i acc,
    save_contigs_from fill i (l1 ++ l2) acc
    = save_contigs_from fill (i + length l1) l2 (save_contigs_from fill i l1 acc).
Proof.
  induction l1 as [|[c n] l1 IH]; intros i acc.
  - simpl. now rewrite Nat.add_0_r.
  - cbn [app save_contigs_from length]. cbv zeta. rewrite IH.
    now replace (S i + length l1) with (i + S (length l1)) by lia.
Qed.

(** X22: the text [save_contigs] writes is the records of the contigs one
    after the other, numbered from 0: the record of the contig at index i is
    the line ">contig_i len=n", then the contig as [textwrap.fill] lays it
    out, then a line break, which is left out when the contig has exactly
    i + 1 characters: the next record, if any, then starts on the same
    line. *)
Theorem save_contigs_records :
  forall (fill : string -> string) (l1 l2 : list (string * nat)) (c : string) (n : nat),
    save_contigs fill (l1 ++ (c, n) :: l2)
    = (save_contigs fill l1
       ++ (">contig_" ++ py_str (length l1) ++ " len=" ++ py_str n
           ++ String "010"%char EmptyString)
       ++ fill c
       ++ (if Nat.eqb (String.length c) (S (length l1)) then EmptyString
           else String "010"%char EmptyString)
       ++ save_contigs_from fill (S (length l1)) l2 EmptyString)%string.
Proof.
  intros fill l1 l2 c n. unfold save_contigs.
  rewrite save_contigs_from_app. cbn [Nat.add save_contigs_from]. cbv zeta.
  set (h := (">contig_" ++ py_str (length l1) ++ " len=" ++ py_str n
             ++ String "010"%char EmptyString)%string).
  rewrite save_contigs_from_acc. rewrite Nat.eqb_sym.
  destruct (Nat.eqb (String.length c) (S (length l1)));
    change (EmptyString ++ save_contigs_from fill (S (length l1)) l2 EmptyString)%string
      with (save_contigs_from fill (S (length l1)) l2 EmptyString);
    now rewrite !append_assoc.
Qed.

(** ** solve_bubble without two paths *)

Lemma path_average_weight_of_yield (g : DiGraph) (s t : node) (ps : list path) (p : path) :
  all_simple_paths g s t = inr ps -> In p ps -> exists q, path_average_weight g p = inr q.
Proof.
  intros H Hp. destruct (all_simple_paths_sound g s t ps p H Hp)
    as [rest [-> [Hne [Hw _]]]].
  destruct rest as [|v rest]; [congruence|]. destruct Hw as [He _].
  unfold path_average_weight, Statistics.mean.
  apply has_edge_iff in He. destruct He as [c Hc].
  assert (Hin : In (s, v, c) (subgraph_edges g (s :: v :: rest))).
  { unfold subgraph_edges. apply filter_In. split; [exact Hc|].
    unfold e_src, e_dst. simpl. unfold mem. simpl.
    rewrite !String.eqb_refl. simpl. now rewrite orb_true_r. }
  destruct (subgraph_edges g (s :: v :: rest)) as [|e es]; [destruct Hin|].
  simpl. eauto.
Qed.

(** X23: [solve_bubble] without two paths.  When the ancestor is [None] or is
    not a node of the graph the call raises [NodeNotFound]; when no path
    leads from the ancestor to the descendant (as when they are the same
    node) [select_best_path] is given empty lists and the call raises
    [StatisticsError]; when exactly one path leads there the graph is
    returned as it is.  In all three cases the graph and the generator are
    untouched. *)
Theorem solve_bubble_without_two_paths :
  forall (w : World) (ancestor_node descendant_node : node),
    (forall d, solve_bubble None d w = Raise NodeNotFound w) /\
    (has_node (graph w) ancestor_node = false ->
     forall d, solve_bubble (Some ancestor_node) d w = Raise NodeNotFound w) /\
    (all_simple_paths (graph w) ancestor_node descendant_node = inr [] ->
     solve_bubble (Some ancestor_node) (Some descendant_node) w
     = Raise StatisticsError w) /\
    (has_node (graph w) ancestor_node = true ->
     solve_bubble (Some ancestor_node) (Some ancestor_node) w = Raise StatisticsError w) /\
    (forall p,
        all_simple_paths (graph w) ancestor_node descendant_node = inr [p] ->
        solve_bubble (Some ancestor_node) (Some descendant_node) w = Ok tt w).
Proof.
  intros w a d. split; [|split; [|split; [|split]]].
  - intros d'. unfold solve_bubble.
    rewrite (bind_of_Ok get_graph _ w w (graph w) eq_refl).
    apply bind_of_Raise. now destruct d'.
  - intros Hnode d'. unfold solve_bubble.
    rewrite (bind_of_Ok get_graph _ w w (graph w) eq_refl).
    apply bind_of_Raise. destruct d' as [d'|]; [|reflexivity].
    unfold all_simple_paths. now rewrite Hnode.
  - intros Hps. unfold solve_bubble.
    rewrite (bind_of_Ok get_graph _ w w (graph w) eq_refl).
    rewrite Hps. reflexivity.
  - intros Hnode. unfold solve_bubble.
    rewrite (bind_of_Ok get_graph _ w w (graph w) eq_refl).
    unfold all_simple_paths, targets_of. rewrite Hnode. cbn [negb].
    unfold mem. cbn [existsb]. rewrite String.eqb_refl. reflexivity.
  - intros p Hps. unfold solve_bubble.
    rewrite (bind_of_Ok get_graph _ w w (graph w) eq_refl).
    rewrite Hps. cbn [lift].
    rewrite (bind_of_Ok (ret [p]) _ w w [p] eq_refl).
    destruct (path_average_weight_of_yield _ _ _ _ p Hps (or_introl eq_refl)) as [q Hq].
    rewrite (bind_of_Ok _ _ _ _ _
               (mapM_lift_single (path_average_weight (graph w)) p q w Hq)).
    reflexivity.
Qed.

(** ** select_best_path and the generator *)

(** X24: what [select_best_path] takes from the generator.  A call that
    returns leaves the generator as it was when a single path is given, and
    when the weights or the lengths have a positive standard deviation; when
    neither has, it has drawn exactly once. *)
Theorem select_best_path_draws :
  forall (path_list : list path) (path_length weight_avg_list : list Q)
         (delete_entry_node delete_sink_node : bool) (w w' : World),
    length path_length = length path_list ->
    length weight_avg_list = length path_list ->
    select_best_path path_list path_length weight_avg_list
      delete_entry_node delete_sink_node w = Ok tt w' ->
    (length path_list = 1 -> w' = w) /\
    (Statistics.stdev_positive weight_avg_list = inr true \/
     Statistics.stdev_positive path_length = inr true ->
     rng w' = rng w) /\
    (2 <= length path_list ->
     Statistics.stdev_positive weight_avg_list = inr false ->
     Statistics.stdev_positive path_length = inr false ->
     rng w' = fun k => rng w (S k)).
Proof.
  intros ps ls ws de ds w w' Hls Hws H.
  destruct (Nat.eq_dec (length ps) 1) as [E1|E1].
  - assert (Hw : w' = w).
    { unfold select_best_path in H. rewrite E1 in H. cbn in H. now injection H as <-. }
    subst w'. split; [reflexivity|]. split; [reflexivity|]. intros H2. lia.
  - split; [intros; contradiction|].
    assert (H2 : 2 <= length ps).
    { destruct ps as [|p [|p' ps]]; simpl in *; try lia.
      exfalso. destruct ws; [|discriminate Hws].
      unfold select_best_path in H. cbn in H. discriminate H. }
    destruct (select_best_path_selects ps ls ws de ds w H2 Hls Hws)
      as [i [w1 [_ [_ [Hsel Hcases]]]]].
    rewrite Hsel in H. apply remove_paths_Ok in H. destruct H as [_ Hrng].
    split.
    + intros Hpos.
      destruct Hcases as [[_ [_ ->]] | [[_ [_ [_ ->]]] | [Hw0 [Hl0 _]]]];
        try exact Hrng.
      destruct Hpos as [Hpos|Hpos]; congruence.
    + intros _ Hw0 Hl0.
      destruct Hcases as [[Hw1 _] | [[_ [Hl1 _]] | [_ [_ Hrand]]]]; try congruence.
      rewrite Hrng. unfold Random.randint in Hrand.
      destruct (Z.of_nat (length ps) - 1 <? 0)%Z; [discriminate|].
      now injection Hrand as _ <-.
Qed.

(** ** One contig per starting node *)

Section SingleSuccessor.

Variable g : DiGraph.
Hypothesis g_wf : wf g.
Hypothesis g_single :
  forall nd, In nd (g_nodes g) -> length (successors g nd) <= 1.

Lemma single_successor_everywhere (u : node) : length (successors g u) <= 1.
Proof.
  destruct (successors g u) as [|v l] eqn:E; [simpl; lia|].
  rewrite <- E. apply g_single.
  assert (Hv : In v (successors g u)) by (rewrite E; now left).
  apply successors_iff, has_edge_ends in Hv. destruct Hv as [e [He [<- _]]].
  destruct g_wf as [_ [_ Hends]]. now apply Hends.
Qed.

Lemma simple_paths_from_single (t : node) :
  forall depth visited u, length (simple_paths_from depth g [t] visited u) <= 1.
Proof.
  induction depth as [|d IH]; intros visited u; [simpl; lia|].
  cbn [simple_paths_from]. pose proof (single_successor_everywhere u) as Hs.
  destruct (successors g u) as [|c [|c' l]]; [simpl; lia | | simpl in Hs; lia].
  cbn [flat_map]. rewrite app_nil_r.
  destruct (mem c visited); [simpl; lia|].
  unfold mem at 1. cbn [existsb forallb]. rewrite orb_false_r, andb_true_r.
  destruct (String.eqb c t) eqn:E.
  - apply String.eqb_eq in E. subst c.
    replace (mem t (visited ++ [t])) with true; [simpl; lia|].
    symmetry. apply mem_In. apply in_or_app. right. now left.
  - cbn [app]. destruct (mem t (visited ++ [c])); [simpl; lia | apply IH].
Qed.

Lemma all_simple_paths_single (s t : node) (ps : list path) :
  In t (g_nodes g) -> all_simple_paths g s t = inr ps -> length ps <= 1.
Proof.
  intros Ht. unfold all_simple_paths, targets_of.
  replace (has_node g t) with true by (symmetry; now apply has_node_In).
  destruct (has_node g s); cbn [negb]; [|discriminate].
  destruct (mem s [t]); intros H; injection H as <-; [simpl; lia|].
  apply simple_paths_from_single.
Qed.

Lemma walk_to_sink_unique (l1 : list node) :
  forall s l2,
    is_walk g (s :: l1) -> is_walk g (s :: l2) ->
    successors g (last l1 s) = [] -> successors g (last l2 s) = [] ->
    l1 = l2.
Proof.
  induction l1 as [|a l1 IH]; intros s l2 H1 H2 E1 E2.
  - destruct l2 as [|b l2]; [reflexivity|]. exfalso.
    destruct H2 as [Hb _]. apply successors_iff in Hb. cbn [last] in E1.
    rewrite E1 in Hb. destruct Hb.
  - destruct l2 as [|b l2].
    + exfalso. destruct H1 as [Ha _]. apply successors_iff in Ha. cbn [last] in E2.
      rewrite E2 in Ha. destruct Ha.
    + apply is_walk_cons in H1. apply is_walk_cons in H2.
      destruct H1 as [Ha H1], H2 as [Hb H2].
      apply successors_iff in Ha. apply successors_iff in Hb.
      pose proof (single_successor_everywhere s) as Hs.
      assert (Hab : a = b).
      { destruct (successors g s) as [|c [|c' l]]; simpl in Hs; try lia.
        - destruct Ha.
        - destruct Ha as [<-|[]], Hb as [<-|[]]. reflexivity. }
      subst b. f_equal. rewrite last_cons in E1, E2. exact (IH a l2 H1 H2 E1 E2).
Qed.

Lemma one_sink_per_start (s t1 t2 : node) (ps1 ps2 : list path) (p1 p2 : path) :
  In t1 (get_sink_nodes g) -> In t2 (get_sink_nodes g) ->
  all_simple_paths g s t1 = inr ps1 -> In p1 ps1 ->
  all_simple_paths g s t2 = inr ps2 -> In p2 ps2 ->
  t1 = t2.
Proof.
  intros Ht1 Ht2 H1 Hp1 H2 Hp2.
  unfold get_sink_nodes in Ht1, Ht2. apply filter_In in Ht1. apply filter_In in Ht2.
  destruct Ht1 as [Hn1 Hz1], Ht2 as [Hn2 Hz2].
  apply Nat.eqb_eq, length_zero_iff_nil in Hz1.
  apply Nat.eqb_eq, length_zero_iff_nil in Hz2.
  destruct (all_simple_paths_sound g s t1 ps1 p1 H1 Hp1) as [r1 [-> [_ [Hw1 [Hl1 _]]]]].
  destruct (all_simple_paths_sound g s t2 ps2 p2 H2 Hp2) as [r2 [-> [_ [Hw2 [Hl2 _]]]]].
  unfold targets_of in Hl1, Hl2.
  replace (has_node g t1) with true in Hl1 by (symmetry; now apply has_node_In).
  replace (has_node g t2) with true in Hl2 by (symmetry; now apply has_node_In).
  destruct Hl1 as [Hl1|[]], Hl2 as [Hl2|[]].
  assert (E : r1 = r2).
  { apply (walk_to_sink_unique r1 s r2 Hw1 Hw2); congruence. }
  subst r2. congruence.
Qed.

End SingleSuccessor.

Lemma contigs_of_paths_length (ps : list path) :
  forall cs, contigs_of_paths ps = inr cs -> length cs = length ps.
Proof.
  induction ps as [|p ps IH]; intros cs H; simpl in H.
  - now injection H as <-.
  - destruct (contig_of_path p) as [e|c]; [discriminate|].
    destruct (contigs_of_paths ps) as [e|cs']; [discriminate|].
    injection H as <-. simpl. now rewrite (IH cs' eq_refl).
Qed.

Lemma concat_results_app {A : Type} (l1 l2 : list (exn + list A)) (r : list A) :
  concat_results (l1 ++ l2) = inr r ->
  exists r1 r2, concat_results l1 = inr r1 /\ concat_results l2 = inr r2 /\ r = r1 ++ r2.
Proof.
  revert r. induction l1 as [|y l1 IH]; intros r H.
  - exists [], r. now repeat split.
  - cbn [app concat_results] in H. destruct y as [e|xs]; [discriminate|].
    destruct (concat_results (l1 ++ l2)) as [e|r'] eqn:E; [discriminate|].
    injection H as <-. destruct (IH r' eq_refl) as [r1 [r2 [H1 [H2 ->]]]].
    exists (xs ++ r1), r2. cbn [concat_results]. rewrite H1.
    repeat split; [exact H2 | now rewrite app_assoc].
Qed.

Lemma contigs_row (g : DiGraph) (s : node) :
  wf g ->
  (forall nd, In nd (g_nodes g) -> length (successors g nd) <= 1) ->
  forall (ends : list node) (r : list (string * nat)),
    NoDup ends -> (forall e, In e ends -> In e (get_sink_nodes g)) ->
    concat_results (map (fun end_ => match all_simple_paths g s end_ with
                                     | inl e => inl e
                                     | inr ps => contigs_of_paths ps
                                     end) ends) = inr r ->
    length r <= 1 /\
    (r <> [] -> exists e ps p, In e ends /\ all_simple_paths g s e = inr ps /\ In p ps).
Proof.
  intros Hwf Hsingle. induction ends as [|e ends IH]; intros r Hnd Hsinks H.
  - simpl in H. injection H as <-. split; [simpl; lia | congruence].
  - cbn [map concat_results] in H.
    destruct (all_simple_paths g s e) as [ex|ps] eqn:Eps; [discriminate|].
    destruct (contigs_of_paths ps) as [ex|xs] eqn:Exs; [discriminate|].
    destruct (concat_results _) as [ex|r'] eqn:Er; [discriminate|].
    injection H as <-.
    apply NoDup_cons_iff in Hnd. destruct Hnd as [He Hnd].
    destruct (IH r' Hnd (fun x Hx => Hsinks x (or_intror Hx)) eq_refl) as [Hlen Hsome].
    assert (Hen : In e (g_nodes g)).
    { specialize (Hsinks e (or_introl eq_refl)). unfold get_sink_nodes in Hsinks.
      apply filter_In in Hsinks. tauto. }
    pose proof (all_simple_paths_single g Hwf Hsingle s e ps Hen Eps) as Hps.
    pose proof (contigs_of_paths_length ps xs Exs) as Hxs.
    destruct ps as [|p ps].
    + destruct xs; [|discriminate Hxs]. cbn [app]. split; [exact Hlen|].
      intros Hr. destruct (Hsome Hr) as [e' [ps' [p' [H1 [H2 H3]]]]].
      exists e', ps', p'. split; [now right | now split].
    + destruct r' as [|x r'].
      * rewrite app_nil_r. split; [rewrite Hxs; exact Hps|].
        intros _. exists e, (p :: ps), p. split; [now left|]. split; [exact Eps | now left].
      * exfalso. destruct Hsome as [e' [ps' [p' [H1 [H2 H3]]]]]; [discriminate|].
        apply He.
        rewrite (one_sink_per_start g Hwf Hsingle s e e' (p :: ps) ps' p p'
                   (Hsinks e (or_introl eq_refl)) (Hsinks e' (or_intror H1))
                   Eps (or_introl eq_refl) H2 H3).
        exact H1.
Qed.

Lemma get_contigs_one_per_start (g : DiGraph) (starting_nodes : list node)
    (contigs : list (string * nat)) :
  wf g ->
  (forall nd, In nd (g_nodes g) -> length (successors g nd) <= 1) ->
  get_contigs g starting_nodes (get_sink_nodes g) = inr contigs ->
  length contigs <= length starting_nodes.
Proof.
  intros Hwf Hsingle. unfold get_contigs. revert contigs.
  induction starting_nodes as [|s starts IH]; intros contigs H.
  - simpl in H. injection H as <-. simpl. lia.
  - cbn [flat_map] in H. apply concat_results_app in H.
    destruct H as [r1 [r2 [H1 [H2 ->]]]].
    destruct (contigs_row g s Hwf Hsingle (get_sink_nodes g) r1) as [Hr1 _];
      [| intros e He; exact He | exact H1 |].
    + unfold get_sink_nodes. apply NoDup_filter. now destruct Hwf.
    + rewrite length_app. specialize (IH r2 H2). simpl. lia.
Qed.

(** X25: one contig at most per starting node.  In a well-formed graph where
    no node has more than one successor, [all_simple_paths] yields at most
    one path to a node, a starting node leads to one sink at most, and
    [get_contigs] with the sinks of the graph as ending nodes returns no more
    contigs than there are starting nodes.  So does [main], whose final graph
    is such a graph. *)
Theorem one_contig_per_starting_node :
  (forall (g : DiGraph) (starting_nodes : list node) (contigs : list (string * nat)),
      wf g ->
      (forall nd, In nd (g_nodes g) -> length (successors g nd) <= 1) ->
      (forall s t ps, In t (g_nodes g) -> all_simple_paths g s t = inr ps ->
                      length ps <= 1) /\
      (get_contigs g starting_nodes (get_sink_nodes g) = inr contigs ->
       length contigs <= length starting_nodes)) /\
  (forall (gen : Z -> nat -> nat) (depth : nat) (reads : list string) (kmer_size : nat)
          (w w' : World) (contigs : list (string * nat)),
      main gen depth reads kmer_size w = Ok contigs w' ->
      length contigs <= length (get_starting_nodes (graph w'))).
Proof.
  split.
  - intros g starts contigs Hwf Hsingle. split.
    + intros s t ps. now apply all_simple_paths_single.
    + now apply get_contigs_one_per_start.
  - intros gen depth reads k w w' contigs Hmain.
    pose proof (main_graph_uniform gen depth reads k w w' contigs Hmain) as [_ Hc].
    unfold main in Hmain.
    apply bind_Ok in Hmain. destruct Hmain as [r0 [w0 [H0 H]]].
    unfold Random.seed in H0. injection H0 as _ <-.
    apply bind_Ok in H. destruct H as [r1 [w1 [H1 H]]].
    unfold put_graph in H1. injection H1 as _ <-. cbn [graph rng] in H.
    apply bind_Ok in H. destruct H as [r2 [w2 [H2 H]]].
    assert (Hwf2 : wf (graph w2)).
    { refine (proj1 (simplify_bubbles_result_wf depth _ w2 r2 _ H2)).
      cbn [graph]. apply build_graph_wf. }
    apply bind_Ok in H. destruct H as [g3 [w3 [H3 H]]].
    unfold get_graph in H3. injection H3 as <- <-.
    apply bind_Ok in H. destruct H as [r4 [w4 [H4 H]]].
    pose proof (solve_entry_tips_wf _ _ _ _ _ Hwf2 H4) as Hwf4.
    apply bind_Ok in H. destruct H as [g5 [w5 [H5 H]]].
    unfold get_graph in H5. injection H5 as <- <-.
    apply bind_Ok in H. destruct H as [r6 [w6 [H6 H]]].
    pose proof (solve_out_tips_wf _ _ _ _ _ Hwf4 H6) as Hwf6.
    pose proof (solve_out_tips_Ok _ _ _ _ _ H6) as Hsucc6.
    apply bind_Ok in H. destruct H as [g7 [w7 [H7 H]]].
    unfold get_graph in H7. injection H7 as <- <-.
    apply lift_Ok in H. destruct H as [_ ->].
    exact (get_contigs_one_per_start _ _ _ Hwf6 Hsucc6 Hc).
Qed.

(** ** The scan of simplify_bubbles after a bubble is found *)

Lemma scan_eta (s : scan) :
  noeud_ancetre s = None -> mkScan (bubble s) None (noeud_descendant s) = s.
Proof. destruct s as [b a d]. simpl. now intros ->. Qed.

Lemma scan_pairs_j_keeps (g : DiGraph) (nd node_i : node) (js : list node) :
  (forall node_j, In node_j js -> lowest_common_ancestor g node_i node_j = inr None) ->
  forall s, noeud_ancetre s = None -> scan_pairs_j g nd node_i js s = inr s.
Proof.
  induction js as [|node_j js IH]; intros Hall s Hs; [reflexivity|].
  cbn [scan_pairs_j]. rewrite (Hall node_j (or_introl eq_refl)).
  rewrite (scan_eta s Hs). apply IH; [|exact Hs].
  intros n Hn. apply Hall. now right.
Qed.

Lemma scan_pairs_j_clears (g : DiGraph) (nd node_i : node) (js : list node) :
  (forall node_j, In node_j js -> lowest_common_ancestor g node_i node_j = inr None) ->
  js <> [] ->
  forall s, scan_pairs_j g nd node_i js s
            = inr (mkScan (bubble s) None (noeud_descendant s)).
Proof.
  intros Hall Hne s. destruct js as [|node_j js]; [congruence|].
  cbn [scan_pairs_j]. rewrite (Hall node_j (or_introl eq_refl)).
  apply scan_pairs_j_keeps; [|reflexivity]. intros n Hn. apply Hall. now right.
Qed.

Lemma scan_pairs_i_keeps (g : DiGraph) (nd : node) (node_predecc : list node) :
  (forall l1 node_i l2, node_predecc = l1 ++ node_i :: l2 ->
     forall node_j, In node_j l2 -> lowest_common_ancestor g node_i node_j = inr None) ->
  forall s, noeud_ancetre s = None -> scan_pairs_i g nd node_predecc s = inr s.
Proof.
  induction node_predecc as [|n rest IH]; intros Hall s Hs; [reflexivity|].
  cbn [scan_pairs_i].
  rewrite (scan_pairs_j_keeps g nd n rest (Hall [] n rest eq_refl) s Hs).
  destruct (bubble s); [reflexivity|]. apply IH; [|exact Hs].
  intros l1 ni l2 Heq. exact (Hall (n :: l1) ni l2 (f_equal (cons n) Heq)).
Qed.

Lemma scan_pairs_i_clears (g : DiGraph) (nd : node) (node_predecc : list node) :
  (forall l1 node_i l2, node_predecc = l1 ++ node_i :: l2 ->
     forall node_j, In node_j l2 -> lowest_common_ancestor g node_i node_j = inr None) ->
  1 < length node_predecc ->
  forall s, scan_pairs_i g nd node_predecc s
            = inr (mkScan (bubble s) None (noeud_descendant s)).
Proof.
  intros Hall Hlen s. destruct node_predecc as [|n tl]; [simpl in Hlen; lia|].
  assert (Htl : tl <> []) by (destruct tl; simpl in Hlen; [lia | discriminate]).
  cbn [scan_pairs_i].
  rewrite (scan_pairs_j_clears g nd n tl (Hall [] n tl eq_refl) Htl).
  cbn [bubble]. destruct (bubble s); [reflexivity|].
  apply scan_pairs_i_keeps; [|reflexivity].
  intros l1 ni l2 Heq. exact (Hall (n :: l1) ni l2 (f_equal (cons n) Heq)).
Qed.

Lemma scan_nodes_keeps (g : DiGraph) (ns : list node) :
  (forall nd, In nd ns -> 1 < length (predecessors g nd) ->
     forall l1 node_i l2, predecessors g nd = l1 ++ node_i :: l2 ->
       forall node_j, In node_j l2 -> lowest_common_ancestor g node_i node_j = inr None) ->
  forall s, noeud_ancetre s = None -> scan_nodes g ns s = inr s.
Proof.
  induction ns as [|n rest IH]; intros Hall s Hs; [reflexivity|].
  cbn [scan_nodes].
  destruct (Nat.ltb_spec 1 (length (predecessors g n))) as [Hlt|Hge].
  - rewrite (scan_pairs_i_keeps g n (predecessors g n)
               (Hall n (or_introl eq_refl) Hlt) s Hs).
    apply IH; [|exact Hs]. intros nd Hnd. apply Hall. now right.
  - apply IH; [|exact Hs]. intros nd Hnd. apply Hall. now right.
Qed.

Lemma scan_nodes_app (g : DiGraph) (l1 l2 : list node) :
  forall s,
    scan_nodes g (l1 ++ l2) s
    = match scan_nodes g l1 s with
      | inl e => inl e
      | inr s1 => scan_nodes g l2 s1
      end.
Proof.
  induction l1 as [|n l1 IH]; intros s; [reflexivity|].
  cbn [app scan_nodes]. destruct (1 <? length (predecessors g n)).
  - destruct (scan_pairs_i g n (predecessors g n) s) as [e|s']; [reflexivity | apply IH].
  - apply IH.
Qed.

(** In an acyclic well-formed graph the scan raises nothing. *)
Lemma lowest_common_ancestor_defined (g : DiGraph) (n1 n2 : node) :
  is_directed_acyclic_graph g = true -> In n1 (g_nodes g) -> In n2 (g_nodes g) ->
  exists r, lowest_common_ancestor g n1 n2 = inr r.
Proof.
  intros Hdag H1 H2. unfold lowest_common_ancestor. rewrite Hdag. cbn [negb].
  destruct (g_nodes g) as [|x ns] eqn:En; [destruct H1|]. cbn [length Nat.eqb].
  rewrite <- En in *.
  replace (has_node g n1) with true by (symmetry; now apply has_node_In).
  replace (has_node g n2) with true by (symmetry; now apply has_node_In).
  cbn [andb negb]. destruct (filter _ _); eauto.
Qed.

Lemma scan_pairs_j_defined (g : DiGraph) (nd node_i : node) (js : list node) :
  is_directed_acyclic_graph g = true -> In node_i (g_nodes g) ->
  (forall j, In j js -> In j (g_nodes g)) ->
  forall s, exists s', scan_pairs_j g nd node_i js s = inr s'.
Proof.
  intros Hdag Hi. induction js as [|j js IH]; intros Hjs s; [simpl; eauto|].
  cbn [scan_pairs_j].
  destruct (lowest_common_ancestor_defined g node_i j Hdag Hi (Hjs j (or_introl eq_refl)))
    as [[a|] ->]; [eauto|].
  apply IH. intros x Hx. apply Hjs. now right.
Qed.

Lemma scan_pairs_i_defined (g : DiGraph) (nd : node) (node_predecc : list node) :
  is_directed_acyclic_graph g = true ->
  (forall j, In j node_predecc -> In j (g_nodes g)) ->
  forall s, exists s', scan_pairs_i g nd node_predecc s = inr s'.
Proof.
  intros Hdag. induction node_predecc as [|n rest IH]; intros Hin s; [simpl; eauto|].
  cbn [scan_pairs_i].
  destruct (scan_pairs_j_defined g nd n rest Hdag (Hin n (or_introl eq_refl))
              (fun j Hj => Hin j (or_intror Hj)) s) as [s1 ->].
  destruct (bubble s1); [eauto|]. apply IH. intros j Hj. apply Hin. now right.
Qed.

Lemma scan_nodes_defined (g : DiGraph) (ns : list node) :
  wf g -> is_directed_acyclic_graph g = true ->
  forall s, exists s', scan_nodes g ns s = inr s'.
Proof.
  intros Hwf Hdag. induction ns as [|n rest IH]; intros s; [simpl; eauto|].
  cbn [scan_nodes]. destruct (1 <? length (predecessors g n)); [|apply IH].
  destruct (scan_pairs_i_defined g n (predecessors g n) Hdag) with (s := s) as [s1 ->].
  - intros j Hj. apply predecessors_iff, has_edge_ends in Hj.
    destruct Hj as [e [He [<- _]]]. destruct Hwf as [_ [_ Hends]]. now apply Hends.
  - apply IH.
Qed.

Lemma scan_loses_the_bubble (g : DiGraph) (ns1 ns2 : list node) (nd : node) :
  wf g -> is_directed_acyclic_graph g = true ->
  g_nodes g = ns1 ++ nd :: ns2 ->
  (exists nd0 l1 node_i l2 node_j a,
      In nd0 ns1 /\ predecessors g nd0 = l1 ++ node_i :: l2 /\ In node_j l2 /\
      lowest_common_ancestor g node_i node_j = inr (Some a)) ->
  1 < length (predecessors g nd) ->
  (forall n, In n (nd :: ns2) -> 1 < length (predecessors g n) ->
     forall l1 node_i l2, predecessors g n = l1 ++ node_i :: l2 ->
       forall node_j, In node_j l2 -> lowest_common_ancestor g node_i node_j = inr None) ->
  exists d, scan_bubbles g = inr (mkScan true None d).
Proof.
  intros Hwf Hdag Hnodes [nd0 [l1 [ni [l2 [nj [a [H0 [Hp [Hj Hlca]]]]]]]]] Hlen Hnone.
  unfold scan_bubbles. rewrite Hnodes, scan_nodes_app.
  destruct (scan_nodes_defined g ns1 Hwf Hdag (mkScan false None None)) as [s1 Hs1].
  rewrite Hs1.
  assert (Hb : bubble s1 = true).
  { destruct (bubble s1) eqn:E; [reflexivity|]. exfalso.
    destruct (scan_nodes_none g ns1 _ _ Hs1 E) as [_ Hall].
    assert (Hl0 : 1 < length (predecessors g nd0)).
    { rewrite Hp, length_app. simpl. destruct l2; [destruct Hj | simpl; lia]. }
    rewrite (Hall nd0 H0 Hl0 l1 ni l2 Hp nj Hj) in Hlca. discriminate. }
  cbn [scan_nodes].
  replace (1 <? length (predecessors g nd)) with true
    by (symmetry; now apply Nat.ltb_lt).
  rewrite (scan_pairs_i_clears g nd (predecessors g nd)
             (Hnone nd (or_introl eq_refl) Hlen) Hlen s1).
  rewrite Hb. exists (noeud_descendant s1).
  apply scan_nodes_keeps; [|reflexivity].
  intros n Hn. apply Hnone. now right.
Qed.

Lemma simplify_bubbles_after_lost_bubble (depth : nat) (w : World) (d : option node) :
  scan_bubbles (graph w) = inr (mkScan true None d) ->
  simplify_bubbles (S depth) w = Raise NodeNotFound w.
Proof.
  intros Hscan. cbn [simplify_bubbles].
  rewrite (bind_of_Ok get_graph _ w w (graph w) eq_refl).
  rewrite Hscan. cbn [lift].
  rewrite (bind_of_Ok (ret _) _ w w (mkScan true None d) eq_refl).
  cbn [bubble noeud_ancetre noeud_descendant].
  apply bind_of_Raise. unfold solve_bubble.
  rewrite (bind_of_Ok get_graph _ w w (graph w) eq_refl).
  apply bind_of_Raise. reflexivity.
Qed.

(** X26: a bubble found and lost.  The scan of [simplify_bubbles] goes on
    after a bubble is found, and every later pair of predecessors without a
    common ancestor resets the ancestor to [None].  In an acyclic well-formed
    graph, if a node has two predecessors with a common ancestor and a later
    node (in node order) has more than one predecessor, while neither this
    node nor any node after it has two predecessors with a common ancestor,
    then the scan ends with a bubble and no ancestor, and [simplify_bubbles]
    raises [NodeNotFound], the graph untouched.  So does [main] when the
    graph of the reads is such a graph: a bubble followed by an entry tip. *)
Theorem simplify_bubbles_loses_the_bubble :
  forall (g : DiGraph) (ns1 ns2 : list node) (nd : node),
    wf g -> is_directed_acyclic_graph g = true ->
    g_nodes g = ns1 ++ nd :: ns2 ->
    (exists nd0 l1 node_i l2 node_j a,
        In nd0 ns1 /\ predecessors g nd0 = l1 ++ node_i :: l2 /\ In node_j l2 /\
        lowest_common_ancestor g node_i node_j = inr (Some a)) ->
    1 < length (predecessors g nd) ->
    (forall n, In n (nd :: ns2) -> 1 < length (predecessors g n) ->
       forall l1 node_i l2, predecessors g n = l1 ++ node_i :: l2 ->
         forall node_j, In node_j l2 ->
           lowest_common_ancestor g node_i node_j = inr None) ->
    (forall depth r, simplify_bubbles (S depth) (mkWorld g r)
                     = Raise NodeNotFound (mkWorld g r)) /\
    (forall gen depth reads kmer_size w,
        build_graph (build_kmer_dict reads kmer_size) = g ->
        main gen (S depth) reads kmer_size w
        = Raise NodeNotFound (mkWorld g (gen 9001%Z))).
Proof.
  intros g ns1 ns2 nd Hwf Hdag Hnodes Hbubble Hlen Hnone.
  destruct (scan_loses_the_bubble g ns1 ns2 nd Hwf Hdag Hnodes Hbubble Hlen Hnone)
    as [d Hscan].
  split.
  - intros depth r. now apply (simplify_bubbles_after_lost_bubble depth _ d).
  - intros gen depth reads k w Hg. unfold main. rewrite Hg.
    rewrite (bind_of_Ok (Random.seed gen 9001) _ w (mkWorld (graph w) (gen 9001%Z)) tt
               eq_refl).
    rewrite (bind_of_Ok (put_graph g) _ (mkWorld (graph w) (gen 9001%Z))
               (mkWorld g (gen 9001%Z)) tt eq_refl).
    apply bind_of_Raise. now apply (simplify_bubbles_after_lost_bubble depth _ d).
Qed.

End AnyOrder.

(** * The nodes that solve_bubble keeps *)

Lemma node_pair_eq_dec (a b : node * node) : {a = b} + {a <> b}.
Proof. decide equality; apply string_dec. Qed.

(** A list of node pairs asks for no pair twice and for edges of the graph
    only, or it has a first pair that was asked for before or is no edge. *)
Lemma first_missing_edge (g : DiGraph) (l : list (node * node)) :
  (NoDup l /\ forall uv, In uv l -> has_edge g (fst uv) (snd uv) = true) \/
  exists l1 u v l2,
    l = l1 ++ (u, v) :: l2 /\ NoDup l1 /\
    (forall uv, In uv l1 -> has_edge g (fst uv) (snd uv) = true) /\
    (In (u, v) l1 \/ has_edge g u v = false).
Proof.
  induction l as [|[u v] l IH] using rev_ind.
  - left. split; [constructor | intros ? []].
  - destruct IH as [[Hnd Hall] | [l1 [u0 [v0 [l2 [-> H]]]]]].
    + destruct (in_dec node_pair_eq_dec (u, v) l) as [Hin|Hnin].
      { right. exists l, u, v, []. auto. }
      destruct (has_edge g u v) eqn:He.
      * left. split.
        -- apply (Permutation_NoDup (Permutation_cons_append l (u, v))).
           now constructor.
        -- intros uv Hin. apply in_app_or in Hin.
           destruct Hin as [Hin|[<-|[]]]; [now apply Hall | exact He].
      * right. exists l, u, v, []. auto.
    + right. exists l1, u0, v0, (l2 ++ [(u, v)]).
      split; [now rewrite <- app_assoc | exact H].
Qed.

(** The loop of [remove_edge] calls returns only when every edge it is asked
    to remove is an edge of the graph, and none is asked for twice: two paths
    of the list share no edge. *)
Lemma remove_all_path_edges_Ok_once (ps : list path) (w w' : World) (r : unit) :
  remove_all_path_edges ps w = Ok r w' ->
  NoDup (flat_map path_edges ps) /\
  forall uv, In uv (flat_map path_edges ps) ->
             has_edge (graph w) (fst uv) (snd uv) = true.
Proof.
  intros H.
  destruct (first_missing_edge (graph w) (flat_map path_edges ps))
    as [Hok|[l1 [u [v [l2 [Hl [Hnd [Hall Hbad]]]]]]]]; [exact Hok|].
  rewrite (remove_all_path_edges_fails ps w l1 u v l2 Hl Hnd Hall Hbad) in H.
  discriminate H.
Qed.

(** C7, as the code has it.  [solve_bubble] asks for no end node to be
    deleted.  With one path nothing changes.  With two or more, position [i]
    is the one the policy of [select_best_path] selects, on the weights and
    the lengths that [solve_bubble] computes; the loop of [remove_edge] calls
    takes the edges of the other paths away, which leaves the world [w2];
    for the call to return, these are edges of the graph and none is asked
    for twice.  Then exactly the nodes without an edge in [w2] are dropped,
    and no edge with them.  So a node is dropped only if no edge is left at
    it once the edges of the losing paths are removed; and when the kept path
    shares no edge with a losing one, the ancestor and the descendant are
    both nodes of the returned graph. *)
Theorem solve_bubble_keeps_nodes_with_an_edge :
  forall (ancestor_node descendant_node : node) (w w' : World),
    has_node (graph w) descendant_node = true ->
    solve_bubble (Some ancestor_node) (Some descendant_node) w = Ok tt w' ->
    exists (paths : list path) (weights : list Q),
      all_simple_paths (graph w) ancestor_node descendant_node = inr paths /\
      mapM (fun p => lift (path_average_weight (graph w) p)) paths w = Ok weights w /\
      ((length paths = 1 /\ w' = w) \/
       (2 <= length paths /\
        exists (i : nat) (w1 w2 : World),
          let lengths := map path_len paths in
          let kept := nth i paths [] in
          let losing := without_nth i paths in
          i < length paths /\
          ((Statistics.stdev_positive weights = inr true /\
            first_argmax weights i /\ w1 = w)
           \/ (Statistics.stdev_positive weights = inr false /\
               Statistics.stdev_positive lengths = inr true /\
               first_argmax lengths i /\ w1 = w)
           \/ (Statistics.stdev_positive weights = inr false /\
               Statistics.stdev_positive lengths = inr false /\
               Random.randint 0 (Z.of_nat (length paths) - 1) w = Ok (Z.of_nat i) w1)) /\
          remove_all_path_edges losing w1 = Ok tt w2 /\
          NoDup (flat_map path_edges losing) /\
          (forall uv, In uv (flat_map path_edges losing) ->
                      has_edge (graph w) (fst uv) (snd uv) = true) /\
          g_nodes (graph w2) = g_nodes (graph w) /\
          g_edges (graph w2)
          = filter (fun e => negb (on_paths losing e)) (g_edges (graph w)) /\
          graph w' = remove_nodes_from (graph w2) (isolates (graph w2)) /\
          g_edges (graph w') = g_edges (graph w2) /\
          (forall n, In n (g_nodes (graph w')) <->
                     In n (g_nodes (graph w)) /\ degree (graph w2) n <> 0) /\
          ((forall e, on_path kept e = true -> on_paths losing e = false) ->
           In ancestor_node (g_nodes (graph w')) /\
           In descendant_node (g_nodes (graph w'))))).
Proof.
  intros a d w w' Hd H. unfold solve_bubble in H.
  apply bind_Ok in H. destruct H as [g [w0 [H0 H]]].
  unfold get_graph in H0. injection H0 as <- <-.
  apply bind_Ok in H. destruct H as [paths [w0 [Hp H]]].
  apply lift_Ok in Hp. destruct Hp as [Hp ->].
  apply bind_Ok in H. destruct H as [weights [w0 [Hws H]]].
  destruct (mapM_lift_Ok _ _ _ _ _ Hws) as [-> Hlen].
  exists paths, weights. split; [exact Hp|]. split; [exact Hws|].
  destruct (Nat.eq_dec (length paths) 1) as [Hone|Hne].
  { left. split; [exact Hone|]. unfold select_best_path in H.
    rewrite Hone in H. unfold ret in H. simpl in H. now injection H as <-. }
  right.
  assert (H2 : 2 <= length paths).
  { destruct paths as [|p [|q ps]]; [|simpl in Hne; congruence | simpl; lia].
    destruct weights; [|discriminate Hlen]. discriminate H. }
  split; [exact H2|].
  destruct (select_best_path_selects paths (map path_len paths) weights false false w
              H2 (length_map _ _) Hlen) as [i [w1 [Hi [Hg1 [Hrun Hpol]]]]].
  rewrite Hrun in H.
  pose proof (remove_paths_Ok _ _ _ _ _ _ H) as [Hg _].
  unfold remove_paths in H. apply bind_Ok in H. destruct H as [[] [w2 [He _]]].
  destruct (remove_all_path_edges_Ok _ _ _ _ He) as [_ [Hn2 He2]].
  destruct (remove_all_path_edges_Ok_once _ _ _ _ He) as [Hnd Hall].
  rewrite Hg1 in Hg, Hn2, He2, Hall.
  assert (Hw2 : graph w' = remove_nodes_from (graph w2) (isolates (graph w2))).
  { rewrite Hg. unfold without_paths. destruct (graph w2) as [ns es].
    simpl in Hn2, He2. now rewrite Hn2, He2. }
  exists i, w1, w2. cbv zeta.
  split; [exact Hi|]. split; [exact Hpol|]. split; [exact He|].
  split; [exact Hnd|]. split; [exact Hall|].
  split; [exact Hn2|]. split; [exact He2|]. split; [exact Hw2|].
  split; [rewrite Hw2; apply remove_isolates_edges|].
  split; [intros n; rewrite Hw2, <- Hn2; apply remove_isolates_nodes|].
  intros Hshare.
  destruct (all_simple_paths_sound _ _ _ _ (nth i paths []) Hp (nth_In _ _ Hi))
    as [rest [Hq [Hrest [Hw [Hl _]]]]].
  unfold targets_of in Hl. rewrite Hd in Hl. destruct Hl as [Hl|[]].
  rewrite Hq in Hw, Hshare. rewrite Hg.
  assert (Hkeep : forall e, In e (g_edges (graph w)) ->
                            on_path (a :: rest) e = true ->
                            In e (g_edges (without_paths (graph w)
                                             (without_nth i paths) false false))).
  { intros e He' Hon. apply without_paths_edge_iff.
    split; [exact He'|]. split; [now apply Hshare|]. split; discriminate. }
  split; apply without_paths_node_iff.
  - split; [apply has_node_In; now apply (all_simple_paths_source _ _ _ _ Hp)|].
    split; [discriminate|]. split; [discriminate|].
    destruct rest as [|v rest']; [congruence|].
    pose proof Hw as Hw1. apply is_walk_cons in Hw1. destruct Hw1 as [Hxe _].
    apply has_edge_iff in Hxe. destruct Hxe as [x Hx].
    exists (a, v, x). split.
    + apply Hkeep; [exact Hx | apply on_path_first_edge].
    + unfold touches, e_src. simpl. now rewrite String.eqb_refl.
  - split; [now apply has_node_In|].
    split; [discriminate|]. split; [discriminate|].
    destruct (walk_last_edge (graph w) rest a Hrest Hw) as [u [x [Hin Hon]]].
    rewrite <- Hl in Hin, Hon.
    exists (u, d, x). split.
    + now apply Hkeep.
    + unfold touches, e_dst. simpl. now rewrite String.eqb_refl, orb_true_r.
Qed.

(** * Two runs of the pipeline *)

(** Whether two nodes have a common ancestor does not depend on the order of
    the sets; which of their lowest common ancestors is found may. *)
Lemma lowest_common_ancestor_None_any_order (o1 o2 : SetOrder) (g : DiGraph)
    (n1 n2 : node) :
  @lowest_common_ancestor o1 g n1 n2 = inr None ->
  @lowest_common_ancestor o2 g n1 n2 = inr None.
Proof.
  unfold lowest_common_ancestor.
  destruct (negb (is_directed_acyclic_graph g)); [discriminate|].
  destruct (Nat.eqb (length (g_nodes g)) 0); [discriminate|].
  destruct (negb (has_node g n1 && has_node g n2)); [discriminate|].
  cbv zeta.
  destruct (filter _ (ancestors_or_self g n1)); [reflexivity | discriminate].
Qed.

Lemma no_bubble_any_order (o1 o2 : SetOrder) (g : DiGraph) :
  @no_bubble o1 g -> @no_bubble o2 g.
Proof.
  intros Hno nd Hin Hlen l1 node_i l2 Heq node_j Hj.
  apply (lowest_common_ancestor_None_any_order o1).
  now apply (Hno nd Hin Hlen l1 node_i l2 Heq).
Qed.

Lemma simplify_bubbles_without_bubble (o : SetOrder) (w : World) :
  @no_bubble o (graph w) -> forall depth, @simplify_bubbles o (S depth) w = Ok tt w.
Proof.
  intros Hno depth.
  destruct (@scan_nodes_quiet o (graph w) (g_nodes (graph w)) Hno
              (mkScan false None None)) as [s [Hs Hb]].
  cbn [simplify_bubbles]. unfold bind, get_graph. rewrite lift_world.
  unfold scan_bubbles. rewrite Hs. cbn [ret]. now rewrite Hb.
Qed.

(** Without a bubble in the graph of the reads, the pipeline never looks at
    the order of a set. *)
Lemma main_any_order (o1 o2 : SetOrder) (gen : Z -> nat -> nat) (depth : nat)
    (reads : list string) (kmer_size : nat) (w1 w2 : World) :
  @no_bubble o1 (build_graph (build_kmer_dict reads kmer_size)) ->
  @main o1 gen depth reads kmer_size w1 = @main o2 gen depth reads kmer_size w2.
Proof.
  intros Hno. unfold main.
  unfold bind at 1. unfold Random.seed. unfold bind at 1. unfold put_graph.
  unfold bind at 1. symmetry.
  unfold bind at 1. unfold bind at 1. unfold bind at 1. cbn [graph rng].
  destruct depth as [|d]; [reflexivity|].
  rewrite (simplify_bubbles_without_bubble o1) by exact Hno.
  rewrite (simplify_bubbles_without_bubble o2)
    by (apply (no_bubble_any_order o1); exact Hno).
  reflexivity.
Qed.

(** C8, as the code has it.  The generator is seeded with 9001 before
    anything else runs, so under one order of the sets a run does not depend
    on the world the process starts in (the state the generator had, the
    graph): two runs of the pipeline on the same reads and k agree on the
    outcome, contigs and final world alike.  Under two orders of the sets
    the two runs agree when the graph of the reads has no bubble.  Two runs
    of [select_best_path] on two paths of equal weights and equal lengths
    keep the same position [i], which the seeded generator alone
    determines. *)
Theorem seeded_runs_agree :
  forall (gen : Z -> nat -> nat),
    (forall (o : SetOrder) (depth : nat) (reads : list string) (kmer_size : nat)
            (w1 w2 : World),
        @main o gen depth reads kmer_size w1 = @main o gen depth reads kmer_size w2) /\
    (forall (o1 o2 : SetOrder) (depth : nat) (reads : list string) (kmer_size : nat)
            (w1 w2 : World),
        @no_bubble o1 (build_graph (build_kmer_dict reads kmer_size)) ->
        @main o1 gen depth reads kmer_size w1 = @main o2 gen depth reads kmer_size w2) /\
    (exists i : nat,
        i < 2 /\
        forall (p0 p1 : path) (l0 l1 x0 x1 : Q) (de ds : bool) (w1 w2 : World),
          (x0 == x1)%Q -> (l0 == l1)%Q -> graph w1 = graph w2 ->
          let run := Random.seed gen 9001 ;;
                     select_best_path [p0; p1] [l0; l1] [x0; x1] de ds in
          run w1 = remove_paths (without_nth i [p0; p1]) de ds
                     (mkWorld (graph w1) (fun k => gen 9001%Z (S k))) /\
          run w2 = run w1).
Proof.
  intros gen. split; [|split].
  - intros o depth reads k w1 w2. reflexivity.
  - intros o1 o2 depth reads k w1 w2. apply main_any_order.
  - destruct (randint_Ok 2 (mkWorld Nx.empty (gen 9001%Z))) as [i [Hi Hr]]; [lia|].
    exists i. split; [exact Hi|].
    intros p0 p1 l0 l1 x0 x1 de ds w1 w2 Hx Hl Hg.
    assert (Hrun : forall w,
               (Random.seed gen 9001 ;;
                select_best_path [p0; p1] [l0; l1] [x0; x1] de ds) w
               = remove_paths (without_nth i [p0; p1]) de ds
                   (mkWorld (graph w) (fun k => gen 9001%Z (S k)))).
    { intros w. unfold bind at 1. unfold Random.seed.
      unfold select_best_path. cbn [length Nat.eqb]. unfold bind.
      rewrite (stdev_positive_pair x0 x1 Hx), (stdev_positive_pair l0 l1 Hl).
      cbn [lift ret].
      unfold Random.randint in *. cbn [graph rng] in *.
      destruct (Z.ltb_spec (Z.of_nat 2 - 1) 0) as [Hlt|_]; [lia|].
      assert (Hz : (0 + Z.of_nat (gen 9001%Z 0%nat) mod (Z.of_nat 2 - 1 - 0 + 1))%Z
                   = Z.of_nat i) by (injection Hr; auto).
      cbn [ret]. rewrite Hz, Nat2Z.id.
      rewrite (py_pop_inr [p0; p1] i) by (simpl; lia). reflexivity. }
    cbv zeta. rewrite !Hrun. split; [reflexivity | now rewrite Hg].
Qed.

(** * The statements at concrete inputs *)

(** Where a statement depends on the order of the sets and names none, it
    is taken in node order. *)

(** A run of [remove_paths] on a -> b -> c with the isolated node [x]: the
    edge a -> b goes; [a], which this isolates, and [x] go with it. *)
Lemma remove_paths_deletes_every_isolated_node_witness :
  remove_paths [["a"; "b"]%string] false false (mkWorld g_with_isolated zeros)
  = Ok tt (mkWorld (mkDiGraph ["b"; "c"]%string [("b", "c", 1%Z)]%string) zeros)
  /\ degree g_with_isolated "x"%string = 0
  /\ ~ In "x"%string ["b"; "c"]%string.
Proof.
  split; [reflexivity|]. split; [reflexivity|].
  apply (proj2 (proj2 (remove_paths_deletes_every_isolated_node
                         [["a"; "b"]%string] false false
                         (mkWorld g_with_isolated zeros))
                  (mkWorld (mkDiGraph ["b"; "c"]%string [("b", "c", 1%Z)]%string) zeros)
                  eq_refl) "x"%string).
  - simpl. tauto.
  - reflexivity.
Defined.

(** C2 as stated fails: on [g_nested] the first of the three paths from [x]
    to [c] is kept (its weight 10 is the greatest), yet its edges x -> y and
    b -> c, which the second path shares, are not in the returned graph. *)
Lemma select_best_path_removes_shared_edges :
  select_best_path
    [["x"; "y"; "b"; "c"]; ["x"; "y"; "e"; "b"; "c"]; ["x"; "d"; "c"]]%string
    [3 # 1; 4 # 1; 2 # 1]%Q [10 # 1; 32 # 5; 1 # 1]%Q false false
    (mkWorld g_nested zeros)
  = Ok tt (mkWorld g_nested_solved zeros) /\
  first_argmax [10 # 1; 32 # 5; 1 # 1]%Q 0 /\
  on_path ["x"; "y"; "b"; "c"]%string ("x", "y", 10%Z)%string = true /\
  In ("x", "y", 10%Z)%string (g_edges g_nested) /\
  ~ In ("x", "y", 10%Z)%string (g_edges g_nested_solved).
Proof.
  split; [reflexivity|]. split.
  - split; [simpl; lia|]. split.
    + intros [|[|[|j]]] Hj; simpl in *; try lia; unfold Qle; simpl; lia.
    + intros j Hj. lia.
  - split; [reflexivity|]. split; [simpl; tauto|].
    simpl. intros [H|[]]. discriminate H.
Qed.

(** C7 as stated fails: on [g_nested] the scan of [simplify_bubbles] finds
    the bubble from [x] to [c]; solving it removes every edge at [x] and at
    [c], and both are then deleted as isolated nodes. *)
Lemma solve_bubble_deletes_ancestor_and_descendant :
  scan_bubbles g_nested = inr (mkScan true (Some "x"%string) (Some "c"%string)) /\
  solve_bubble (Some "x"%string) (Some "c"%string) (mkWorld g_nested zeros)
  = Ok tt (mkWorld g_nested_solved zeros) /\
  In "x"%string (g_nodes g_nested) /\ In "c"%string (g_nodes g_nested) /\
  ~ In "x"%string (g_nodes g_nested_solved) /\
  ~ In "c"%string (g_nodes g_nested_solved).
Proof.
  split; [reflexivity|]. split; [reflexivity|].
  split; [simpl; tauto|]. split; [simpl; tauto|].
  split; simpl; intros H; repeat destruct H as [H|H]; try discriminate H; exact H.
Qed.

Lemma g_nested_wf : wf g_nested.
Proof.
  split; [|split].
  - repeat constructor; simpl; intuition discriminate.
  - repeat constructor; simpl; intuition discriminate.
  - intros e He. simpl in He.
    repeat destruct He as [<-|He]; try contradiction; simpl; tauto.
Defined.

(** Two paths of weights 5 and 1: the first is kept. *)
Lemma select_best_path_policy_witness :
  exists (i : nat) (w1 : World),
    i < 2 /\
    select_best_path [["a"; "b"; "c"]; ["a"; "c"]]%string [2 # 1; 1 # 1]%Q [5 # 1; 1 # 1]%Q
      false false (mkWorld g_triangle zeros)
    = remove_paths (without_nth i [["a"; "b"; "c"]; ["a"; "c"]]%string) false false w1.
Proof.
  destruct (proj1 (proj2 (select_best_path_policy
                            [["a"; "b"; "c"]; ["a"; "c"]]%string
                            [2 # 1; 1 # 1]%Q [5 # 1; 1 # 1]%Q false false
                            (mkWorld g_triangle zeros)))
              (le_n 2) eq_refl eq_refl) as [i [w1 [Hi [_ [Hrun _]]]]].
  exists i, w1. split; [exact Hi | exact Hrun].
Defined.

(** The three paths of [g_nested]: after the call no edge of a removed path
    is left, and no node of degree 0. *)
Lemma select_best_path_removes_losing_paths_witness :
  exists i : nat,
    i < 3 /\
    forall n, In n (g_nodes g_nested_solved) -> degree g_nested_solved n <> 0.
Proof.
  destruct (proj2 (select_best_path_removes_losing_paths
                     [["x"; "y"; "b"; "c"]; ["x"; "y"; "e"; "b"; "c"]; ["x"; "d"; "c"]]%string
                     [3 # 1; 4 # 1; 2 # 1]%Q [10 # 1; 32 # 5; 1 # 1]%Q false false
                     (mkWorld g_nested zeros) (le_S 2 2 (le_n 2)))
              (mkWorld g_nested_solved zeros) eq_refl) as [i [Hi [_ [_ [_ Hdeg]]]]].
  exists i. split; [exact Hi | exact Hdeg].
Defined.

(** [simplify_bubbles] on [g_nested], whose seven edges allow depth 8. *)
Lemma simplify_bubbles_terminates_witness :
  wf g_nested /\
  ((exists w', simplify_bubbles 8 (mkWorld g_nested zeros) = Ok tt w') \/
   (exists e w', simplify_bubbles 8 (mkWorld g_nested zeros) = Raise e w')).
Proof.
  split; [exact g_nested_wf|].
  apply (proj1 (simplify_bubbles_terminates (mkWorld g_nested zeros) g_nested_wf) 8).
  unfold number_of_edges. simpl. lia.
Defined.

(** The bubble of the triangle: of the two paths from [a] to [c], neither
    shares an edge with the other; the chord a -> c is kept, the edges
    a -> b and b -> c go, and [b] with them; [a] and [c] stay. *)
Lemma solve_bubble_keeps_nodes_with_an_edge_witness :
  has_node g_triangle "c"%string = true /\
  solve_bubble (Some "a"%string) (Some "c"%string) (mkWorld g_triangle zeros)
  = Ok tt (mkWorld (mkDiGraph ["a"; "c"]%string [("a", "c", 10%Z)]%string) zeros) /\
  all_simple_paths g_triangle "a"%string "c"%string
  = inr [["a"; "b"; "c"]; ["a"; "c"]]%string /\
  In "a"%string ["a"; "c"]%string /\ In "c"%string ["a"; "c"]%string.
Proof.
  split; [reflexivity|]. split; [reflexivity|]. split; [reflexivity|].
  destruct (solve_bubble_keeps_nodes_with_an_edge
              "a"%string "c"%string (mkWorld g_triangle zeros)
              (mkWorld (mkDiGraph ["a"; "c"]%string [("a", "c", 10%Z)]%string) zeros)
              eq_refl eq_refl)
    as [paths [weights [Hp [_ [[Hone _]|[_ [i [w1 [w2 H]]]]]]]]];
    vm_compute in Hp; injection Hp as <-; [discriminate Hone|].
  cbv zeta in H. destruct H as [Hi [_ [_ [_ [_ [_ [_ [_ [_ [_ Hkeep]]]]]]]]]].
  apply Hkeep. intros [[u v] x] Hon.
  destruct i as [|[|i]]; [| |simpl in Hi; lia];
    unfold on_paths, on_path, is_edge, e_src, e_dst in *; simpl in *;
    clear Hkeep;
    destruct (String.eqb_spec u "a"), (String.eqb_spec u "b"),
      (String.eqb_spec v "b"), (String.eqb_spec v "c");
    subst; simpl in *; try reflexivity; try discriminate; congruence.
Defined.

(** Two paths of weight 3 and length 2 under a generator whose draws are all
    0: both runs keep the same position.  The graph of the read TCAGA has no
    node with two predecessors: the runs under two orders of the sets
    agree. *)
Lemma seeded_runs_agree_witness :
  (exists i : nat,
     i < 2 /\
     (Random.seed (fun _ _ => 0) 9001 ;;
      select_best_path [["a"; "b"; "c"]; ["a"; "c"]]%string [2 # 1; 2 # 1]%Q
        [3 # 1; 6 # 2]%Q false false) (mkWorld g_triangle (fun _ => 7))
     = (Random.seed (fun _ _ => 0) 9001 ;;
        select_best_path [["a"; "b"; "c"]; ["a"; "c"]]%string [2 # 1; 2 # 1]%Q
          [3 # 1; 6 # 2]%Q false false) (mkWorld g_triangle zeros)) /\
  @main node_order (fun _ _ => 0) 5 ["TCAGA"%string] 3 initial_world
  = @main reverse_node_order (fun _ _ => 0) 5 ["TCAGA"%string] 3 initial_world.
Proof.
  split.
  - destruct (proj2 (proj2 (seeded_runs_agree (fun _ _ => 0)))) as [i [Hi Hrun]].
    exists i. split; [exact Hi|].
    refine (proj2 (Hrun ["a"; "b"; "c"]%string ["a"; "c"]%string
                     (2 # 1)%Q (2 # 1)%Q (3 # 1)%Q (6 # 2)%Q false false
                     (mkWorld g_triangle zeros) (mkWorld g_triangle (fun _ => 7))
                     _ _ eq_refl)); reflexivity.
  - apply (proj1 (proj2 (seeded_runs_agree (fun _ _ => 0)))).
    intros nd Hin Hlen. exfalso. vm_compute in Hin.
    repeat destruct Hin as [<-|Hin]; try contradiction; vm_compute in Hlen; lia.
Defined.

(** C8 as stated fails: the seed does not fix the order in which a set of
    strings is iterated.  In the graph of [reads_two_ancestors] the scan
    reaches the predecessors CTA and GTA of TAG, whose common ancestors are
    CCA, CAA, TTG and TGG.  Starting from the first of them
    [lowest_common_ancestor] finds CAA, starting from the last it finds TGG,
    and the two runs, which draw no number, end with different contigs. *)
Lemma seeded_runs_differ_with_the_order_of_the_sets :
  build_graph (build_kmer_dict reads_two_ancestors 4) = g_two_ancestors /\
  predecessors g_two_ancestors "TAG"%string = ["CTA"; "GTA"]%string /\
  @lowest_common_ancestor node_order g_two_ancestors "CTA"%string "GTA"%string
  = inr (Some "CAA"%string) /\
  @lowest_common_ancestor reverse_node_order g_two_ancestors "CTA"%string "GTA"%string
  = inr (Some "TGG"%string) /\
  @scan_bubbles node_order g_two_ancestors
  = inr (mkScan true (Some "CAA"%string) (Some "TAG"%string)) /\
  @scan_bubbles reverse_node_order g_two_ancestors
  = inr (mkScan true (Some "TGG"%string) (Some "TAG"%string)) /\
  forall (gen : Z -> nat -> nat) (depth : nat) (w1 w2 : World),
    (exists w', @main node_order gen (2 + depth) reads_two_ancestors 4 w1
                = Ok [("TTGGACGTAG"%string, 10)] w') /\
    (exists w', @main reverse_node_order gen (2 + depth) reads_two_ancestors 4 w2
                = Ok [("CAACTA"%string, 6); ("TTGGACGTAG"%string, 10)] w').
Proof.
  split; [vm_compute; reflexivity|]. split; [reflexivity|].
  split; [vm_compute; reflexivity|]. split; [vm_compute; reflexivity|].
  split; [vm_compute; reflexivity|]. split; [vm_compute; reflexivity|].
  intros gen depth w1 w2. split; eexists; vm_compute; reflexivity.
Qed.


(** The contig of the one path of the two reads. *)
Lemma get_contigs_emits_contig_of_every_path_witness :
  exists contigs,
    get_contigs g_two_reads ["AAC"%string] ["TAA"%string] = inr contigs /\
    In ("AACCGGTTAA"%string, 10) contigs.
Proof.
  destruct (proj1 (get_contigs_emits_contig_of_every_path
                     g_two_reads ["AAC"%string] ["TAA"%string]))
    as [contigs [Hrun Hall]].
  - intros s [<-|[]]. reflexivity.
  - exists contigs. split; [exact Hrun|].
    apply (Hall "AAC"%string "TAA"%string
             [["AAC"; "ACC"; "CCG"; "CGG"; "GGT"; "GTT"; "TTA"; "TAA"]%string]
             ["AAC"; "ACC"; "CCG"; "CGG"; "GGT"; "GTT"; "TTA"; "TAA"]%string).
    + now left.
    + now left.
    + reflexivity.
    + now left.
    + intros n Hn. simpl in Hn.
      repeat destruct Hn as [<-|Hn]; try contradiction; reflexivity.
Defined.

Lemma g_rho_wf : wf g_rho.
Proof.
  split; [|split].
  - repeat constructor; simpl; intuition discriminate.
  - repeat constructor; simpl; intuition discriminate.
  - intros e He. simpl in He.
    repeat destruct He as [<-|He]; try contradiction; simpl; tauto.
Defined.

Lemma g_rho_cyclic : ~ acyclic g_rho.
Proof.
  intros H. apply (H ["a"; "b"]%string); [discriminate|].
  intros y [<-|[<-|[]]]; [exists "b"%string | exists "a"%string];
    (split; [simpl; tauto | reflexivity]).
Defined.

Lemma g_entry_tip_wf : wf g_entry_tip.
Proof.
  split; [|split].
  - repeat constructor; simpl; intuition discriminate.
  - repeat constructor; simpl; intuition discriminate.
  - intros e He. simpl in He.
    repeat destruct He as [<-|He]; try contradiction; simpl; tauto.
Defined.

Lemma g_out_tip_wf : wf g_out_tip.
Proof.
  split; [|split].
  - repeat constructor; simpl; intuition discriminate.
  - repeat constructor; simpl; intuition discriminate.
  - intros e He. simpl in He.
    repeat destruct He as [<-|He]; try contradiction; simpl; tauto.
Defined.

(** The windows of ACGT: three of size 2, none of size 5. *)
Lemma cut_kmer_windows_witness :
  length (cut_kmer "ACGT"%string 2) = 3 /\
  cut_kmer "ACGT"%string 5 = [] /\
  nth 1 (cut_kmer "ACGT"%string 2) EmptyString = "CG"%string.
Proof.
  destruct (cut_kmer_windows "ACGT"%string 2) as [H1 [_ H3]].
  destruct (cut_kmer_windows "ACGT"%string 5) as [_ [H2 _]].
  split; [exact H1|]. split; [apply H2; simpl; lia|].
  destruct (H3 1) as [E _]; [simpl; lia | exact E].
Defined.

(** The reads CAAG, CAG, CAG for k = 3: CAG is seen twice, four windows in
    all. *)
Lemma build_graph_weights_witness :
  2 <= 3 /\
  get_edge_data g_indel "CA"%string "AG"%string = Some 2%Z /\
  total_weight g_indel = 4%Z.
Proof.
  pose proof (build_graph_weights ["CAAG"; "CAG"; "CAG"]%string 3 (le_S 2 2 (le_n 2)))
    as H.
  cbv zeta in H. destruct H as [_ [H2 H3]].
  split; [lia|]. split; [exact (H2 "CAG"%string) | exact H3].
Defined.

Lemma build_graph_nodes_witness :
  NoDup (g_nodes g_indel) /\
  String.length "CA"%string = 2 /\
  degree g_indel "AA"%string <> 0.
Proof.
  pose proof (build_graph_nodes ["CAAG"; "CAG"; "CAG"]%string 3) as H.
  cbv zeta in H. destruct H as [H1 [_ [H3 H4]]].
  split; [exact H1|]. split.
  - apply (H3 "CA"%string). simpl. tauto.
  - apply (H4 "AA"%string). simpl. tauto.
Defined.

Lemma read_is_a_walk_of_the_graph_witness :
  In "CAAG"%string ["CAAG"; "CAG"; "CAG"]%string /\
  is_walk g_indel ["CA"; "AA"; "AG"]%string /\
  contig_of_path ["CA"; "AA"; "AG"]%string = inr "CAAG"%string.
Proof.
  assert (Hin : In "CAAG"%string ["CAAG"; "CAG"; "CAG"]%string) by (simpl; tauto).
  pose proof (read_is_a_walk_of_the_graph ["CAAG"; "CAG"; "CAG"]%string 3
                "CAAG"%string Hin)
    as H.
  cbv zeta in H. destruct H as [H1 H2].
  split; [exact Hin|]. split; [exact H1|].
  apply H2; simpl; lia.
Defined.

Lemma main_on_short_reads_witness :
  main (fun _ => zeros) 1 ["AC"; "G"]%string 3 initial_world
  = Ok [] (mkWorld Nx.empty zeros).
Proof.
  apply (main_on_short_reads (fun _ => zeros) 0 ["AC"; "G"]%string 3 initial_world).
  intros read [<-|[<-|[]]]; simpl; lia.
Defined.

Lemma simplify_bubbles_result_witness :
  wf g_nested /\
  simplify_bubbles 8 (mkWorld g_nested zeros) = Ok tt (mkWorld g_nested_solved zeros) /\
  subgraph_of g_nested_solved g_nested /\
  simplify_bubbles 1 (mkWorld g_nested_solved zeros)
  = Ok tt (mkWorld g_nested_solved zeros).
Proof.
  assert (Hrun : simplify_bubbles 8 (mkWorld g_nested zeros)
                 = Ok tt (mkWorld g_nested_solved zeros)) by reflexivity.
  destruct (simplify_bubbles_result 8 (mkWorld g_nested zeros)
              (mkWorld g_nested_solved zeros) g_nested_wf Hrun) as [H1 [_ [_ H4]]].
  split; [exact g_nested_wf|]. split; [exact Hrun|]. split; [exact H1 | exact (H4 0)].
Defined.

Lemma simplify_bubbles_on_a_cycle_witness :
  wf g_rho /\ ~ acyclic g_rho /\
  simplify_bubbles 1 (mkWorld g_rho zeros) = Raise NetworkXError (mkWorld g_rho zeros).
Proof.
  split; [exact g_rho_wf|]. split; [exact g_rho_cyclic|].
  apply (proj1 (simplify_bubbles_on_a_cycle 0 (mkWorld g_rho zeros) g_rho_wf g_rho_cyclic)).
  exists "a"%string. split; [simpl; tauto | simpl; lia].
Defined.

Lemma solve_entry_tips_result_witness :
  wf g_entry_tip /\
  solve_entry_tips 2 ["s1"; "s2"]%string (mkWorld g_entry_tip zeros)
  = Ok tt (mkWorld (mkDiGraph ["s1"; "n"; "m"]%string
                      [("s1", "n", 5%Z); ("n", "m", 5%Z)]%string) zeros) /\
  subgraph_of (mkDiGraph ["s1"; "n"; "m"]%string
                 [("s1", "n", 5%Z); ("n", "m", 5%Z)]%string) g_entry_tip.
Proof.
  split; [exact g_entry_tip_wf|].
  assert (Hrun : solve_entry_tips 2 ["s1"; "s2"]%string (mkWorld g_entry_tip zeros)
                 = Ok tt (mkWorld (mkDiGraph ["s1"; "n"; "m"]%string
                                     [("s1", "n", 5%Z); ("n", "m", 5%Z)]%string) zeros))
    by reflexivity.
  destruct (proj2 (solve_entry_tips_result ["s1"; "s2"]%string (mkWorld g_entry_tip zeros))
              2 _ g_entry_tip_wf Hrun) as [_ [H2 _]].
  split; [exact Hrun | exact H2].
Defined.

Lemma solve_out_tips_result_witness :
  wf g_out_tip /\
  solve_out_tips 2 ["e1"; "e2"]%string (mkWorld g_out_tip zeros)
  = Ok tt (mkWorld (mkDiGraph ["m"; "n"; "e1"]%string
                      [("m", "n", 5%Z); ("n", "e1", 5%Z)]%string) zeros) /\
  subgraph_of (mkDiGraph ["m"; "n"; "e1"]%string
                 [("m", "n", 5%Z); ("n", "e1", 5%Z)]%string) g_out_tip.
Proof.
  split; [exact g_out_tip_wf|].
  assert (Hrun : solve_out_tips 2 ["e1"; "e2"]%string (mkWorld g_out_tip zeros)
                 = Ok tt (mkWorld (mkDiGraph ["m"; "n"; "e1"]%string
                                     [("m", "n", 5%Z); ("n", "e1", 5%Z)]%string) zeros))
    by reflexivity.
  destruct (proj2 (solve_out_tips_result ["e1"; "e2"]%string (mkWorld g_out_tip zeros))
              2 _ g_out_tip_wf Hrun) as [_ [H2 _]].
  split; [exact Hrun | exact H2].
Defined.

(** On [g_rho] the first node with two predecessors is [a]: a starting node
    that is not in the graph, no starting node, and the one starting node
    [s]. *)
Lemma solve_entry_tips_without_two_candidates_witness :
  first_merge g_rho = Some "a"%string /\
  solve_entry_tips 1 ["zz"]%string (mkWorld g_rho zeros)
  = Raise NodeNotFound (mkWorld g_rho zeros) /\
  solve_entry_tips 1 [] (mkWorld g_rho zeros)
  = Raise StatisticsError (mkWorld g_rho zeros) /\
  solve_entry_tips 5 ["s"]%string (mkWorld g_rho zeros) = Diverge.
Proof.
  split; [reflexivity|]. split; [|split].
  - apply (proj1 (solve_entry_tips_without_two_candidates
                    ["zz"]%string (mkWorld g_rho zeros) "a"%string eq_refl)).
    exists "zz"%string. split; [now left | reflexivity].
  - refine (proj1 (proj2 (solve_entry_tips_without_two_candidates
                            [] (mkWorld g_rho zeros) "a"%string eq_refl) _) eq_refl 0).
    intros s [].
  - refine (proj2 (proj2 (solve_entry_tips_without_two_candidates
                            ["s"]%string (mkWorld g_rho zeros) "a"%string eq_refl) _)
              eq_refl 5).
    intros s [<-|[]]. reflexivity.
Defined.

(** On [g_repeat] the first node with two successors is CA: no ending node,
    and the one sink AG. *)
Lemma solve_out_tips_without_two_candidates_witness :
  first_fork g_repeat = Some "CA"%string /\
  solve_out_tips 1 [] (mkWorld g_repeat zeros)
  = Raise StatisticsError (mkWorld g_repeat zeros) /\
  solve_out_tips 5 ["AG"]%string (mkWorld g_repeat zeros) = Diverge.
Proof.
  split; [reflexivity|]. split.
  - exact (proj1 (solve_out_tips_without_two_candidates
                    [] (mkWorld g_repeat zeros) "CA"%string eq_refl) eq_refl 0).
  - exact (proj2 (solve_out_tips_without_two_candidates
                    ["AG"]%string (mkWorld g_repeat zeros) "CA"%string eq_refl)
             eq_refl 5).
Defined.

(** The edge a -> b asked for twice: the second removal fails, and the first
    is not undone. *)
Lemma remove_paths_fails_at_first_missing_edge_witness :
  remove_paths [["a"; "b"]; ["a"; "b"]]%string false false (mkWorld g_triangle zeros)
  = Raise NetworkXError
      (mkWorld (mkDiGraph ["a"; "b"; "c"]%string
                  [("b", "c", 1%Z); ("a", "c", 10%Z)]%string) zeros).
Proof.
  refine (remove_paths_fails_at_first_missing_edge
            [["a"; "b"]; ["a"; "b"]]%string false false (mkWorld g_triangle zeros)
            [("a", "b")]%string [] "a"%string "b"%string eq_refl _ _ _).
  - repeat constructor. simpl. tauto.
  - intros uv [<-|[]]. reflexivity.
  - left. now left.
Defined.

Lemma repeated_kmer_makes_a_cycle_witness :
  In "ACACAG"%string ["ACACAG"%string] /\
  ~ NoDup (cut_kmer "ACACAG"%string 2) /\
  ~ acyclic g_repeat.
Proof.
  assert (Hin : In "ACACAG"%string ["ACACAG"%string]) by now left.
  assert (Hrep : ~ NoDup (cut_kmer "ACACAG"%string (3 - 1))).
  { intros H. inversion H as [|x l Hx Hl]. apply Hx. simpl. tauto. }
  split; [exact Hin|]. split; [exact Hrep|].
  exact (repeated_kmer_makes_a_cycle ["ACACAG"%string] 3 "ACACAG"%string Hin Hrep).
Defined.

Lemma g_entered_cycle_cyclic : ~ acyclic g_entered_cycle.
Proof.
  apply (repeat_is_cyclic ["TACAC"%string] 3 "TACAC"%string); [now left|].
  intros H. inversion H as [|x l Hx Hl]. inversion Hl as [|y l' Hy Hl'].
  apply Hy. simpl. tauto.
Defined.

(** The read TACAC for k = 3: the cycle AC -> CA -> AC is entered from TA, so
    that AC has two predecessors. *)
Lemma main_raises_on_a_cycle_with_a_merge_witness :
  ~ acyclic g_entered_cycle /\
  1 < length (predecessors g_entered_cycle "AC"%string) /\
  main (fun _ => zeros) 1 ["TACAC"%string] 3 initial_world
  = Raise NetworkXError (mkWorld g_entered_cycle zeros).
Proof.
  split; [exact g_entered_cycle_cyclic|]. split; [simpl; lia|].
  apply (main_raises_on_a_cycle_with_a_merge (fun _ => zeros) 0 ["TACAC"%string] 3
           initial_world g_entered_cycle_cyclic).
  exists "AC"%string. split; [simpl; tauto | simpl; lia].
Defined.

(** The read ACGT for k = 3. *)
Lemma main_reassembles_a_read_without_repeat_witness :
  2 <= 3 /\ 3 <= String.length "ACGT"%string /\
  NoDup (cut_kmer "ACGT"%string 2) /\
  main (fun _ => zeros) 1 ["ACGT"%string] 3 initial_world
  = Ok [("ACGT"%string, 4)] (mkWorld (chain ["AC"; "CG"; "GT"]%string) zeros).
Proof.
  assert (Hnd : NoDup (cut_kmer "ACGT"%string (3 - 1))).
  { repeat constructor; simpl; intuition discriminate. }
  assert (Hk : 2 <= 3) by lia.
  assert (Hlen : 3 <= String.length "ACGT"%string) by (simpl; lia).
  split; [exact Hk|]. split; [exact Hlen|]. split; [exact Hnd|].
  exact (proj2 (main_reassembles_a_read_without_repeat (fun _ => zeros) 0
                  "ACGT"%string 3 initial_world Hk Hlen Hnd)).
Defined.

Lemma get_contigs_emits_contigs_of_paths_only_witness :
  get_contigs g_rho ["zz"]%string ["a"]%string = inl NodeNotFound /\
  get_contigs g_two_reads (get_starting_nodes g_two_reads) (get_sink_nodes g_two_reads)
  = inr [("AACCGGTTAA"%string, 10)] /\
  10 = String.length "AACCGGTTAA"%string.
Proof.
  split; [|split].
  - apply (proj1 (get_contigs_emits_contigs_of_paths_only g_rho ["zz"]%string ["a"]%string)).
    + discriminate.
    + exists "zz"%string. split; [now left | reflexivity].
  - reflexivity.
  - refine (proj1 (proj2 (get_contigs_emits_contigs_of_paths_only g_two_reads
                            (get_starting_nodes g_two_reads) (get_sink_nodes g_two_reads))
                     [("AACCGGTTAA"%string, 10)] eq_refl "AACCGGTTAA"%string 10 _)).
    now left.
Defined.

(** The path x, y, b, c of [g_nested]: three edges of weight 10. *)
Lemma path_average_weight_without_chords_witness :
  wf g_nested /\
  is_walk g_nested ["x"; "y"; "b"; "c"]%string /\
  exists q q' : Q,
    path_average_weight g_nested ["x"; "y"; "b"; "c"]%string = inr q /\
    mean_along_path g_nested ["x"; "y"; "b"; "c"]%string = inr q' /\
    (q == q')%Q.
Proof.
  assert (Hw : is_walk g_nested ["x"; "y"; "b"; "c"]%string) by (simpl; tauto).
  split; [exact g_nested_wf|]. split; [exact Hw|].
  apply (path_average_weight_without_chords g_nested ["x"; "y"; "b"; "c"]%string
           g_nested_wf).
  - repeat constructor; simpl; intuition discriminate.
  - exact Hw.
  - simpl. lia.
  - intros e He. simpl in He.
    repeat destruct He as [<-|He]; try contradiction; simpl; intuition discriminate.
Defined.

Lemma g_nested_acyclic : acyclic g_nested.
Proof. apply is_directed_acyclic_graph_sound; [exact g_nested_wf | reflexivity]. Defined.

Lemma starting_nodes_and_sinks_witness :
  wf g_nested /\ acyclic g_nested /\
  get_starting_nodes g_nested <> [] /\ get_sink_nodes g_nested <> [].
Proof.
  split; [exact g_nested_wf|]. split; [exact g_nested_acyclic|].
  apply (proj2 (proj2 (starting_nodes_and_sinks g_nested g_nested_wf)) g_nested_acyclic).
  discriminate.
Defined.

(** The reads AACCGGTT and CCGGTTAA for k = 4. *)
Lemma main_result_witness :
  main (fun _ => zeros) 1 ["AACCGGTT"; "CCGGTTAA"]%string 4 initial_world
  = Ok [("AACCGGTTAA"%string, 10)] (mkWorld g_two_reads zeros) /\
  wf g_two_reads /\
  4 <= 10.
Proof.
  assert (Hrun : main (fun _ => zeros) 1 ["AACCGGTT"; "CCGGTTAA"]%string 4 initial_world
                 = Ok [("AACCGGTTAA"%string, 10)] (mkWorld g_two_reads zeros))
    by reflexivity.
  destruct (main_result _ _ _ _ _ _ _ Hrun) as [Hwf [_ [_ Hc]]].
  split; [exact Hrun|]. split; [exact Hwf|].
  apply (proj2 (Hc "AACCGGTTAA"%string 10 (or_introl eq_refl))). lia.
Defined.

(** One record: the sequence ACGT on its line, the line break stripped. *)
Lemma read_fastq_yields_witness :
  read_fastq [String "@" "r1"; String "A" (String "C" (String "G" (String "T"
                (String "010" EmptyString)))); String "+" EmptyString;
              String "I" "III"]%string
  = (["ACGT"%string], Exhausted) /\
  py_strip (String "A" (String "C" (String "G" (String "T"
              (String "010" EmptyString))))) = "ACGT"%string.
Proof.
  split.
  - refine (proj1 read_fastq_yields
              [(String "@" "r1", String "A" (String "C" (String "G" (String "T"
                  (String "010" EmptyString)))), String "+" EmptyString,
                String "I" "III")]%string _).
    intros r [<-|[]]. discriminate.
  - exact (proj2 (proj2 read_fastq_yields) EmptyString "ACGT"%string
             (String "010" EmptyString) eq_refl eq_refl eq_refl).
Defined.

(** One contig of ten characters, and one contig of one character, whose
    record at index 0 gets no line break. *)
Lemma save_contigs_records_witness :
  save_contigs (fun s => s) [("AACCGGTTAA"%string, 10)]
  = (">contig_0 len=10" ++ String "010"%char "AACCGGTTAA"
     ++ String "010"%char EmptyString)%string /\
  save_contigs (fun s => s) [("A"%string, 1); ("CC"%string, 2)]
  = (">contig_0 len=1" ++ String "010"%char "A>contig_1 len=2"
     ++ String "010"%char "CC")%string.
Proof.
  split.
  - exact (save_contigs_records (fun s => s) [] [] "AACCGGTTAA"%string 10).
  - exact (save_contigs_records (fun s => s) [] [("CC"%string, 2)] "A"%string 1).
Defined.

(** On the path graph a -> b -> c with the node x apart: from x nothing leads
    to c, and one path leads from a to c. *)
Lemma solve_bubble_without_two_paths_witness :
  solve_bubble (Some "zz"%string) (Some "c"%string) (mkWorld g_with_isolated zeros)
  = Raise NodeNotFound (mkWorld g_with_isolated zeros) /\
  solve_bubble (Some "x"%string) (Some "c"%string) (mkWorld g_with_isolated zeros)
  = Raise StatisticsError (mkWorld g_with_isolated zeros) /\
  solve_bubble (Some "a"%string) (Some "c"%string) (mkWorld g_with_isolated zeros)
  = Ok tt (mkWorld g_with_isolated zeros).
Proof.
  split; [|split].
  - exact (proj1 (proj2 (solve_bubble_without_two_paths
                           (mkWorld g_with_isolated zeros) "zz"%string "c"%string))
             eq_refl (Some "c"%string)).
  - exact (proj1 (proj2 (proj2 (solve_bubble_without_two_paths
                                  (mkWorld g_with_isolated zeros) "x"%string "c"%string)))
             eq_refl).
  - exact (proj2 (proj2 (proj2 (proj2 (solve_bubble_without_two_paths
                                         (mkWorld g_with_isolated zeros)
                                         "a"%string "c"%string))))
             ["a"; "b"; "c"]%string eq_refl).
Defined.

(** Two paths of equal weights and equal lengths: one draw. *)
Lemma select_best_path_draws_witness :
  select_best_path [["a"; "b"; "c"]; ["a"; "c"]]%string [1 # 1; 1 # 1]%Q [2 # 1; 2 # 1]%Q
    false false (mkWorld g_triangle (fun k => k))
  = Ok tt (mkWorld (mkDiGraph ["a"; "b"; "c"]%string
                      [("a", "b", 1%Z); ("b", "c", 1%Z)]%string) (fun k => S k)) /\
  (fun k => S k) = (fun k : nat => (fun j : nat => j) (S k)).
Proof.
  assert (Hrun : select_best_path [["a"; "b"; "c"]; ["a"; "c"]]%string
                   [1 # 1; 1 # 1]%Q [2 # 1; 2 # 1]%Q false false
                   (mkWorld g_triangle (fun k => k))
                 = Ok tt (mkWorld (mkDiGraph ["a"; "b"; "c"]%string
                                     [("a", "b", 1%Z); ("b", "c", 1%Z)]%string)
                            (fun k => S k))) by reflexivity.
  split; [exact Hrun|].
  exact (proj2 (proj2 (select_best_path_draws
                         [["a"; "b"; "c"]; ["a"; "c"]]%string [1 # 1; 1 # 1]%Q
                         [2 # 1; 2 # 1]%Q false false (mkWorld g_triangle (fun k => k))
                         _ eq_refl eq_refl Hrun))
           (le_n 2) eq_refl eq_refl).
Defined.

Lemma one_contig_per_starting_node_witness :
  main (fun _ => zeros) 1 ["AACCGGTT"; "CCGGTTAA"]%string 4 initial_world
  = Ok [("AACCGGTTAA"%string, 10)] (mkWorld g_two_reads zeros) /\
  1 <= length (get_starting_nodes g_two_reads).
Proof.
  assert (Hrun : main (fun _ => zeros) 1 ["AACCGGTT"; "CCGGTTAA"]%string 4 initial_world
                 = Ok [("AACCGGTTAA"%string, 10)] (mkWorld g_two_reads zeros))
    by reflexivity.
  split; [exact Hrun|].
  exact (proj2 one_contig_per_starting_node _ _ _ _ _ _ _ Hrun).
Defined.

(** The reads TCAGGATCGG and TCAGCATCGG make a bubble from CAG to ATC; the
    read ACTCGG adds an entry tip at TCG, a node that comes after ATC. *)
Lemma simplify_bubbles_loses_the_bubble_witness :
  wf g_bubble_then_tip /\
  is_directed_acyclic_graph g_bubble_then_tip = true /\
  lowest_common_ancestor g_bubble_then_tip "GAT"%string "CAT"%string
  = inr (Some "CAG"%string) /\
  lowest_common_ancestor g_bubble_then_tip "ATC"%string "CTC"%string = inr None /\
  main (fun _ => zeros) 1 ["TCAGGATCGG"; "TCAGCATCGG"; "ACTCGG"]%string 4 initial_world
  = Raise NodeNotFound (mkWorld g_bubble_then_tip zeros).
Proof.
  assert (Hwf : wf g_bubble_then_tip) by apply build_graph_wf.
  split; [exact Hwf|]. split; [reflexivity|]. split; [reflexivity|].
  split; [reflexivity|].
  refine (proj2 (simplify_bubbles_loses_the_bubble g_bubble_then_tip
                   ["TCA"; "CAG"; "AGG"; "GGA"; "GAT"; "ATC"]%string
                   ["CGG"; "AGC"; "GCA"; "CAT"; "ACT"; "CTC"]%string "TCG"%string
                   Hwf eq_refl eq_refl _ _ _)
            (fun _ => zeros) 0 ["TCAGGATCGG"; "TCAGCATCGG"; "ACTCGG"]%string 4
            initial_world eq_refl).
  - exists "ATC"%string, [], "GAT"%string, ["CAT"%string], "CAT"%string, "CAG"%string.
    split; [simpl; tauto|]. split; [reflexivity|]. split; [now left | reflexivity].
  - vm_compute. lia.
  - intros n Hn Hl. simpl in Hn.
    repeat destruct Hn as [<-|Hn]; try contradiction;
      try (exfalso; vm_compute in Hl; lia).
    intros l1 ni l2 Heq nj Hj. vm_compute in Heq.
    destruct l1 as [|x [|y l1]]; simpl in Heq.
    + injection Heq as <- <-. destruct Hj as [<-|[]]. reflexivity.
    + injection Heq as _ <- <-. destruct Hj.
    + injection Heq as _ _ Heq. destruct l1; discriminate Heq.
Defined.
